(** * Dataset lineage: trees, relations and their merge / extract / diff

    A shallow embedding of [datacube/model/lineage.py]:
    [LineageDirection], [LineageTree], [LineageRelation] and the indexed
    collection [LineageRelations] with [merge_new_home],
    [merge_new_lineage_relation], [_merge_new_node], [merge], [merge_tree],
    [relations_diff] and [extract_tree].

    Python dictionaries keep insertion order and that order is visible (it
    fixes the order of the children of an extracted tree), so they are
    modelled as association lists with unique keys.  Methods mutate the
    collection in place; here each method takes the collection and returns
    the new one, or the exception it raises. *)

From Stdlib Require Import List String NArith ZArith Bool Lia.
Import ListNotations.

Set Implicit Arguments.

(** ** Keys with a boolean equality *)

Class EqKey (K : Type) := {
  keqb : K -> K -> bool;
  keqb_spec : forall x y, reflect (x = y) (keqb x y)
}.

#[global, refine] Instance EqKey_N : EqKey N := {| keqb := N.eqb |}.
Proof. intros x y. apply N.eqb_spec. Defined.

#[global, refine] Instance EqKey_string : EqKey string := {| keqb := String.eqb |}.
Proof. intros x y. apply String.eqb_spec. Defined.

#[global, refine] Instance EqKey_pair {A B} `{EqKey A} `{EqKey B} : EqKey (A * B) :=
  {| keqb := fun p q => keqb (fst p) (fst q) && keqb (snd p) (snd q) |}.
Proof.
  intros [a b] [c d]; simpl.
  destruct (keqb_spec a c); destruct (keqb_spec b d); simpl; constructor; congruence.
Defined.

#[global, refine] Instance EqKey_option {A} `{EqKey A} : EqKey (option A) :=
  {| keqb := fun p q => match p, q with
                        | Some a, Some b => keqb a b
                        | None, None => true
                        | _, _ => false
                        end |}.
Proof.
  intros [a|] [b|]; try (constructor; congruence).
  destruct (keqb_spec a b); constructor; congruence.
Defined.

(** ** Insertion-ordered dictionaries and sets *)

Module Dict.
Section Dict.
Context {K V : Type} `{EqKey K}.

Definition t := list (K * V).

Definition empty : t := [].

(** [d.get(k)] *)
Fixpoint get (d : t) (k : K) : option V :=
  match d with
  | [] => None
  | (k', v) :: r => if keqb k k' then Some v else get r k
  end.

(** [k in d] *)
Definition mem (d : t) (k : K) : bool :=
  match get d k with Some _ => true | None => false end.

(** [d[k] = v]: an existing key keeps its position, a new key goes last. *)
Fixpoint set (d : t) (k : K) (v : V) : t :=
  match d with
  | [] => [(k, v)]
  | (k', v') :: r => if keqb k k' then (k', v) :: r else (k', v') :: set r k v
  end.

Definition keys (d : t) : list K := map fst d.

End Dict.
Arguments t : clear implicits.
End Dict.

Abbreviation dict := Dict.t.

(** Python sets of ids; only membership is ever observed. *)
Module IdSet.
Section IdSet.
Context {K : Type} `{EqKey K}.

Fixpoint mem (x : K) (s : list K) : bool :=
  match s with
  | [] => false
  | y :: r => keqb x y || mem x r
  end.

Definition add (x : K) (s : list K) : list K :=
  if mem x s then s else s ++ [x].

Definition update (s new : list K) : list K :=
  fold_left (fun acc x => add x acc) new s.

End IdSet.
End IdSet.

(** ** Outcomes: a value, a raised exception, or fuel exhausted

    The third case only exists because [extract_tree] recurses on the graph
    and is run here with a step budget; [extract_tree_terminates] below
    shows the budget is never exhausted. *)

Definition UUID := N.

Inductive lineage_error : Type :=
| TreeNotAcyclic                              (* "LineageTrees must be acyclic" *)
| GraphNotAcyclic (root : UUID)               (* "LineageTrees must be acyclic: {root}" *)
| InconsistentHomes (id_ : UUID)              (* "Tree contains inconsistent homes ..." *)
| InconsistentClassifiers (ids : UUID * UUID) (* "... with inconsistent classifiers." *)
| DuplicateSubtrees                           (* "Self-reference or duplicate subtrees ..." *)
| MixedDirections.                            (* "Tree contains both derived and source nodes" *)

Inductive exn : Type :=
| InconsistentLineageException (why : lineage_error)
| TypeError (msg : string)
| KeyError (key : UUID).

Inductive outcome (A : Type) : Type :=
| Ok (a : A)
| Raise (e : exn)
| OutOfFuel.
Arguments Raise {A} e.
Arguments OutOfFuel {A}.

Definition bind {A B} (m : outcome A) (k : A -> outcome B) : outcome B :=
  match m with
  | Ok a => k a
  | Raise e => Raise e
  | OutOfFuel => OutOfFuel
  end.

Notation "x <- m ;; k" := (bind m (fun x => k))
  (at level 61, m at next level, right associativity).
Notation "m ;;; k" := (bind m (fun _ => k))
  (at level 61, right associativity).

(** A [for] loop whose body may raise: the first exception ends the loop. *)
Definition for_each {A S} (body : S -> A -> outcome S) : list A -> S -> outcome S :=
  fix loop (l : list A) (s : S) : outcome S :=
    match l with
    | [] => Ok s
    | x :: r => bind (body s x) (loop r)
    end.

Definition raised {A} (m : outcome A) : Prop := exists e, m = Raise e.


(** ** The data model *)

Inductive LineageDirection : Type := SOURCES | DERIVED.

Definition opposite (d : LineageDirection) : LineageDirection :=
  match d with SOURCES => DERIVED | DERIVED => SOURCES end.

Definition direction_eqb (a b : LineageDirection) : bool :=
  match a, b with
  | SOURCES, SOURCES | DERIVED, DERIVED => true
  | _, _ => false
  end.

(** [children = None]: unexplored; [Some []]: no children;
    [Some items]: classifier -> list of subtrees. *)
#[warnings="-register-all"]
Inductive LineageTree : Type :=
  mkLineageTree {
    direction : LineageDirection;
    dataset_id : UUID;
    children : option (dict string (list LineageTree));
    home : option string
  }.

Record LineageRelation : Type := mkLineageRelation {
  classifier : string;
  source_id : UUID;
  derived_id : UUID
}.

Record LineageRelations : Type := mkLineageRelations {
  _homes : dict UUID (option string);
  _relations_idx : dict (UUID * UUID) string;
  _trees_idx : dict (UUID * UUID) LineageTree;
  relations : list LineageRelation;
  by_source : dict UUID (dict UUID string);
  by_derived : dict UUID (dict UUID string);
  dataset_ids : list UUID
}.

(** [LineageRelations()] *)
Definition empty_relations : LineageRelations :=
  {| _homes := []; _relations_idx := []; _trees_idx := []; relations := [];
     by_source := []; by_derived := []; dataset_ids := [] |}.

(** ** LineageTree.child_datasets

    The ids below the root; raises when the root's id shows up below one
    of its own children. *)
Fixpoint child_datasets (self : LineageTree) : outcome (list UUID) :=
  match children self with
  | None => Ok []
  | Some items =>
      for_each (fun child_dsids item =>
        for_each (fun child_dsids child =>
          subchildren <- child_datasets child ;;
          let subchildren := IdSet.add (dataset_id child) subchildren in
          if IdSet.mem (dataset_id self) subchildren
          then Raise (InconsistentLineageException TreeNotAcyclic)
          else Ok (IdSet.update child_dsids subchildren))
          (snd item) child_dsids)
        items []
  end.

(** ** LineageTree.from_eo3_doc

    [sources=None] gives a node whose children are unexplored; otherwise
    every listed id becomes a node with unexplored children that carries
    [home].  The root itself is given no home. *)
Definition from_eo3_doc (dsid : UUID) (direction : LineageDirection)
    (sources : option (dict string (list UUID))) (home : option string) : LineageTree :=
  let children :=
    match sources with
    | None => None
    | Some items =>
        Some (fold_left (fun acc item =>
                Dict.set acc (fst item)
                  (map (fun der => {| direction := direction; dataset_id := der;
                                      children := None; home := home |})
                     (snd item)))
              items [])
    end in
  {| direction := direction; dataset_id := dsid; children := children; home := None |}.

(** ** LineageRelations.extract_tree *)

(** Python truthiness of an optional string: [None] and [""] are falsy. *)
Definition truthy_home (h : option string) : bool :=
  match h with
  | Some s => negb (String.eqb s EmptyString)
  | None => false
  end.

(** [d.get(k, {})] *)
Definition get_or_empty {K V W} `{EqKey K} (d : dict K (dict V W)) (k : K) : dict V W :=
  match Dict.get d k with Some m => m | None => [] end.

(** The adjacency index [extract_tree] walks for a direction. *)
Definition adjacency (self : LineageRelations) (d : LineageDirection)
  : dict UUID (dict UUID string) :=
  match d with SOURCES => by_source self | DERIVED => by_derived self end.

(** [children[classifier].append(subtree)], or a fresh one-element list. *)
Definition append_child (children : dict string (list LineageTree))
    (classifier : string) (subtree : LineageTree) : dict string (list LineageTree) :=
  match Dict.get children classifier with
  | Some l => Dict.set children classifier (l ++ [subtree])
  | None => Dict.set children classifier [subtree]
  end.

(** [self._homes.get(root)] *)
Definition home_of (self : LineageRelations) (root : UUID) : option string :=
  match Dict.get (_homes self) root with Some h => h | None => None end.

Fixpoint extract_tree_fuel (fuel : nat) (self : LineageRelations) (root : UUID)
    (direction : LineageDirection) (so_far : list UUID) : outcome LineageTree :=
  match fuel with
  | O => OutOfFuel
  | S fuel' =>
      if IdSet.mem root so_far
      then Raise (InconsistentLineageException (GraphNotAcyclic root))
      else
        let so_far := IdSet.add root so_far in
        let subtrees := get_or_empty (adjacency self direction) root in
        children <- for_each (fun children item =>
                      subtree <- extract_tree_fuel fuel' self (fst item) direction so_far ;;
                      Ok (append_child children (snd item) subtree))
                    subtrees [] ;;
        Ok {| direction := direction; dataset_id := root;
              children := Some children; home := home_of self root |}
  end.

(** Every id [extract_tree] can step to. *)
Definition neighbour_ids (adj : dict UUID (dict UUID string)) : list UUID :=
  flat_map (fun entry => Dict.keys (snd entry)) adj.

(** A walk that never repeats an id visits the root and then at most
    the neighbour ids, so this budget is enough. *)
Definition extract_fuel (self : LineageRelations) (d : LineageDirection) : nat :=
  S (S (List.length (neighbour_ids (adjacency self d)))).

(** [self.extract_tree(root, direction)] with [so_far=None]. *)
Definition extract_tree (self : LineageRelations) (root : UUID)
    (direction : LineageDirection) : outcome LineageTree :=
  extract_tree_fuel (extract_fuel self direction) self root direction [].

(** ** Single-item merges *)

Definition set_homes (self : LineageRelations) h : LineageRelations :=
  {| _homes := h; _relations_idx := _relations_idx self; _trees_idx := _trees_idx self;
     relations := relations self; by_source := by_source self;
     by_derived := by_derived self; dataset_ids := dataset_ids self |}.

Definition set_trees_idx (self : LineageRelations) ti : LineageRelations :=
  {| _homes := _homes self; _relations_idx := _relations_idx self; _trees_idx := ti;
     relations := relations self; by_source := by_source self;
     by_derived := by_derived self; dataset_ids := dataset_ids self |}.

Definition set_dataset_ids (self : LineageRelations) ids : LineageRelations :=
  {| _homes := _homes self; _relations_idx := _relations_idx self;
     _trees_idx := _trees_idx self;
     relations := relations self; by_source := by_source self;
     by_derived := by_derived self; dataset_ids := ids |}.

Definition merge_new_home (self : LineageRelations) (id_ : UUID) (home : option string)
  : outcome LineageRelations :=
  match Dict.get (_homes self) id_ with
  | Some stored =>
      if truthy_home stored && negb (keqb stored home)
      then Raise (InconsistentLineageException (InconsistentHomes id_))
      else Ok self
  | None => Ok (set_homes self (Dict.set (_homes self) id_ home))
  end.

(** [if a not in idx: idx[a] = {}] followed by [idx[a][b] = c]. *)
Definition index_edge (idx : dict UUID (dict UUID string)) (a b : UUID) (c : string)
  : dict UUID (dict UUID string) :=
  let idx := if Dict.mem idx a then idx else Dict.set idx a [] in
  Dict.set idx a (Dict.set (get_or_empty idx a) b c).

(** The collection right after the new relation is indexed, before the
    cycle check and before [dataset_ids] is updated. *)
Definition index_relation (self : LineageRelations) (rel : LineageRelation)
  : LineageRelations :=
  {| _homes := _homes self;
     _relations_idx :=
       Dict.set (_relations_idx self) (source_id rel, derived_id rel) (classifier rel);
     _trees_idx := _trees_idx self;
     relations := relations self ++ [rel];
     by_source := index_edge (by_source self) (source_id rel) (derived_id rel) (classifier rel);
     by_derived := index_edge (by_derived self) (derived_id rel) (source_id rel) (classifier rel);
     dataset_ids := dataset_ids self |}.

Definition merge_new_lineage_relation (self : LineageRelations) (rel : LineageRelation)
  : outcome LineageRelations :=
  let ids := (source_id rel, derived_id rel) in
  match Dict.get (_relations_idx self) ids with
  | Some known =>
      if negb (String.eqb known (classifier rel))
      then Raise (InconsistentLineageException (InconsistentClassifiers ids))
      else Ok self
  | None =>
      let self := index_relation self rel in
      let new_ids := IdSet.add (derived_id rel) [source_id rel] in
      (if IdSet.mem (source_id rel) (dataset_ids self)
          || IdSet.mem (derived_id rel) (dataset_ids self)
       then extract_tree self (derived_id rel) SOURCES ;;;
            extract_tree self (source_id rel) DERIVED ;;;
            Ok tt
       else Ok tt) ;;;
      Ok (set_dataset_ids self (IdSet.update (dataset_ids self) new_ids))
  end.

Definition _merge_new_relation (self : LineageRelations) (ids : UUID * UUID)
    (classifier : string) : outcome LineageRelations :=
  merge_new_lineage_relation self
    {| classifier := classifier; source_id := fst ids; derived_id := snd ids |}.

(** [bool(node.children)]: a non-empty mapping. *)
Definition got_grandchildren (node : LineageTree) : bool :=
  match children node with
  | Some (_ :: _) => true
  | _ => false
  end.

Definition _merge_new_node (self : LineageRelations) (ids : UUID * UUID)
    (node : LineageTree) : outcome LineageRelations :=
  if got_grandchildren node then
    if Dict.mem (_trees_idx self) ids
    then Raise (InconsistentLineageException DuplicateSubtrees)
    else Ok (set_trees_idx self (Dict.set (_trees_idx self) ids node))
  else Ok self.

(** ** merge and merge_tree *)

Definition merge (self pool : LineageRelations) : outcome LineageRelations :=
  self <- for_each (fun self item => merge_new_home self (fst item) (snd item))
            (_homes pool) self ;;
  self <- for_each (fun self item => _merge_new_relation self (fst item) (snd item))
            (_relations_idx pool) self ;;
  for_each (fun self item => _merge_new_node self (fst item) (snd item))
    (_trees_idx pool) self.

(** [recurse] and [next_max_depth] as [merge_tree] sets them. *)
Definition recursion_plan (parent_node : option LineageTree) (max_depth : Z) : bool * Z :=
  match parent_node with
  | None => (true, max_depth)
  | Some _ =>
      if (max_depth =? 0)%Z then (true, 0%Z)
      else if (max_depth =? 1)%Z then (false, (max_depth - 1)%Z)
      else (true, (max_depth - 1)%Z)
  end.

(** The canonical id pair of a parent/child edge. *)
Definition edge_ids (tree child : LineageTree) : UUID * UUID :=
  match direction tree with
  | SOURCES => (dataset_id tree, dataset_id child)
  | DERIVED => (dataset_id child, dataset_id tree)
  end.

Fixpoint merge_tree (self : LineageRelations) (tree : LineageTree)
    (parent_node : option LineageTree) (max_depth : Z) {struct tree}
  : outcome LineageRelations :=
  child_datasets tree ;;;
  self <- merge_new_home self (dataset_id tree) (home tree) ;;
  let (recurse, next_max_depth) := recursion_plan parent_node max_depth in
  (if negb (got_grandchildren tree)
   then extract_tree self (dataset_id tree) (opposite (direction tree)) ;;; Ok tt
   else Ok tt) ;;;
  match children tree with
  | None => Ok self
  | Some items =>
      for_each (fun self item =>
        for_each (fun self child =>
          if negb (direction_eqb (direction child) (direction tree))
          then Raise (InconsistentLineageException MixedDirections)
          else
            let ids := edge_ids tree child in
            self <- _merge_new_relation self ids (fst item) ;;
            self <- _merge_new_node self ids child ;;
            if recurse
            then merge_tree self child (Some tree) next_max_depth
            else Ok self)
          (snd item) self)
        items self
  end.

(** [LineageRelations(tree, max_depth, clone)] *)
Definition new_relations (tree : option LineageTree) (max_depth : Z)
    (clone : option LineageRelations) : outcome LineageRelations :=
  self <- match clone with
          | Some c => merge empty_relations c
          | None => Ok empty_relations
          end ;;
  match tree with
  | Some t => merge_tree self t None max_depth
  | None => Ok self
  end.

(** ** relations_diff *)

Record lineage_diff : Type := mkDiff {
  relations_to_add : list LineageRelation;
  relations_to_update : list LineageRelation;
  homes_to_add : dict UUID (option string);
  homes_to_update : dict UUID (option string)
}.

(** [for id_, home in self._homes] iterates the keys of the mapping, and
    unpacking one key, a UUID, into two names raises. *)
Definition unpack_home_key {A} (key : UUID) : outcome A :=
  Raise (TypeError "cannot unpack non-iterable UUID object").

(** [for ids, classifier in self._relations_idx] also iterates keys; a key
    is a pair of ids and does unpack: [ids] is its first id and
    [classifier] its second. *)
Definition unpack_relation_key (key : UUID * UUID) : UUID * UUID := key.

(** [ids in existing._relations_idx] with [ids] a single UUID: the keys are
    pairs, and a UUID never equals a pair. *)
Definition uuid_in_relations_idx (ids : UUID) (idx : dict (UUID * UUID) string) : bool :=
  false.

(** [relations_to_add[ids] = classifier] on the list [relations_to_add],
    indexed with a UUID. *)
Definition list_setitem_uuid {A} (l : list LineageRelation) (ids classifier : UUID)
  : outcome A :=
  Raise (TypeError "list indices must be integers or slices, not UUID").

(** [existing._relations_idx[ids]] with [ids] a single UUID. *)
Definition relations_idx_getitem_uuid {A} (idx : dict (UUID * UUID) string) (ids : UUID)
  : outcome A :=
  Raise (KeyError ids).

Definition diff_homes (self existing : LineageRelations)
  : outcome (dict UUID (option string) * dict UUID (option string)) :=
  for_each (fun acc key => unpack_home_key key) (Dict.keys (_homes self)) ([], []).

Definition diff_relations (self existing : LineageRelations) (allow_updates : bool)
  : outcome (list LineageRelation * list LineageRelation) :=
  for_each (fun acc key =>
      let (ids, classifier) := unpack_relation_key key in
      if negb (uuid_in_relations_idx ids (_relations_idx existing))
      then list_setitem_uuid (fst acc) ids classifier
      else if allow_updates
           then relations_idx_getitem_uuid (_relations_idx existing) ids
           else Ok acc)
    (Dict.keys (_relations_idx self)) ([], []).

Definition relations_diff (self : LineageRelations)
    (existing_relations : option LineageRelations) (allow_updates : bool)
  : outcome lineage_diff :=
  match existing_relations with
  | None => Ok {| relations_to_add := relations self; relations_to_update := [];
                  homes_to_add := _homes self; homes_to_update := [] |}
  | Some existing =>
      (if negb allow_updates
       then merged <- new_relations None 0 (Some self) ;;
            merge merged existing ;;; Ok tt
       else Ok tt) ;;;
      homes <- diff_homes self existing ;;
      rels <- diff_relations self existing allow_updates ;;
      Ok {| relations_to_add := fst rels; relations_to_update := snd rels;
            homes_to_add := fst homes; homes_to_update := snd homes |}
  end.

(** * Vocabulary of the properties *)

(** ** Trees and walks of an adjacency index *)

(** The immediate subtrees of a node, in order. *)
Definition subtrees (t : LineageTree) : list LineageTree :=
  match children t with
  | None => []
  | Some items => flat_map (fun item => snd item) items
  end.

(** A tree none of whose children carries children. *)
Definition shallow (tree : LineageTree) : Prop :=
  forall child, In child (subtrees tree) -> got_grandchildren child = false.

(** One hop of the adjacency index: [b] is a key of [adj[a]]. *)
Definition step (adj : dict UUID (dict UUID string)) (a b : UUID) : Prop :=
  In b (Dict.keys (get_or_empty adj a)).

(** [walk adj a p]: [p] lists the ids of a path that starts at [a] and
    follows the index hop by hop. *)
Inductive walk (adj : dict UUID (dict UUID string)) : UUID -> list UUID -> Prop :=
| walk_stop a : walk adj a [a]
| walk_step a b p : step adj a b -> walk adj b p -> walk adj a (a :: p).

(** Ids of [univ] not yet on the current path. *)
Definition unvisited (univ so_far : list UUID) : nat :=
  List.length (filter (fun u => negb (IdSet.mem u so_far)) univ).

(** The exception [extract_tree] raises when it meets an id twice on one
    path. *)
Definition cyclic_graph_error (e : exn) : Prop :=
  exists x, e = InconsistentLineageException (GraphNotAcyclic x).

(** [has_child ch c t]: subtree [t] is listed under classifier [c]. *)
Definition has_child (ch : dict string (list LineageTree)) (c : string)
    (t : LineageTree) : Prop :=
  exists l, Dict.get ch c = Some l /\ In t l.

(** The children mapping is present at every node of the tree. *)
Fixpoint fully_expanded (t : LineageTree) : bool :=
  match children t with
  | None => false
  | Some items => forallb (fun item => forallb fully_expanded (snd item)) items
  end.

(** Every parent/child link of a tree as an id pair with its classifier. *)
Fixpoint tree_edges (t : LineageTree) : list ((UUID * UUID) * string) :=
  match children t with
  | None => []
  | Some items =>
      flat_map (fun item =>
        flat_map (fun child => (edge_ids t child, fst item) :: tree_edges child)
          (snd item)) items
  end.

(** Every node of a tree with the home it carries. *)
Fixpoint tree_nodes (t : LineageTree) : list (UUID * option string) :=
  (dataset_id t, home t) ::
  match children t with
  | None => []
  | Some items => flat_map (fun item => flat_map tree_nodes (snd item)) items
  end.

(** [reach adj a b]: [b] is [a] or can be reached from it hop by hop. *)
Inductive reach (adj : dict UUID (dict UUID string)) : UUID -> UUID -> Prop :=
| reach_here a : reach adj a a
| reach_hop a b c : step adj a b -> reach adj b c -> reach adj a c.

(** The id pair of an index entry [adj[a][b]], as [(source, derived)]. *)
Definition orient (d : LineageDirection) (a b : UUID) : UUID * UUID :=
  match d with SOURCES => (a, b) | DERIVED => (b, a) end.

(** ** Merges as sequences of single-item merges *)

(** The three calls through which [merge] and [merge_tree] change the
    collection, with their arguments. *)
Inductive merge_step : Type :=
| MergeHome (id_ : UUID) (home : option string)
| MergeRelation (ids : UUID * UUID) (classifier : string)
| MergeNode (ids : UUID * UUID) (node : LineageTree).

(** Perform one single-item merge. *)
Definition run_step (self : LineageRelations) (st : merge_step)
  : outcome LineageRelations :=
  match st with
  | MergeHome id_ h => merge_new_home self id_ h
  | MergeRelation ids c => _merge_new_relation self ids c
  | MergeNode ids node => _merge_new_node self ids node
  end.

(** Perform single-item merges in order, stopping at the first that
    raises. *)
Definition run_steps : list merge_step -> LineageRelations -> outcome LineageRelations :=
  for_each run_step.

(** How many levels of nodes a call of [merge_tree] visits: [None] is
    no limit. *)
Definition depth_budget (parent_node : option LineageTree) (max_depth : Z) : option nat :=
  if (max_depth <=? 0)%Z then None
  else Some (match parent_node with
             | None => S (Z.to_nat max_depth)
             | Some _ => Z.to_nat max_depth
             end).

(** The budget left for the children of a visited node. *)
Definition budget_pred (b : option nat) : option nat :=
  match b with None => None | Some n => Some (pred n) end.

(** The single-item merges of [merge_tree] within a budget of levels. *)
Fixpoint merge_script (budget : option nat) (tree : LineageTree) : list merge_step :=
  match budget with
  | Some O => []
  | _ =>
      MergeHome (dataset_id tree) (home tree) ::
      match children tree with
      | None => []
      | Some items =>
          flat_map (fun item =>
            flat_map (fun child =>
              MergeRelation (edge_ids tree child) (fst item) ::
              MergeNode (edge_ids tree child) child ::
              merge_script (budget_pred budget) child)
              (snd item)) items
      end
  end.

(** The single-item merges of [merge], in order. *)
Definition pool_script (pool : LineageRelations) : list merge_step :=
  map (fun item => MergeHome (fst item) (snd item)) (_homes pool) ++
  map (fun item => MergeRelation (fst item) (snd item)) (_relations_idx pool) ++
  map (fun item => MergeNode (fst item) (snd item)) (_trees_idx pool).

(** ** States of the collection *)

(** [extends a b]: everything recorded in [a] is recorded, unchanged, in
    [b].  Collections only grow. *)
Definition extends (a b : LineageRelations) : Prop :=
  (forall id_ h, Dict.get (_homes a) id_ = Some h -> Dict.get (_homes b) id_ = Some h) /\
  (forall ids c, Dict.get (_relations_idx a) ids = Some c ->
                 Dict.get (_relations_idx b) ids = Some c) /\
  (forall ids, Dict.mem (_trees_idx a) ids = true -> Dict.mem (_trees_idx b) ids = true).

(** [home_settled self id_ h]: merging home [h] for [id_] again changes
    nothing and does not raise. *)
Definition home_settled (self : LineageRelations) (id_ : UUID) (h : option string) : Prop :=
  exists stored, Dict.get (_homes self) id_ = Some stored /\
                 truthy_home stored && negb (keqb stored h) = false.

(** What holds of the collection once a single-item merge has succeeded. *)
Definition step_done (st : merge_step) (self : LineageRelations) : Prop :=
  match st with
  | MergeHome id_ h => home_settled self id_ h
  | MergeRelation ids c => Dict.get (_relations_idx self) ids = Some c
  | MergeNode ids node =>
      got_grandchildren node = true -> Dict.mem (_trees_idx self) ids = true
  end.

(** A step that cannot trip the duplicate-subtree guard. *)
Definition no_detail (st : merge_step) : Prop :=
  match st with
  | MergeNode _ node => got_grandchildren node = false
  | _ => True
  end.

(** The links from a node to its immediate children. *)
Definition child_edges (t : LineageTree) : list ((UUID * UUID) * string) :=
  match children t with
  | None => []
  | Some items =>
      flat_map (fun item => map (fun child => (edge_ids t child, fst item)) (snd item)) items
  end.

(** The recorded relations for one [(source, derived)] pair. *)
Definition relations_for (self : LineageRelations) (ids : UUID * UUID)
  : list LineageRelation :=
  filter (fun r => keqb (source_id r, derived_id r) ids) (relations self).

(** [relations] lists exactly one relation per indexed pair. *)
Definition relations_synced (self : LineageRelations) : Prop :=
  forall ids,
    relations_for self ids =
    match Dict.get (_relations_idx self) ids with
    | Some c => [ {| classifier := c; source_id := fst ids; derived_id := snd ids |} ]
    | None => []
    end.

(** [well_indexed self]: [by_source] and [by_derived] list exactly the
    indexed relations, and every id of an indexed relation is a known id. *)
Definition well_indexed (self : LineageRelations) : Prop :=
  (forall s d c, In (d, c) (get_or_empty (by_source self) s) <->
                 Dict.get (_relations_idx self) (s, d) = Some c) /\
  (forall s d c, In (s, c) (get_or_empty (by_derived self) d) <->
                 Dict.get (_relations_idx self) (s, d) = Some c) /\
  (forall s d c, Dict.get (_relations_idx self) (s, d) = Some c ->
                 IdSet.mem s (dataset_ids self) = true /\
                 IdSet.mem d (dataset_ids self) = true).

(** The indices and the relation list all describe the relation index. *)
Definition consistent (self : LineageRelations) : Prop :=
  well_indexed self /\ relations_synced self.

(** A step that does not relate an id to itself. *)
Definition loop_free (st : merge_step) : Prop :=
  match st with
  | MergeRelation ids _ => fst ids <> snd ids
  | _ => True
  end.

(** [evolves s s']: [s'] is reached from [s] by successful single-item
    merges, none relating an id to itself. *)
Definition evolves (s s' : LineageRelations) : Prop :=
  exists l, Forall loop_free l /\ run_steps l s = Ok s'.

(** ** Cycles *)

(** [returns adj y]: [y] can be reached from itself in one or more hops. *)
Definition returns (adj : dict UUID (dict UUID string)) (y : UUID) : Prop :=
  exists m, step adj y m /\ reach adj m y.

(** [good adj x]: no id reachable from [x] lies on a cycle. *)
Definition good (adj : dict UUID (dict UUID string)) (x : UUID) : Prop :=
  forall y, reach adj x y -> ~ returns adj y.

(** No cycle can be reached from any id, in either adjacency index. *)
Definition sound (self : LineageRelations) : Prop :=
  forall d x, good (adjacency self d) x.

(** [derives rels a b]: [b] can be reached from [a] in one or more
    source-to-derived hops of [rels]. *)
Inductive derives (rels : list LineageRelation) : UUID -> UUID -> Prop :=
| derives_hop r : In r rels -> derives rels (source_id r) (derived_id r)
| derives_trans a b c : derives rels a b -> derives rels b c -> derives rels a c.

(** No id can be reached from itself. *)
Definition acyclic (self : LineageRelations) : Prop :=
  forall a, ~ derives (relations self) a a.

(** ** Merging what was extracted *)

(** The guard keys a step registers in [_trees_idx]. *)
Definition guard_key (st : merge_step) : list (UUID * UUID) :=
  match st with
  | MergeNode ids node => if got_grandchildren node then [ids] else []
  | _ => []
  end.

Definition guard_keys (l : list merge_step) : list (UUID * UUID) :=
  flat_map guard_key l.

(** The links of a tree to a child that has children of its own, one
    entry per listing. *)
Fixpoint guarded_links (t : LineageTree) : list (UUID * UUID) :=
  match children t with
  | None => []
  | Some items =>
      flat_map (fun item =>
        flat_map (fun child =>
          (if got_grandchildren child then [edge_ids t child] else []) ++
          guarded_links child)
          (snd item)) items
  end.

(** A node and every node below it. *)
Fixpoint all_nodes (t : LineageTree) : list LineageTree :=
  t ::
  match children t with
  | None => []
  | Some items => flat_map (fun item => flat_map all_nodes (snd item)) items
  end.

(** [below t x]: [x] is the id of a node below [t]. *)
Definition below (t : LineageTree) (x : UUID) : Prop :=
  exists child, In child (subtrees t) /\ In x (map fst (tree_nodes child)).

(** What [merge_tree] checks of a node before it merges its links: the
    node's id does not show up below it, and its children have its
    direction. *)
Definition well_formed_node (n : LineageTree) : Prop :=
  (exists ids, child_datasets n = Ok ids) /\
  forall child, In child (subtrees n) -> direction child = direction n.

(** [reached_link R root d ids c]: the relation index entry [ids -> c]
    is one of the entries of the adjacency index of [R] that can be
    reached from [root] in direction [d]. *)
Definition reached_link (R : LineageRelations) (root : UUID) (d : LineageDirection)
    (ids : UUID * UUID) (c : string) : Prop :=
  exists a b, reach (adjacency R d) root a /\
              In (b, c) (get_or_empty (adjacency R d) a) /\
              ids = orient d a b.

(** A single-item merge of something [R] holds within reach of [root]. *)
Definition drawn (R : LineageRelations) (root : UUID) (d : LineageDirection)
    (st : merge_step) : Prop :=
  match st with
  | MergeHome id_ h => h = home_of R id_
  | MergeRelation ids c => reached_link R root d ids c
  | MergeNode _ _ => True
  end.

(** A well-indexed collection that holds only homes and relations that
    [R] holds within reach of [root]. *)
Definition within (R : LineageRelations) (root : UUID) (d : LineageDirection)
    (s : LineageRelations) : Prop :=
  well_indexed s /\
  (forall id_ h, Dict.get (_homes s) id_ = Some h -> h = home_of R id_) /\
  (forall ids c, Dict.get (_relations_idx s) ids = Some c -> reached_link R root d ids c).

(** ** The public operations *)

(** The methods that change a collection, with their arguments. *)
Inductive operation : Type :=
| OpHome (id_ : UUID) (home : option string)
| OpRelation (rel : LineageRelation)
| OpMerge (pool : LineageRelations)
| OpTree (tree : LineageTree) (max_depth : Z).

Definition perform (self : LineageRelations) (op : operation)
  : outcome LineageRelations :=
  match op with
  | OpHome id_ h => merge_new_home self id_ h
  | OpRelation rel => merge_new_lineage_relation self rel
  | OpMerge pool => merge self pool
  | OpTree tree max_depth => merge_tree self tree None max_depth
  end.

(** A collection some sequence of successful operations builds from the
    empty one. *)
Definition built (self : LineageRelations) : Prop :=
  exists ops, for_each perform ops empty_relations = Ok self.

(** The single-item merges an operation performs. *)
Definition op_script (op : operation) : list merge_step :=
  match op with
  | OpHome id_ h => [MergeHome id_ h]
  | OpRelation rel => [MergeRelation (source_id rel, derived_id rel) (classifier rel)]
  | OpMerge pool => pool_script pool
  | OpTree tree max_depth => merge_script (depth_budget None max_depth) tree
  end.

(** [dataset_ids] holds no id but those of the indexed relations. *)
Definition ids_tight (self : LineageRelations) : Prop :=
  forall x, IdSet.mem x (dataset_ids self) = true ->
    exists ids c, Dict.get (_relations_idx self) ids = Some c /\
                  (x = fst ids \/ x = snd ids).

(** Every entry of the guard index is a subtree with children. *)
Definition guard_entries_full (self : LineageRelations) : Prop :=
  forall ids node, In (ids, node) (_trees_idx self) -> got_grandchildren node = true.

(** No mapping of the collection holds a key twice. *)
Definition keys_unique (self : LineageRelations) : Prop :=
  NoDup (Dict.keys (_homes self)) /\
  NoDup (Dict.keys (_relations_idx self)) /\
  NoDup (Dict.keys (_trees_idx self)).

(** Merge the entries of a relation index, in order. *)
Definition replay (idx : dict (UUID * UUID) string) (s : LineageRelations)
  : outcome LineageRelations :=
  for_each (fun self item => _merge_new_relation self (fst item) (snd item)) idx s.

(** [replayed s]: merging the relation index of [s], entry by entry, into
    a collection that holds the homes of [s] and nothing else yields [s]
    without its guard index. *)
Definition replayed (s : LineageRelations) : Prop :=
  replay (_relations_idx s) (set_homes empty_relations (_homes s)) =
  Ok (set_trees_idx s []).

(** ** Merging to a plan *)

(** A single-item merge that follows a plan: the home the plan has for
    the id, or a link of the plan. *)
Definition planned_step (link : UUID * UUID -> string -> Prop)
    (home_for : UUID -> option string) (st : merge_step) : Prop :=
  match st with
  | MergeHome id_ h => h = home_for id_
  | MergeRelation ids c => link ids c
  | MergeNode _ _ => True
  end.

(** A well-indexed collection that holds only homes and links of the
    plan. *)
Definition planned (link : UUID * UUID -> string -> Prop)
    (home_for : UUID -> option string) (s : LineageRelations) : Prop :=
  well_indexed s /\
  (forall id_ h, Dict.get (_homes s) id_ = Some h -> h = home_for id_) /\
  (forall ids c, Dict.get (_relations_idx s) ids = Some c -> link ids c).

(** The node [from_eo3_doc] makes of a listed id. *)
Definition eo3_leaf (direction : LineageDirection) (home : option string) (der : UUID)
  : LineageTree :=
  {| direction := direction; dataset_id := der; children := None; home := home |}.

(** The links [from_eo3_doc] lists: [dsid] with every id of [sources],
    under the classifier that lists it. *)
Definition eo3_link (dsid : UUID) (direction : LineageDirection)
    (sources : dict string (list UUID)) (ids : UUID * UUID) (c : string) : Prop :=
  exists l der, In (c, l) sources /\ In der l /\ ids = orient direction dsid der.

(** Every id listed in [sources]. *)
Definition eo3_ids (sources : dict string (list UUID)) : list UUID :=
  flat_map (fun item => snd item) sources.

(** No id is listed under two classifiers. *)
Definition eo3_one_classifier (sources : dict string (list UUID)) : Prop :=
  forall c c' l l' der,
    In (c, l) sources -> In (c', l') sources -> In der l -> In der l' -> c = c'.

(** ** Outcomes of the operations *)


(** ** Levels of a tree *)

(** The nodes on the first [k] levels of a tree, with the homes they
    carry: the root is on the first level. *)
Fixpoint nodes_to_depth (k : nat) (t : LineageTree) : list (UUID * option string) :=
  match k with
  | O => []
  | S k' => (dataset_id t, home t) :: flat_map (nodes_to_depth k') (subtrees t)
  end.

(** The links from the nodes on the first [k] levels to their children. *)
Fixpoint edges_to_depth (k : nat) (t : LineageTree) : list ((UUID * UUID) * string) :=
  match k with
  | O => []
  | S k' => child_edges t ++ flat_map (edges_to_depth k') (subtrees t)
  end.

(** ** Reading a tree back *)

(** The end of an id pair that is nearer to the root of a tree of
    direction [d], and the other end. *)
Definition near_id (d : LineageDirection) (ids : UUID * UUID) : UUID :=
  match d with SOURCES => fst ids | DERIVED => snd ids end.

Definition far_id (d : LineageDirection) (ids : UUID * UUID) : UUID :=
  match d with SOURCES => snd ids | DERIVED => fst ids end.

(** The entries a run of single-item merges appends to the adjacency
    entry of [a], in order, when every relation it merges is new. *)
Definition new_pairs (d : LineageDirection) (a : UUID) (l : list merge_step)
  : list (UUID * string) :=
  flat_map (fun st =>
    match st with
    | MergeRelation ids c => if keqb (near_id d ids) a then [(far_id d ids, c)] else []
    | _ => []
    end) l.

(** The id pairs of the relations a run merges. *)
Definition relation_keys (l : list merge_step) : list (UUID * UUID) :=
  flat_map (fun st => match st with MergeRelation ids _ => [ids] | _ => [] end) l.

(** The children of a node as [extract_tree] meets them: id and
    classifier, in order. *)
Definition child_pairs (n : LineageTree) : list (UUID * string) :=
  match children n with
  | None => []
  | Some ch => flat_map (fun item => map (fun child => (dataset_id child, fst item)) (snd item)) ch
  end.

(** A node as [extract_tree] builds them: the children mapping is
    present, holds no classifier twice and no empty list. *)
Definition well_listed (n : LineageTree) : Prop :=
  exists ch, children n = Some ch /\ NoDup (Dict.keys ch) /\
             forall c l, In (c, l) ch -> l <> [].

(** ** Scenarios *)

Open Scope string_scope.

(** The collection that results from merging one relation into the empty
    collection. *)
Definition holding (rel : LineageRelation) : LineageRelations :=
  match merge_new_lineage_relation empty_relations rel with
  | Ok self => self
  | _ => empty_relations
  end.

(** The tree rooted at [U1], direction SOURCES, children
    [{"nbar": [U2]}], [U2] a leaf with [children={}], no homes. *)
Definition scenario_tree (U1 U2 : UUID) : LineageTree :=
  {| direction := SOURCES; dataset_id := U1;
     children := Some [("nbar", [ {| direction := SOURCES; dataset_id := U2;
                                     children := Some []; home := None |} ])];
     home := None |}.

(** The collection [merge_tree] builds from it. *)
Definition scenario_relations (U1 U2 : UUID) : LineageRelations :=
  {| _homes := [(U1, None); (U2, None)];
     _relations_idx := [((U1, U2), "nbar")];
     _trees_idx := [];
     relations := [ {| classifier := "nbar"; source_id := U1; derived_id := U2 |} ];
     by_source := [(U1, [(U2, "nbar")])];
     by_derived := [(U2, [(U1, "nbar")])];
     dataset_ids := [U1; U2] |}.

(** Merge a list of relations, one by one, into the empty collection. *)
Definition build (rels : list LineageRelation) : outcome LineageRelations :=
  for_each merge_new_lineage_relation rels empty_relations.

(** A diamond: 1 -> 2 -> 4 and 1 -> 3 -> 4. *)
Definition diamond_edges : list LineageRelation :=
  [ {| classifier := "x"; source_id := 1%N; derived_id := 2%N |};
    {| classifier := "x"; source_id := 1%N; derived_id := 3%N |};
    {| classifier := "y"; source_id := 2%N; derived_id := 4%N |};
    {| classifier := "y"; source_id := 3%N; derived_id := 4%N |} ].

(** A node with [children={}]. *)
Definition leaf (d : LineageDirection) (i : UUID) : LineageTree :=
  {| direction := d; dataset_id := i; children := Some []; home := None |}.

(** A node whose children [l] all sit under the one classifier [c]. *)
Definition node (d : LineageDirection) (i : UUID) (c : string) (l : list LineageTree)
  : LineageTree :=
  {| direction := d; dataset_id := i; children := Some [(c, l)]; home := None |}.

(** What [extract_tree] returns for the diamond from its top: id 4 sits
    on both branches. *)
Definition diamond_tree : LineageTree :=
  node SOURCES 1%N "x" [ node SOURCES 2%N "y" [leaf SOURCES 4%N];
                         node SOURCES 3%N "y" [leaf SOURCES 4%N] ].

(** A three-level chain 1 -> 2 -> 3: the child 2 carries a child. *)
Definition chain_tree : LineageTree :=
  node SOURCES 1%N "a" [ node SOURCES 2%N "b" [leaf SOURCES 3%N] ].

(** A four-level chain 1 -> 2 -> 3 -> 4. *)
Definition deep_chain_tree : LineageTree :=
  node SOURCES 1%N "a" [ node SOURCES 2%N "b" [ node SOURCES 3%N "c" [leaf SOURCES 4%N] ] ].

(** The diamond with a two-link tail below the join:
    1 -> 2 -> 4, 1 -> 3 -> 4, 4 -> 5 -> 6. *)
Definition tailed_diamond_edges : list LineageRelation :=
  diamond_edges ++
  [ {| classifier := "z"; source_id := 4%N; derived_id := 5%N |};
    {| classifier := "w"; source_id := 5%N; derived_id := 6%N |} ].

(** The end of a relation that is nearer to the root of a tree of
    direction [d]. *)
Definition near_end (d : LineageDirection) (r : LineageRelation) : UUID :=
  match d with SOURCES => source_id r | DERIVED => derived_id r end.

Close Scope string_scope.

(** * Properties *)

Lemma keqb_refl {K} `{EqKey K} (x : K) : keqb x x = true.
Proof. destruct (keqb_spec x x); congruence. Qed.

Lemma keqb_eq {K} `{EqKey K} (x y : K) : keqb x y = true <-> x = y.
Proof. destruct (keqb_spec x y); split; congruence. Qed.

Lemma keqb_neq {K} `{EqKey K} (x y : K) : keqb x y = false <-> x <> y.
Proof. destruct (keqb_spec x y); split; congruence. Qed.

Module DictFacts.
Section DictFacts.
Import Dict.
Context {K V : Type} `{EqKey K}.
Implicit Types (d : Dict.t K V) (k : K) (v : V).

Lemma get_set_same d k v : get (set d k v) k = Some v.
Proof.
  induction d as [|[k' v'] r IH]; simpl.
  - now rewrite keqb_refl.
  - destruct (keqb k k') eqn:E; simpl; rewrite E; auto.
Qed.

Lemma get_set_other d k k' v : k' <> k -> get (set d k v) k' = get d k'.
Proof.
  intros Hne. induction d as [|[k0 v0] r IH]; simpl.
  - apply keqb_neq in Hne. now rewrite Hne.
  - destruct (keqb_spec k k0) as [Hk|Hk]; simpl.
    + subst k0. apply keqb_neq in Hne. now rewrite Hne.
    + now rewrite IH.
Qed.

Lemma get_set d k k' v :
  get (set d k v) k' = if keqb k' k then Some v else get d k'.
Proof.
  destruct (keqb_spec k' k) as [->|Hne].
  - apply get_set_same.
  - now apply get_set_other.
Qed.

Lemma mem_set d k k' v : mem (set d k v) k' = keqb k' k || mem d k'.
Proof. unfold mem. rewrite get_set. now destruct (keqb k' k). Qed.

Lemma get_In d k v : get d k = Some v -> In (k, v) d.
Proof.
  induction d as [|[k' v'] r IH]; simpl; [discriminate|].
  destruct (keqb_spec k k') as [->|Hne].
  - intros [= ->]. now left.
  - intros Hg. right. auto.
Qed.

Lemma In_mem d k v : In (k, v) d -> mem d k = true.
Proof.
  unfold mem. induction d as [|[k' v'] r IH]; simpl; [tauto|].
  intros [[= -> ->]|Hin].
  - now rewrite keqb_refl.
  - destruct (keqb k k'); auto.
Qed.

Lemma mem_true d k : mem d k = true <-> exists v, get d k = Some v.
Proof.
  unfold mem. destruct (get d k) as [v|]; split; try discriminate; eauto.
  intros [v [=]].
Qed.

Lemma mem_false d k : mem d k = false <-> get d k = None.
Proof. unfold mem. destruct (get d k); split; congruence. Qed.

(** A dictionary never holds one key twice; [set] preserves this. *)
Lemma keys_set_NoDup d k v : NoDup (keys d) -> NoDup (keys (set d k v)).
Proof.
  unfold keys. induction d as [|[k' v'] r IH]; simpl; intros Hnd.
  - constructor; [tauto | constructor].
  - destruct (keqb_spec k k') as [->|Hne]; simpl; [assumption|].
    inversion Hnd as [|? ? Hnotin Hnd']; subst.
    constructor; [|auto].
    intros Hin. apply in_map_iff in Hin as [[k0 v0] [Hk Hin]]. simpl in Hk. subst k0.
    apply In_mem in Hin. rewrite mem_set in Hin.
    apply orb_true_iff in Hin as [Hin|Hin].
    + apply keqb_eq in Hin. congruence.
    + apply mem_true in Hin as [v1 Hin]. apply get_In in Hin.
      apply Hnotin. apply in_map_iff. exists (k', v1). auto.
Qed.

Lemma In_get d k v : NoDup (keys d) -> In (k, v) d -> get d k = Some v.
Proof.
  unfold keys. induction d as [|[k' v'] r IH]; simpl; [tauto|].
  intros Hnd Hin. inversion Hnd as [|? ? Hnotin Hnd']; subst.
  destruct Hin as [[= -> ->]|Hin].
  - now rewrite keqb_refl.
  - destruct (keqb_spec k k') as [->|Hne]; auto.
    exfalso. apply Hnotin. apply in_map_iff. exists (k', v). auto.
Qed.
End DictFacts.
End DictFacts.

Module IdSetFacts.
Section IdSetFacts.
Import IdSet.
Context {K : Type} `{EqKey K}.
Implicit Types (x y : K) (s new : list K).

Lemma mem_In x s : mem x s = true <-> In x s.
Proof.
  induction s as [|y r IH]; simpl; [split; [discriminate|tauto]|].
  rewrite orb_true_iff, IH, keqb_eq. split; intros [?|?]; auto.
Qed.

Lemma mem_app x s1 s2 : mem x (s1 ++ s2) = mem x s1 || mem x s2.
Proof. induction s1; simpl; [reflexivity|]. now rewrite IHs1, orb_assoc. Qed.

Lemma mem_add x y s : mem x (add y s) = keqb x y || mem x s.
Proof.
  unfold add. destruct (mem y s) eqn:E.
  - destruct (keqb_spec x y) as [->|]; simpl; [now rewrite E | reflexivity].
  - rewrite mem_app. simpl. rewrite orb_false_r. apply orb_comm.
Qed.

Lemma mem_update x s new : mem x (update s new) = mem x s || mem x new.
Proof.
  unfold update. revert s. induction new as [|y r IH]; intros s; simpl.
  - now rewrite orb_false_r.
  - rewrite IH, mem_add. destruct (keqb x y), (mem x s), (mem x r); reflexivity.
Qed.
End IdSetFacts.
End IdSetFacts.

(** ** Outcomes and loops *)

Lemma bind_ok_inv {A B} (m : outcome A) (k : A -> outcome B) b :
  bind m k = Ok b -> exists a, m = Ok a /\ k a = Ok b.
Proof. destruct m; simpl; [eauto | discriminate | discriminate]. Qed.

Lemma bind_raise_inv {A B} (m : outcome A) (k : A -> outcome B) e :
  bind m k = Raise e -> m = Raise e \/ exists a, m = Ok a /\ k a = Raise e.
Proof. destruct m; simpl; [eauto | intros [= ->]; auto | discriminate]. Qed.

Lemma bind_fuel_inv {A B} (m : outcome A) (k : A -> outcome B) :
  bind m k = OutOfFuel -> m = OutOfFuel \/ exists a, m = Ok a /\ k a = OutOfFuel.
Proof. destruct m; simpl; [eauto | discriminate | auto]. Qed.

Ltac bind_inv H :=
  let a := fresh "a" in
  let Ha := fresh "Hstep" in
  apply bind_ok_inv in H as (a & Ha & H).

Tactic Notation "unbind" hyp(H) "as" ident(a) ident(Ha) :=
  apply bind_ok_inv in H as (a & Ha & H).

Lemma for_each_nil {A S} (body : S -> A -> outcome S) s : for_each body [] s = Ok s.
Proof. reflexivity. Qed.

Lemma for_each_cons {A S} (body : S -> A -> outcome S) x l s :
  for_each body (x :: l) s = bind (body s x) (for_each body l).
Proof. reflexivity. Qed.

Lemma for_each_app {A S} (body : S -> A -> outcome S) l1 l2 s :
  for_each body (l1 ++ l2) s = bind (for_each body l1 s) (for_each body l2).
Proof.
  revert s. induction l1 as [|x l1 IH]; intros s; [reflexivity|].
  simpl. destruct (body s x); simpl; auto.
Qed.

Lemma for_each_ext {A S} (f g : S -> A -> outcome S) l s :
  (forall s x, In x l -> f s x = g s x) -> for_each f l s = for_each g l s.
Proof.
  revert s. induction l as [|x l IH]; intros s Hfg; [reflexivity|].
  simpl. rewrite Hfg by now left. destruct (g s x); simpl; auto.
  apply IH. intros; apply Hfg; now right.
Qed.

Lemma Forall2_pick_l {A B} (R : A -> B -> Prop) l ys x :
  Forall2 R l ys -> In x l -> exists y, In y ys /\ R x y.
Proof.
  induction 1 as [|a b l ys Hab _ IH]; simpl; [tauto|].
  intros [<-|Hin]; [eauto|]. destruct (IH Hin) as (y & ? & ?); eauto.
Qed.

Lemma Forall2_pick_r {A B} (R : A -> B -> Prop) l ys y :
  Forall2 R l ys -> In y ys -> exists x, In x l /\ R x y.
Proof.
  induction 1 as [|a b l ys Hab _ IH]; simpl; [tauto|].
  intros [<-|Hin]; [eauto|]. destruct (IH Hin) as (x & ? & ?); eauto.
Qed.

Arguments Forall2_pick_l {A B R l ys x} _ _.
Arguments Forall2_pick_r {A B R l ys y} _ _.

(** A loop whose body runs a check [g] and then updates the accumulator
    without failing. *)
Section CheckedLoop.
Context {A S Y : Type} (g : A -> outcome Y) (h : S -> A -> Y -> S).

Let body := fun s x => y <- g x ;; Ok (h s x y).

Lemma checked_loop_ok l s r :
  for_each body l s = Ok r ->
  exists ys, Forall2 (fun x y => g x = Ok y) l ys /\
             r = fold_left (fun s xy => h s (fst xy) (snd xy)) (combine l ys) s.
Proof.
  revert s. induction l as [|x l IH]; intros s; simpl.
  - intros [= <-]. exists []. split; [constructor | reflexivity].
  - unfold body at 1. destruct (g x) as [y| |] eqn:Eg; simpl; try discriminate.
    intros Hr. apply IH in Hr as (ys & Hall & ->).
    exists (y :: ys). split; [now constructor | reflexivity].
Qed.

Lemma checked_loop_raise l s e :
  for_each body l s = Raise e -> Exists (fun x => g x = Raise e) l.
Proof.
  revert s. induction l as [|x l IH]; intros s; simpl; [discriminate|].
  unfold body at 1. destruct (g x) as [y| |] eqn:Eg; simpl; try discriminate.
  - intros Hr. apply Exists_cons_tl. eauto.
  - intros [= ->]. now apply Exists_cons_hd.
Qed.

Lemma checked_loop_fuel l s :
  for_each body l s = OutOfFuel -> Exists (fun x => g x = OutOfFuel) l.
Proof.
  revert s. induction l as [|x l IH]; intros s; simpl; [discriminate|].
  unfold body at 1. destruct (g x) as [y| |] eqn:Eg; simpl; try discriminate.
  - intros Hr. apply Exists_cons_tl. eauto.
  - intros _. now apply Exists_cons_hd.
Qed.
End CheckedLoop.

(** ** Induction over lineage trees *)

Section TreeInduction.
Variable P : LineageTree -> Prop.
Hypothesis P_unexplored : forall d i h, P (mkLineageTree d i None h).
Hypothesis P_children : forall d i items h,
  Forall (fun item => Forall P (snd item)) items ->
  P (mkLineageTree d i (Some items) h).

Lemma LineageTree_nested_ind (t : LineageTree) : P t.
Proof.
  revert t. fix IH 1. intros [d i [items|] h]; [|apply P_unexplored].
  apply P_children. induction items as [|[c l] r IHr]; constructor; [|exact IHr].
  simpl. induction l as [|child cs IHcs]; constructor; [apply IH|exact IHcs].
Qed.
End TreeInduction.

(** ** extract_tree: termination *)

Lemma step_neighbour adj a b : step adj a b -> In b (neighbour_ids adj).
Proof.
  unfold step, get_or_empty, neighbour_ids. intros Hin.
  destruct (Dict.get adj a) as [m|] eqn:E; [|contradiction].
  apply DictFacts.get_In in E. apply in_flat_map. exists (a, m). auto.
Qed.

Lemma item_step adj a (item : UUID * string) :
  In item (get_or_empty adj a) -> step adj a (fst item).
Proof. intros Hin. unfold step, Dict.keys. now apply in_map. Qed.

Lemma unvisited_le univ so_far : unvisited univ so_far <= List.length univ.
Proof. apply filter_length_le. Qed.

Lemma unvisited_add_le univ x so_far :
  unvisited univ (IdSet.add x so_far) <= unvisited univ so_far.
Proof.
  unfold unvisited. induction univ as [|u univ IH]; simpl; [lia|].
  rewrite IdSetFacts.mem_add.
  destruct (keqb u x), (IdSet.mem u so_far); simpl; lia.
Qed.

Lemma unvisited_add_lt univ x so_far :
  In x univ -> IdSet.mem x so_far = false ->
  unvisited univ (IdSet.add x so_far) < unvisited univ so_far.
Proof.
  intros Hin Hfresh. unfold unvisited.
  induction univ as [|u univ IH]; simpl; [contradiction|].
  pose proof (unvisited_add_le univ x so_far) as Hle. unfold unvisited in Hle.
  rewrite IdSetFacts.mem_add.
  destruct (keqb_spec u x) as [->|Hne]; simpl.
  - rewrite Hfresh. simpl. lia.
  - destruct Hin as [->|Hin]; [congruence|].
    specialize (IH Hin). destruct (IdSet.mem u so_far); simpl; lia.
Qed.

(** One unfolding of the recursion. *)
Lemma extract_tree_fuel_S fuel self root d so_far :
  extract_tree_fuel (S fuel) self root d so_far =
  if IdSet.mem root so_far
  then Raise (InconsistentLineageException (GraphNotAcyclic root))
  else
    children <- for_each (fun children item =>
                  subtree <- extract_tree_fuel fuel self (fst item) d
                               (IdSet.add root so_far) ;;
                  Ok (append_child children (snd item) subtree))
                (get_or_empty (adjacency self d) root) [] ;;
    Ok {| direction := d; dataset_id := root;
          children := Some children; home := home_of self root |}.
Proof. reflexivity. Qed.

Section ExtractTermination.
Variables (self : LineageRelations) (d : LineageDirection).

Let univ := neighbour_ids (adjacency self d).

Lemma extract_tree_fuel_enough fuel root so_far :
  In root univ -> unvisited univ so_far < fuel ->
  extract_tree_fuel fuel self root d so_far <> OutOfFuel.
Proof.
  revert root so_far. induction fuel as [|fuel IH]; intros root so_far Hroot Hlt; [lia|].
  simpl. destruct (IdSet.mem root so_far) eqn:Hmem; [discriminate|].
  intros Hf. apply bind_fuel_inv in Hf as [Hf|(a & _ & Hf)]; [|discriminate].
  apply checked_loop_fuel in Hf. apply Exists_exists in Hf as (item & Hin & Hf).
  revert Hf. apply IH.
  - apply step_neighbour with (a := root). now apply item_step.
  - pose proof (unvisited_add_lt univ root so_far Hroot Hmem). lia.
Qed.

(** The budget [extract_tree] runs with is never exhausted. *)
Lemma extract_tree_terminates root : extract_tree self root d <> OutOfFuel.
Proof.
  unfold extract_tree, extract_fuel. fold univ. rewrite extract_tree_fuel_S.
  change (IdSet.mem root []) with false. cbv iota.
  intros Hf. apply bind_fuel_inv in Hf as [Hf|(a & _ & Hf)]; [|discriminate].
  apply checked_loop_fuel in Hf. apply Exists_exists in Hf as (item & Hin & Hf).
  revert Hf. apply extract_tree_fuel_enough.
  - apply step_neighbour with (a := root). now apply item_step.
  - pose proof (unvisited_le univ (IdSet.add root [])). lia.
Qed.
End ExtractTermination.

(** ** extract_tree: which walks make it raise *)

Section ExtractWalks.
Variables (self : LineageRelations) (d : LineageDirection).

Let adj := adjacency self d.

Lemma extract_ok_walks fuel root so_far t :
  extract_tree_fuel fuel self root d so_far = Ok t ->
  forall p, walk adj root p ->
    NoDup p /\ forall x, In x p -> IdSet.mem x so_far = false.
Proof.
  revert root so_far t. induction fuel as [|fuel IH]; intros root so_far t; [discriminate|].
  simpl. destruct (IdSet.mem root so_far) eqn:Hmem; [discriminate|].
  intros Hok. bind_inv Hok. clear Hok.
  apply checked_loop_ok in Hstep as (ys & Hall & _).
  intros p Hwalk. inversion Hwalk as [|? b p' Hab Hw]; subst.
  - split; [repeat constructor; tauto|]. intros x [<-|[]]. assumption.
  - unfold step in Hab. apply in_map_iff in Hab as (item & <- & Hin).
    destruct (Forall2_pick_l Hall Hin) as (y & _ & Hy).
    destruct (IH _ _ _ Hy p' Hw) as [Hnd Hfresh].
    assert (Hroot : ~ In root p').
    { intros Hr. apply Hfresh in Hr. rewrite IdSetFacts.mem_add, keqb_refl in Hr. discriminate. }
    split; [now constructor|].
    intros x [<-|Hx]; [assumption|].
    apply Hfresh in Hx. rewrite IdSetFacts.mem_add in Hx.
    now apply orb_false_iff in Hx.
Qed.

Lemma extract_raise_walk fuel root so_far e :
  extract_tree_fuel fuel self root d so_far = Raise e ->
  cyclic_graph_error e /\
  exists p, walk adj root p /\
            (~ NoDup p \/ exists x, In x p /\ IdSet.mem x so_far = true).
Proof.
  revert root so_far. induction fuel as [|fuel IH]; intros root so_far; [discriminate|].
  simpl. destruct (IdSet.mem root so_far) eqn:Hmem.
  - intros [= <-]. split; [now exists root|].
    exists [root]. split; [constructor|]. right. exists root. split; [now left|assumption].
  - intros Hr. apply bind_raise_inv in Hr as [Hr|(a & _ & Hr)]; [|discriminate].
    apply checked_loop_raise in Hr. apply Exists_exists in Hr as (item & Hin & Hr).
    apply IH in Hr as (Hkind & p & Hw & Hbad). split; [assumption|].
    exists (root :: p). split.
    + apply walk_step with (b := fst item); [now apply item_step | assumption].
    + destruct Hbad as [Hdup|(x & Hx & Hseen)].
      * left. intros Hnd. inversion Hnd; auto.
      * rewrite IdSetFacts.mem_add in Hseen. apply orb_true_iff in Hseen as [Heq|Hseen].
        -- apply keqb_eq in Heq. subst x. left. intros Hnd. inversion Hnd; auto.
        -- right. exists x. split; [now right | assumption].
Qed.
End ExtractWalks.

(** ** extract_tree: what the extracted tree holds *)

Lemma Forall2_combine_In {A B} (R : A -> B -> Prop) l ys x y :
  Forall2 R l ys -> In (x, y) (combine l ys) -> In x l /\ R x y.
Proof.
  induction 1 as [|a b l ys Hab _ IH]; simpl; [tauto|].
  intros [[= -> ->]|Hin]; [auto|]. destruct (IH Hin); auto.
Qed.

Lemma Forall2_In_combine {A B} (R : A -> B -> Prop) l ys x :
  Forall2 R l ys -> In x l -> exists y, In (x, y) (combine l ys).
Proof.
  induction 1 as [|a b l ys Hab _ IH]; simpl; [tauto|].
  intros [<-|Hin]; [eauto|]. destruct (IH Hin) as (y & ?); eauto.
Qed.

Arguments Forall2_combine_In {A B R l ys x y} _ _.
Arguments Forall2_In_combine {A B R l ys x} _ _.

Lemma has_child_append ch c t c' t' :
  has_child (append_child ch c t) c' t' <-> has_child ch c' t' \/ (c' = c /\ t' = t).
Proof.
  unfold has_child, append_child.
  destruct (Dict.get ch c) as [l0|] eqn:E.
  - split.
    + intros (l & Hget & Hin). rewrite DictFacts.get_set in Hget.
      destruct (keqb_spec c' c) as [->|Hne].
      * injection Hget as <-. apply in_app_iff in Hin as [Hin|[<-|[]]]; eauto.
      * eauto.
    + intros [(l & Hget & Hin)|[-> ->]].
      * rewrite DictFacts.get_set. destruct (keqb_spec c' c) as [->|Hne]; [|eauto].
        rewrite E in Hget. injection Hget as <-.
        exists (l0 ++ [t]). split; [reflexivity|]. apply in_app_iff. auto.
      * rewrite DictFacts.get_set_same. exists (l0 ++ [t]). split; [reflexivity|].
        apply in_app_iff. right. now left.
  - split.
    + intros (l & Hget & Hin). rewrite DictFacts.get_set in Hget.
      destruct (keqb_spec c' c) as [->|Hne].
      * injection Hget as <-. destruct Hin as [<-|[]]. auto.
      * eauto.
    + intros [(l & Hget & Hin)|[-> ->]].
      * rewrite DictFacts.get_set. destruct (keqb_spec c' c) as [->|Hne]; [congruence|eauto].
      * rewrite DictFacts.get_set_same. exists [t]. split; [reflexivity|now left].
Qed.

Lemma append_child_NoDup ch c t :
  NoDup (Dict.keys ch) -> NoDup (Dict.keys (append_child ch c t)).
Proof. unfold append_child. destruct (Dict.get ch c); apply DictFacts.keys_set_NoDup. Qed.

Lemma children_fold (pairs : list ((UUID * string) * LineageTree)) ch0 :
  let ch := fold_left (fun s xy => append_child s (snd (fst xy)) (snd xy)) pairs ch0 in
  NoDup (Dict.keys ch0) ->
  NoDup (Dict.keys ch) /\
  forall c t, has_child ch c t <->
              has_child ch0 c t \/ exists item, In (item, t) pairs /\ snd item = c.
Proof.
  revert ch0. induction pairs as [|[item t0] pairs IH]; intros ch0; simpl; intros Hnd.
  - split; [assumption|]. intros c t. split; [auto|]. intros [?|(? & [] & _)]. assumption.
  - destruct (IH (append_child ch0 (snd item) t0)) as [Hnd' Hiff].
    { now apply append_child_NoDup. }
    split; [assumption|]. intros c t. rewrite Hiff, has_child_append.
    split.
    + intros [[?|[-> ->]]|(it & Hin & <-)]; eauto 6.
    + intros [?|(it & [[= -> ->]|Hin] & <-)]; eauto 6.
Qed.

(** In a dictionary proper, listing an entry and looking it up agree. *)
Lemma has_child_In ch c t :
  NoDup (Dict.keys ch) ->
  (has_child ch c t <-> exists l, In (c, l) ch /\ In t l).
Proof.
  intros Hnd. unfold has_child. split; intros (l & Hl & Hin); exists l; split; auto.
  - now apply DictFacts.get_In.
  - now apply DictFacts.In_get.
Qed.

Lemma reach_inv adj a c :
  reach adj a c -> a = c \/ exists b, step adj a b /\ reach adj b c.
Proof. intros [|? b ? Hs Hr]; eauto. Qed.

Lemma step_item adj a b :
  step adj a b -> exists c, In (b, c) (get_or_empty adj a).
Proof.
  unfold step, Dict.keys. intros Hin.
  apply in_map_iff in Hin as ([b' c] & Hb & Hin). simpl in Hb. subst b'. eauto.
Qed.

Lemma tree_edges_In t e :
  In e (tree_edges t) <->
  exists items c l child, children t = Some items /\ In (c, l) items /\ In child l /\
    (e = (edge_ids t child, c) \/ In e (tree_edges child)).
Proof.
  destruct t as [d i [items|] h]; simpl.
  - rewrite in_flat_map. split.
    + intros ([c l] & Hin & He). apply in_flat_map in He as (child & Hc & He).
      exists items, c, l, child. simpl in *. intuition auto.
    + intros (items' & c & l & child & [= <-] & Hin & Hc & He).
      exists (c, l). split; [assumption|]. apply in_flat_map. exists child.
      split; [assumption|]. simpl. intuition auto.
  - split; [tauto|]. intros (? & ? & ? & ? & [=] & _).
Qed.

Lemma tree_nodes_In t n :
  In n (tree_nodes t) <->
  n = (dataset_id t, home t) \/
  exists items c l child, children t = Some items /\ In (c, l) items /\ In child l /\
    In n (tree_nodes child).
Proof.
  destruct t as [d i [items|] h]; simpl.
  - rewrite in_flat_map. split.
    + intros [<-|([c l] & Hin & He)]; [auto|]. apply in_flat_map in He as (child & Hc & He).
      right. exists items, c, l, child. auto.
    + intros [->|(items' & c & l & child & [= <-] & Hin & Hc & He)]; [auto|].
      right. exists (c, l). split; [assumption|]. apply in_flat_map. eauto.
  - split; [intros [<-|[]]; auto|]. intros [->|(? & ? & ? & ? & [=] & _)]. auto.
Qed.

Section ExtractContent.
Variables (self : LineageRelations) (d : LineageDirection).

Let adj := adjacency self d.

(** A successful extraction, one level at a time. *)
Lemma extract_ok_inv fuel root so_far t :
  extract_tree_fuel (S fuel) self root d so_far = Ok t ->
  IdSet.mem root so_far = false /\
  exists ch,
    t = {| direction := d; dataset_id := root; children := Some ch;
           home := home_of self root |} /\
    NoDup (Dict.keys ch) /\
    (forall b c, In (b, c) (get_or_empty adj root) ->
       exists child,
         extract_tree_fuel fuel self b d (IdSet.add root so_far) = Ok child) /\
    forall c child,
      (exists l, In (c, l) ch /\ In child l) <->
      (exists b, In (b, c) (get_or_empty adj root) /\
                 extract_tree_fuel fuel self b d (IdSet.add root so_far) = Ok child).
Proof.
  rewrite extract_tree_fuel_S. destruct (IdSet.mem root so_far) eqn:Hmem; [discriminate|].
  intros Hok. split; [reflexivity|]. bind_inv Hok. injection Hok as <-.
  exists a. split; [reflexivity|].
  apply checked_loop_ok in Hstep as (ys & Hall & ->).
  destruct (children_fold (combine (get_or_empty (adjacency self d) root) ys) [])
    as [Hnd Hiff]; [constructor|].
  split; [exact Hnd|]. split.
  { intros b c Hin. destruct (Forall2_pick_l Hall Hin) as (y & _ & Hy). eauto. }
  intros c child.
  rewrite <- has_child_In by exact Hnd. rewrite Hiff. split.
  - intros [(l & [=] & _)|([b c'] & Hin & <-)].
    destruct (Forall2_combine_In Hall Hin) as [Hitem Hext]. exists b. auto.
  - intros (b & Hin & Hext). right.
    destruct (Forall2_In_combine Hall Hin) as (y & Hy).
    destruct (Forall2_combine_In Hall Hy) as [_ Hext']. simpl in Hext'.
    assert (y = child) by congruence. subst y. exists (b, c). auto.
Qed.

Lemma extract_fully_expanded fuel root so_far t :
  extract_tree_fuel fuel self root d so_far = Ok t -> fully_expanded t = true.
Proof.
  revert root so_far t. induction fuel as [|fuel IH]; intros root so_far t; [discriminate|].
  intros Hok. apply extract_ok_inv in Hok as (_ & ch & -> & _ & _ & Hch). simpl.
  apply forallb_forall. intros [c l] Hin. apply forallb_forall. intros child Hc.
  destruct (proj1 (Hch c child)) as (b & _ & Hext); eauto.
Qed.

(** The root, direction and home of the extracted tree, and its links
    and nodes in terms of the index. *)
Lemma extract_content fuel root so_far t :
  extract_tree_fuel fuel self root d so_far = Ok t ->
  dataset_id t = root /\ direction t = d /\
  (forall e, In e (tree_edges t) <->
     exists a b c, reach adj root a /\ In (b, c) (get_or_empty adj a) /\
                   e = (orient d a b, c)) /\
  (forall n, In n (tree_nodes t) <->
     exists a, reach adj root a /\ n = (a, home_of self a)).
Proof.
  revert root so_far t. induction fuel as [|fuel IH]; intros root so_far t; [discriminate|].
  intros Hok. apply extract_ok_inv in Hok as (_ & ch & -> & _ & Hall & Hch).
  split; [reflexivity|]. split; [reflexivity|]. split.
  - intros e. rewrite tree_edges_In. simpl. split.
    + intros (items & c & l & child & [= <-] & Hin & Hc & He).
      destruct (proj1 (Hch c child)) as (b & Hb & Hext); [eauto|].
      destruct (IH _ _ _ Hext) as (Hid & Hdir & Hedges & _).
      destruct He as [->|He].
      * exists root, b, c. split; [constructor|]. split; [assumption|].
        unfold edge_ids, orient. simpl. rewrite Hid. reflexivity.
      * apply (proj1 (Hedges e)) in He. destruct He as (a & b' & c' & Hreach & Hin' & He).
        exists a, b', c'. split; [|auto].
        apply reach_hop with (b := b); [|assumption].
        now apply (item_step adj root (b, c)).
    + intros (a & b & c & Hreach & Hin & ->).
      apply reach_inv in Hreach as [<-|(x & Hstep & Hrest)].
      * destruct (Hall b c Hin) as (child & Hext).
        destruct (proj2 (Hch c child)) as (l & Hl & Hcl); [eauto|].
        exists ch, c, l, child. repeat split; auto. left.
        destruct (IH _ _ _ Hext) as (Hid & _).
        unfold edge_ids, orient. simpl. now rewrite Hid.
      * apply step_item in Hstep as (cx & Hinx).
        destruct (Hall x cx Hinx) as (child & Hext).
        destruct (proj2 (Hch cx child)) as (l & Hl & Hcl); [eauto|].
        exists ch, cx, l, child. repeat split; auto. right.
        destruct (IH _ _ _ Hext) as (_ & _ & Hedges & _).
        apply Hedges. exists a, b, c. auto.
  - intros n. rewrite tree_nodes_In. simpl. split.
    + intros [->|(items & c & l & child & [= <-] & Hin & Hc & Hn)].
      * exists root. split; [constructor|reflexivity].
      * destruct (proj1 (Hch c child)) as (b & Hb & Hext); [eauto|].
        destruct (IH _ _ _ Hext) as (_ & _ & _ & Hnodes).
        apply (proj1 (Hnodes n)) in Hn. destruct Hn as (a & Hreach & Hn).
        exists a. split; [|assumption].
        apply reach_hop with (b := b); [|assumption].
        now apply (item_step adj root (b, c)).
    + intros (a & Hreach & ->).
      apply reach_inv in Hreach as [<-|(x & Hstep & Hrest)]; [now left|]. right.
      apply step_item in Hstep as (cx & Hinx).
      destruct (Hall x cx Hinx) as (child & Hext).
      destruct (proj2 (Hch cx child)) as (l & Hl & Hcl); [eauto|].
      exists ch, cx, l, child. repeat split; auto.
      destruct (IH _ _ _ Hext) as (_ & _ & _ & Hnodes).
      apply Hnodes. exists a. auto.
Qed.
End ExtractContent.

(** ** Merges as sequences of single-item merges

    [merge] and [merge_tree] change the collection only through
    [merge_new_home], [_merge_new_relation] and [_merge_new_node]; the other
    steps of [merge_tree] are checks.  A successful merge is therefore a
    successful run of the single-item merges it performs, in order. *)

Lemma for_each_map {A B S} (body : S -> B -> outcome S) (f : A -> B) l s :
  for_each body (map f l) s = for_each (fun s x => body s (f x)) l s.
Proof.
  revert s. induction l as [|x l IH]; intros s; [reflexivity|].
  simpl. destruct (body s (f x)); simpl; auto.
Qed.

Lemma run_steps_app l1 l2 s :
  run_steps (l1 ++ l2) s = bind (run_steps l1 s) (run_steps l2).
Proof. apply for_each_app. Qed.

Lemma merge_as_script self pool : merge self pool = run_steps (pool_script pool) self.
Proof.
  unfold merge, pool_script, run_steps. rewrite for_each_app, for_each_map.
  change (fun s x => run_step s (MergeHome (fst x) (snd x)))
    with (fun s (x : UUID * option string) => merge_new_home s (fst x) (snd x)).
  destruct (for_each _ (_homes pool) self) as [s1| |]; simpl; auto.
  rewrite for_each_app, for_each_map.
  change (fun s x => run_step s (MergeRelation (fst x) (snd x)))
    with (fun s (x : UUID * UUID * string) => _merge_new_relation s (fst x) (snd x)).
  destruct (for_each _ (_relations_idx pool) s1) as [s2| |]; simpl; auto.
  rewrite for_each_map. reflexivity.
Qed.

Lemma merge_tree_unfold self tree parent_node max_depth :
  merge_tree self tree parent_node max_depth =
  (child_datasets tree ;;;
   self <- merge_new_home self (dataset_id tree) (home tree) ;;
   let (recurse, next_max_depth) := recursion_plan parent_node max_depth in
   (if negb (got_grandchildren tree)
    then extract_tree self (dataset_id tree) (opposite (direction tree)) ;;; Ok tt
    else Ok tt) ;;;
   match children tree with
   | None => Ok self
   | Some items =>
       for_each (fun self item =>
         for_each (fun self child =>
           if negb (direction_eqb (direction child) (direction tree))
           then Raise (InconsistentLineageException MixedDirections)
           else
             let ids := edge_ids tree child in
             self <- _merge_new_relation self ids (fst item) ;;
             self <- _merge_new_node self ids child ;;
             if recurse
             then merge_tree self child (Some tree) next_max_depth
             else Ok self)
           (snd item) self)
         items self
   end).
Proof. destruct tree; reflexivity. Qed.

Lemma recursion_plan_budget parent_node max_depth tree :
  let b := depth_budget parent_node max_depth in
  b <> Some O /\
  (fst (recursion_plan parent_node max_depth) = true ->
   depth_budget (Some tree) (snd (recursion_plan parent_node max_depth)) = budget_pred b) /\
  (fst (recursion_plan parent_node max_depth) = false -> budget_pred b = Some O).
Proof.
  assert (Hfin : forall n m : nat, n = m -> Some n = Some m) by congruence.
  unfold depth_budget, recursion_plan, budget_pred.
  destruct parent_node as [p|];
    [destruct (Z.eqb_spec max_depth 0) as [->|H0];
       [|destruct (Z.eqb_spec max_depth 1) as [->|H1]]|];
    cbn [fst snd];
    repeat match goal with
           | |- context [Z.leb ?a ?b] => destruct (Z.leb_spec a b); try lia
           end;
    unfold not; repeat split; intros; try discriminate; try reflexivity;
    try (apply Hfin; lia);
    match goal with
    | H : Some _ = Some _ |- _ => injection H as H; lia
    end.
Qed.

Lemma merge_script_step b tree :
  b <> Some O ->
  merge_script b tree =
  MergeHome (dataset_id tree) (home tree) ::
  match children tree with
  | None => []
  | Some items =>
      flat_map (fun item =>
        flat_map (fun child =>
          MergeRelation (edge_ids tree child) (fst item) ::
          MergeNode (edge_ids tree child) child ::
          merge_script (budget_pred b) child)
          (snd item)) items
  end.
Proof. destruct tree, b as [[|n]|]; simpl; congruence. Qed.

Lemma merge_script_exhausted tree : merge_script (Some O) tree = [].
Proof. destruct tree; reflexivity. Qed.

(** A successful [merge_tree] is a successful run of its script. *)
Lemma merge_tree_script tree :
  forall self parent_node max_depth self',
    merge_tree self tree parent_node max_depth = Ok self' ->
    run_steps (merge_script (depth_budget parent_node max_depth) tree) self = Ok self'.
Proof.
  induction tree as [d i h|d i items h IH] using LineageTree_nested_ind;
    intros self parent_node max_depth self' Hok;
    rewrite merge_tree_unfold in Hok;
    destruct (recursion_plan_budget parent_node max_depth
                (mkLineageTree d i None h)) as (Hb & _);
    rewrite merge_script_step by exact Hb.
  - bind_inv Hok. bind_inv Hok. destruct (recursion_plan parent_node max_depth).
    bind_inv Hok. simpl in *. injection Hok as <-.
    unfold run_steps. simpl. now rewrite Hstep0.
  - set (tree := mkLineageTree d i (Some items) h) in *.
    destruct (recursion_plan_budget parent_node max_depth tree) as (_ & Hrec & Hstop).
    bind_inv Hok. bind_inv Hok.
    destruct (recursion_plan parent_node max_depth) as [recurse next] eqn:Eplan.
    bind_inv Hok. simpl in Hrec, Hstop.
    unfold run_steps. rewrite for_each_cons. simpl run_step.
    simpl in Hstep0. rewrite Hstep0.
    simpl bind. change (children tree) with (Some items) in *. cbv iota in Hok |- *.
    clear Hstep Hstep0 Hstep1 a a1 Hb. clearbody tree. revert a0 Hok.
    induction IH as [|[c l] items' Hl _ IHitems]; intros s Hok.
    + exact Hok.
    + rewrite for_each_cons in Hok. unbind Hok as a Hstep.
      simpl flat_map. rewrite for_each_app.
      assert (Hinner : for_each run_step
                (flat_map (fun child =>
                   MergeRelation (edge_ids tree child) c ::
                   MergeNode (edge_ids tree child) child ::
                   merge_script (budget_pred (depth_budget parent_node max_depth)) child) l)
                s = Ok a).
      { clear IHitems Hok. cbn [snd fst] in Hstep. revert s Hstep. simpl in Hl.
        induction Hl as [|child l' Hchild _ IHl]; intros s Hloop.
        - exact Hloop.
        - rewrite for_each_cons in Hloop. unbind Hloop as s3 Hbody.
          cbn [snd fst] in Hbody.
          destruct (negb (direction_eqb (direction child) (direction tree)));
            [discriminate|].
          cbv zeta in Hbody.
          unbind Hbody as s1 Hrel. unbind Hbody as s2 Hnode.
          simpl flat_map. rewrite !for_each_cons. simpl run_step.
          rewrite Hrel. simpl bind. rewrite Hnode. simpl bind.
          rewrite for_each_app.
          destruct recurse.
          + apply Hchild in Hbody. rewrite Hrec in Hbody by reflexivity.
            unfold run_steps in Hbody. rewrite Hbody. simpl bind. now apply IHl.
          + injection Hbody as <-.
            assert (Hnil : merge_script
                             (budget_pred (depth_budget parent_node max_depth)) child = []).
            { rewrite Hstop by reflexivity. apply merge_script_exhausted. }
            rewrite Hnil. simpl. now apply IHl. }
      simpl snd. simpl fst. rewrite Hinner. simpl bind. now apply IHitems.
Qed.

(** ** What a successful single-item merge does *)

Lemma merge_new_home_ok self id_ h self' :
  merge_new_home self id_ h = Ok self' ->
  (exists stored, Dict.get (_homes self) id_ = Some stored /\
                  truthy_home stored && negb (keqb stored h) = false /\ self' = self) \/
  (Dict.get (_homes self) id_ = None /\
   self' = set_homes self (Dict.set (_homes self) id_ h)).
Proof.
  unfold merge_new_home. destruct (Dict.get (_homes self) id_) as [stored|].
  - destruct (truthy_home stored && negb (keqb stored h)) eqn:E; [discriminate|].
    intros [= <-]. left. eauto.
  - intros [= <-]. auto.
Qed.

Lemma merge_new_lineage_relation_ok self rel self' :
  merge_new_lineage_relation self rel = Ok self' ->
  let ids := (source_id rel, derived_id rel) in
  (Dict.get (_relations_idx self) ids = Some (classifier rel) /\ self' = self) \/
  (Dict.get (_relations_idx self) ids = None /\
   self' = set_dataset_ids (index_relation self rel)
             (IdSet.update (dataset_ids self)
                (IdSet.add (derived_id rel) [source_id rel]))).
Proof.
  unfold merge_new_lineage_relation.
  destruct (Dict.get (_relations_idx self) (source_id rel, derived_id rel)) as [known|].
  - destruct (String.eqb_spec known (classifier rel)) as [->|Hne]; simpl; [|discriminate].
    intros [= <-]. auto.
  - intros Hok. unbind Hok as u Hcheck. injection Hok as <-. auto.
Qed.

Lemma _merge_new_node_ok self ids node self' :
  _merge_new_node self ids node = Ok self' ->
  (got_grandchildren node = false /\ self' = self) \/
  (got_grandchildren node = true /\ Dict.mem (_trees_idx self) ids = false /\
   self' = set_trees_idx self (Dict.set (_trees_idx self) ids node)).
Proof.
  unfold _merge_new_node. destruct (got_grandchildren node).
  - destruct (Dict.mem (_trees_idx self) ids); [discriminate|]. intros [= <-]. auto.
  - intros [= <-]. auto.
Qed.

Lemma extends_refl a : extends a a.
Proof. repeat split; auto. Qed.

Lemma extends_trans a b c : extends a b -> extends b c -> extends a c.
Proof. intros (H1 & H2 & H3) (H4 & H5 & H6). repeat split; auto. Qed.

Lemma get_set_fresh {K V} `{EqKey K} (d : dict K V) k v k' v' :
  Dict.get d k = None -> Dict.get d k' = Some v' -> Dict.get (Dict.set d k v) k' = Some v'.
Proof.
  intros Hfresh Hget. rewrite DictFacts.get_set.
  destruct (keqb_spec k' k) as [->|]; congruence.
Qed.

Lemma run_step_extends self st self' : run_step self st = Ok self' -> extends self self'.
Proof.
  destruct st as [id_ h|ids c|ids node]; simpl; intros Hok.
  - apply merge_new_home_ok in Hok as [(stored & _ & _ & ->)|(Hfresh & ->)];
      [apply extends_refl|].
    repeat split; simpl; auto. intros. now apply get_set_fresh.
  - apply merge_new_lineage_relation_ok in Hok as [(_ & ->)|(Hfresh & ->)];
      [apply extends_refl|].
    repeat split; simpl; auto. intros. now apply get_set_fresh.
  - apply _merge_new_node_ok in Hok as [(_ & ->)|(_ & Hfresh & ->)];
      [apply extends_refl|].
    repeat split; simpl; auto. intros ids' Hmem. rewrite DictFacts.mem_set, Hmem.
    apply orb_true_r.
Qed.

Lemma run_steps_cons st l s :
  run_steps (st :: l) s = bind (run_step s st) (run_steps l).
Proof. reflexivity. Qed.

Lemma run_steps_extends l s s' : run_steps l s = Ok s' -> extends s s'.
Proof.
  revert s. induction l as [|st l IH]; intros s.
  - intros [= <-]. apply extends_refl.
  - rewrite run_steps_cons. intros Hok. unbind Hok as s1 Hst.
    eapply extends_trans; [eapply run_step_extends|]; eauto.
Qed.

Lemma step_done_extends st a b : step_done st a -> extends a b -> step_done st b.
Proof.
  intros Hdone (Hh & Hr & Ht). destruct st as [id_ h|ids c|ids node]; simpl in *.
  - destruct Hdone as (stored & Hget & Hok). exists stored. auto.
  - auto.
  - auto.
Qed.

Lemma keqb_refl_false {K} `{EqKey K} (x : K) : negb (keqb x x) = false.
Proof. now rewrite keqb_refl. Qed.

Lemma run_step_done self st self' : run_step self st = Ok self' -> step_done st self'.
Proof.
  destruct st as [id_ h|ids c|ids node]; simpl; intros Hok.
  - apply merge_new_home_ok in Hok as [(stored & Hget & Hc & ->)|(Hfresh & ->)].
    + exists stored. auto.
    + exists h. unfold set_homes; cbn [_homes]. split; [apply DictFacts.get_set_same|].
      rewrite keqb_refl_false. apply andb_false_r.
  - apply merge_new_lineage_relation_ok in Hok as [(Hget & ->)|(Hfresh & ->)]; simpl.
    + destruct ids; exact Hget.
    + destruct ids; simpl. apply DictFacts.get_set_same.
  - apply _merge_new_node_ok in Hok as [(Hno & ->)|(_ & _ & ->)]; simpl.
    + congruence.
    + intros _. rewrite DictFacts.mem_set, keqb_refl. reflexivity.
Qed.

Lemma run_steps_done l s s' :
  run_steps l s = Ok s' -> Forall (fun st => step_done st s') l.
Proof.
  revert s. induction l as [|st l IH]; intros s; [constructor|].
  rewrite run_steps_cons. intros Hok. unbind Hok as s1 Hst. constructor.
  - eapply step_done_extends; [eapply run_step_done; eauto|].
    eapply run_steps_extends; eauto.
  - eauto.
Qed.

(** Repeating a single-item merge that is already done either raises or
    leaves the collection as it is. *)
Lemma rerun_step st s s' : step_done st s -> run_step s st = Ok s' -> s' = s.
Proof.
  destruct st as [id_ h|ids c|ids node]; simpl.
  - intros (stored & Hget & _) Hok.
    apply merge_new_home_ok in Hok as [(_ & _ & _ & ->)|(Hfresh & _)]; congruence.
  - intros Hget Hok.
    apply merge_new_lineage_relation_ok in Hok as [(_ & ->)|(Hfresh & _)]; [reflexivity|].
    simpl in Hfresh. destruct ids. simpl in *. congruence.
  - intros Hmem Hok.
    apply _merge_new_node_ok in Hok as [(_ & ->)|(Hgot & Hfresh & _)]; [reflexivity|].
    rewrite Hmem in Hfresh by assumption. discriminate.
Qed.

Lemma rerun_steps l s s' :
  Forall (fun st => step_done st s) l -> run_steps l s = Ok s' -> s' = s.
Proof.
  induction 1 as [|st l Hst _ IH]; [now intros [= <-]|].
  rewrite run_steps_cons. intros Hok. unbind Hok as s1 Hrun.
  apply rerun_step in Hrun; [|exact Hst]. subst s1. auto.
Qed.

Lemma rerun_step_ok st s : step_done st s -> no_detail st -> run_step s st = Ok s.
Proof.
  destruct st as [id_ h|ids c|ids node]; simpl.
  - intros (stored & Hget & Hok) _. unfold merge_new_home. now rewrite Hget, Hok.
  - intros Hget _. unfold _merge_new_relation, merge_new_lineage_relation. simpl.
    replace (fst ids, snd ids) with ids by now destruct ids.
    rewrite Hget, String.eqb_refl. reflexivity.
  - intros _ Hno. unfold _merge_new_node. now rewrite Hno.
Qed.

Lemma rerun_steps_ok l s :
  Forall (fun st => step_done st s) l -> Forall no_detail l -> run_steps l s = Ok s.
Proof.
  induction 1 as [|st l Hst _ IH]; [reflexivity|].
  intros Hno. inversion Hno as [|? ? Hno1 Hno2]; subst.
  rewrite run_steps_cons, rerun_step_ok by assumption. simpl. auto.
Qed.

(** Repeating a done step that carries a detailed subtree raises. *)
Lemma rerun_steps_detail l s ids node :
  Forall (fun st => step_done st s) l ->
  In (MergeNode ids node) l -> got_grandchildren node = true ->
  forall s', run_steps l s <> Ok s'.
Proof.
  intros Hdone Hin Hgot. induction Hdone as [|st l Hst Hl IH]; [contradiction|].
  intros s'. rewrite run_steps_cons. intros Hok. unbind Hok as s1 Hrun.
  assert (s1 = s) as -> by (eapply rerun_step; eauto).
  destruct Hin as [->|Hin].
  - simpl in Hrun, Hst. unfold _merge_new_node in Hrun.
    rewrite Hgot, (Hst Hgot) in Hrun. discriminate.
  - eapply IH; eauto.
Qed.

(** ** No operation exhausts the extraction budget *)

Lemma for_each_no_fuel {A S} (body : S -> A -> outcome S) l s :
  (forall s x, In x l -> body s x <> OutOfFuel) -> for_each body l s <> OutOfFuel.
Proof.
  revert s. induction l as [|x l IH]; intros s Hbody; [discriminate|].
  rewrite for_each_cons. intros Hf. apply bind_fuel_inv in Hf as [Hf|(s1 & _ & Hf)].
  - revert Hf. apply Hbody. now left.
  - revert Hf. apply IH. intros; apply Hbody; now right.
Qed.

Lemma merge_new_home_no_fuel self id_ h : merge_new_home self id_ h <> OutOfFuel.
Proof.
  unfold merge_new_home. destruct (Dict.get _ _); [|discriminate].
  destruct (_ && _); discriminate.
Qed.

Lemma merge_new_lineage_relation_no_fuel self rel :
  merge_new_lineage_relation self rel <> OutOfFuel.
Proof.
  unfold merge_new_lineage_relation. destruct (Dict.get _ _).
  - destruct (negb _); discriminate.
  - intros Hf. apply bind_fuel_inv in Hf as [Hf|(u & _ & Hf)]; [|discriminate].
    destruct (_ || _); [|discriminate].
    apply bind_fuel_inv in Hf as [Hf|(t1 & _ & Hf)].
    + revert Hf. apply extract_tree_terminates.
    + apply bind_fuel_inv in Hf as [Hf|(t2 & _ & Hf)]; [|discriminate].
      revert Hf. apply extract_tree_terminates.
Qed.

Lemma _merge_new_node_no_fuel self ids node : _merge_new_node self ids node <> OutOfFuel.
Proof.
  unfold _merge_new_node. destruct (got_grandchildren node); [|discriminate].
  destruct (Dict.mem _ _); discriminate.
Qed.

Lemma run_step_no_fuel self st : run_step self st <> OutOfFuel.
Proof.
  destruct st; simpl.
  - apply merge_new_home_no_fuel.
  - apply merge_new_lineage_relation_no_fuel.
  - apply _merge_new_node_no_fuel.
Qed.

Lemma merge_no_fuel self pool : merge self pool <> OutOfFuel.
Proof.
  rewrite merge_as_script. apply for_each_no_fuel. intros; apply run_step_no_fuel.
Qed.

Lemma child_datasets_no_fuel tree : child_datasets tree <> OutOfFuel.
Proof.
  induction tree as [d i h|d i items h IH] using LineageTree_nested_ind;
    simpl; [discriminate|].
  generalize (@nil UUID). induction IH as [|[c l] items' Hl _ IHitems]; intros acc;
    [discriminate|].
  rewrite for_each_cons. intros Hf. apply bind_fuel_inv in Hf as [Hf|(acc1 & _ & Hf)].
  - revert Hf. apply for_each_no_fuel. intros acc' child Hin Hf.
    apply bind_fuel_inv in Hf as [Hf|(sub & _ & Hf)].
    + simpl in Hl. rewrite Forall_forall in Hl. now apply (Hl child Hin).
    + destruct (IdSet.mem _ _); discriminate.
  - now apply IHitems in Hf.
Qed.

Lemma merge_tree_no_fuel tree :
  forall self parent_node max_depth,
    merge_tree self tree parent_node max_depth <> OutOfFuel.
Proof.
  induction tree as [d i h|d i items h IH] using LineageTree_nested_ind;
    intros self parent_node max_depth; rewrite merge_tree_unfold; intros Hf.
  - apply bind_fuel_inv in Hf as [Hf|(u & _ & Hf)];
      [now apply child_datasets_no_fuel in Hf|].
    apply bind_fuel_inv in Hf as [Hf|(s1 & _ & Hf)];
      [now apply merge_new_home_no_fuel in Hf|].
    destruct (recursion_plan parent_node max_depth).
    apply bind_fuel_inv in Hf as [Hf|(v & _ & Hf)]; [|discriminate].
    simpl in Hf. apply bind_fuel_inv in Hf as [Hf|(t & _ & Hf)]; [|discriminate].
    now apply extract_tree_terminates in Hf.
  - set (tree := mkLineageTree d i (Some items) h) in *.
    apply bind_fuel_inv in Hf as [Hf|(u & _ & Hf)];
      [now apply child_datasets_no_fuel in Hf|].
    apply bind_fuel_inv in Hf as [Hf|(s1 & _ & Hf)];
      [now apply merge_new_home_no_fuel in Hf|].
    destruct (recursion_plan parent_node max_depth) as [recurse next].
    apply bind_fuel_inv in Hf as [Hf|(v & _ & Hf)].
    + destruct (negb (got_grandchildren tree)); [|discriminate].
      apply bind_fuel_inv in Hf as [Hf|(t & _ & Hf)]; [|discriminate].
      now apply extract_tree_terminates in Hf.
    + change (children tree) with (Some items) in Hf. cbv iota in Hf.
      clearbody tree. revert Hf. apply for_each_no_fuel.
      intros s [c l] Hitem. apply for_each_no_fuel. intros s' child Hchild Hf.
      destruct (negb _); [discriminate|]. cbv zeta in Hf.
      apply bind_fuel_inv in Hf as [Hf|(s2 & _ & Hf)];
        [now apply merge_new_lineage_relation_no_fuel in Hf|].
      apply bind_fuel_inv in Hf as [Hf|(s3 & _ & Hf)];
        [now apply _merge_new_node_no_fuel in Hf|].
      destruct recurse; [|discriminate].
      rewrite Forall_forall in IH. specialize (IH _ Hitem).
      rewrite Forall_forall in IH. now apply (IH child Hchild) in Hf.
Qed.

(** ** Footprint of a successful run *)

Lemma run_step_relations self st self' :
  run_step self st = Ok self' ->
  forall ids c, Dict.get (_relations_idx self') ids = Some c <->
                Dict.get (_relations_idx self) ids = Some c \/ st = MergeRelation ids c.
Proof.
  intros Hok ids c. destruct st as [id_ h|ids0 c0|ids0 node]; simpl in Hok.
  - apply merge_new_home_ok in Hok as [(_ & _ & _ & ->)|(_ & ->)]; simpl;
      (split; [auto|intros [?|[=]]; auto]).
  - apply merge_new_lineage_relation_ok in Hok as [(Hget & ->)|(Hfresh & ->)];
      simpl in *; replace (fst ids0, snd ids0) with ids0 in * by now destruct ids0.
    + split; [auto|]. intros [?|[= -> ->]]; auto.
    + rewrite DictFacts.get_set. destruct (keqb_spec ids ids0) as [->|Hne].
      * split; [intros [= ->]; auto|]. intros [?|[= ->]]; congruence.
      * split; [auto|]. intros [?|[= -> ->]]; congruence.
  - apply _merge_new_node_ok in Hok as [(_ & ->)|(_ & _ & ->)]; simpl;
      (split; [auto|intros [?|[=]]; auto]).
Qed.

Lemma run_steps_relations l s s' :
  run_steps l s = Ok s' ->
  forall ids c, Dict.get (_relations_idx s') ids = Some c <->
                Dict.get (_relations_idx s) ids = Some c \/ In (MergeRelation ids c) l.
Proof.
  revert s. induction l as [|st l IH]; intros s.
  - intros [= <-] ids c. simpl. tauto.
  - rewrite run_steps_cons. intros Hok. unbind Hok as s1 Hst. intros ids c.
    rewrite (IH _ Hok), (run_step_relations _ _ Hst). simpl.
    split; [intros [[?|?]|?]|intros [?|[?|?]]]; auto.
Qed.

Lemma run_step_homes self st self' :
  run_step self st = Ok self' ->
  forall id_ h, Dict.get (_homes self') id_ = Some h <->
                Dict.get (_homes self) id_ = Some h \/
                (Dict.get (_homes self) id_ = None /\ st = MergeHome id_ h).
Proof.
  intros Hok id_ h. destruct st as [id0 h0|ids0 c0|ids0 node]; simpl in Hok.
  - apply merge_new_home_ok in Hok as [(stored & Hget & _ & ->)|(Hfresh & ->)]; simpl.
    + split; [auto|]. intros [?|(Hnone & [= -> ->])]; congruence.
    + rewrite DictFacts.get_set. destruct (keqb_spec id_ id0) as [->|Hne].
      * split; [intros [= ->]; auto|]. intros [?|(_ & [= ->])]; congruence.
      * split; [auto|]. intros [?|(_ & [= -> ->])]; congruence.
  - apply merge_new_lineage_relation_ok in Hok as [(_ & ->)|(_ & ->)]; simpl;
      (split; [auto|intros [?|(_ & [=])]; auto]).
  - apply _merge_new_node_ok in Hok as [(_ & ->)|(_ & _ & ->)]; simpl;
      (split; [auto|intros [?|(_ & [=])]; auto]).
Qed.

Lemma run_steps_homes l s s' :
  run_steps l s = Ok s' ->
  forall id_ h, Dict.get (_homes s') id_ = Some h ->
                Dict.get (_homes s) id_ = Some h \/
                (Dict.get (_homes s) id_ = None /\ In (MergeHome id_ h) l).
Proof.
  revert s. induction l as [|st l IH]; intros s.
  - intros [= <-] id_ h. auto.
  - rewrite run_steps_cons. intros Hok. unbind Hok as s1 Hst. intros id_ h Hget.
    apply (IH _ Hok) in Hget as [Hget|(Hnone & Hin)].
    + apply (run_step_homes _ _ Hst) in Hget as [?|(? & ->)]; simpl; auto.
    + right. split; [|now right].
      destruct (Dict.get (_homes s) id_) as [h'|] eqn:E; [|reflexivity].
      apply run_step_extends in Hst. destruct Hst as (Hh & _).
      apply Hh in E. congruence.
Qed.

Lemma home_settled_mem self id_ h : home_settled self id_ h -> Dict.mem (_homes self) id_ = true.
Proof. intros (stored & Hget & _). apply DictFacts.mem_true. eauto. Qed.

Lemma run_steps_homes_mem l s s' id_ h :
  run_steps l s = Ok s' -> In (MergeHome id_ h) l -> Dict.mem (_homes s') id_ = true.
Proof.
  intros Hok Hin. apply run_steps_done in Hok. rewrite Forall_forall in Hok.
  apply Hok in Hin. simpl in Hin. eapply home_settled_mem; eauto.
Qed.

Lemma run_steps_homes_mem_iff l s s' :
  run_steps l s = Ok s' ->
  forall id_, Dict.mem (_homes s') id_ = true <->
              Dict.mem (_homes s) id_ = true \/ exists h, In (MergeHome id_ h) l.
Proof.
  intros Hok id_. split.
  - intros Hmem. apply DictFacts.mem_true in Hmem as (h & Hget).
    eapply run_steps_homes in Hget as [Hget|(_ & Hin)]; [| |exact Hok]; [|eauto].
    left. apply DictFacts.mem_true. eauto.
  - intros [Hmem|(h & Hin)].
    + apply DictFacts.mem_true in Hmem as (h & Hget). apply DictFacts.mem_true. exists h.
      apply run_steps_extends in Hok. now apply Hok.
    + eapply run_steps_homes_mem; eauto.
Qed.

(** ** The script of a tree in terms of its links and nodes *)

Lemma merge_script_In b t st :
  b <> Some O ->
  (In st (merge_script b t) <->
   st = MergeHome (dataset_id t) (home t) \/
   exists items c l child,
     children t = Some items /\ In (c, l) items /\ In child l /\
     (st = MergeRelation (edge_ids t child) c \/
      st = MergeNode (edge_ids t child) child \/
      In st (merge_script (budget_pred b) child))).
Proof.
  intros Hb. rewrite merge_script_step by exact Hb. simpl.
  destruct (children t) as [items|] eqn:E.
  - rewrite in_flat_map. split.
    + intros [<-|([c l] & Hin & Hst)]; [auto|]. right.
      apply in_flat_map in Hst as (child & Hc & Hst). simpl in Hst.
      exists items, c, l, child. intuition auto.
    + intros [->|(items' & c & l & child & [= <-] & Hin & Hc & Hst)]; [auto|]. right.
      exists (c, l). split; [assumption|]. apply in_flat_map. exists child.
      split; [assumption|]. simpl. intuition auto.
  - split; [intros [<-|[]]; auto|]. intros [->|(? & ? & ? & ? & [=] & _)]. auto.
Qed.

Lemma script_relations_all t :
  forall ids c, In (MergeRelation ids c) (merge_script None t) <-> In (ids, c) (tree_edges t).
Proof.
  induction t as [d i h|d i items h IH] using LineageTree_nested_ind; intros ids c;
    rewrite merge_script_In, tree_edges_In by discriminate; simpl.
  - split.
    + intros [[=]|(? & ? & ? & ? & [=] & _)].
    + intros (? & ? & ? & ? & [=] & _).
  - split.
    + intros [[=]|(items' & c' & l & child & [= <-] & Hin & Hc & Hst)].
      exists items, c', l, child. repeat split; auto.
      destruct Hst as [[= -> ->]|[[=]|Hst]]; [auto|]. right.
      rewrite Forall_forall in IH. specialize (IH _ Hin). rewrite Forall_forall in IH.
      now apply (IH child Hc).
    + intros (items' & c' & l & child & [= <-] & Hin & Hc & He). right.
      exists items, c', l, child. repeat split; auto.
      destruct He as [[= -> ->]|He]; [auto|]. right. right.
      rewrite Forall_forall in IH. specialize (IH _ Hin). rewrite Forall_forall in IH.
      now apply (IH child Hc).
Qed.

Lemma script_homes_all t :
  forall id_ h, In (MergeHome id_ h) (merge_script None t) <-> In (id_, h) (tree_nodes t).
Proof.
  induction t as [d i h0|d i items h0 IH] using LineageTree_nested_ind; intros id_ h;
    rewrite merge_script_In, tree_nodes_In by discriminate; simpl.
  - split.
    + intros [[= -> ->]|(? & ? & ? & ? & [=] & _)]. auto.
    + intros [[= -> ->]|(? & ? & ? & ? & [=] & _)]. auto.
  - split.
    + intros [[= -> ->]|(items' & c' & l & child & [= <-] & Hin & Hc & Hst)]; [auto|].
      right. exists items, c', l, child. repeat split; auto.
      destruct Hst as [[=]|[[=]|Hst]].
      rewrite Forall_forall in IH. specialize (IH _ Hin). rewrite Forall_forall in IH.
      now apply (IH child Hc).
    + intros [[= -> ->]|(items' & c' & l & child & [= <-] & Hin & Hc & He)]; [auto|].
      right. exists items, c', l, child. repeat split; auto. right. right.
      rewrite Forall_forall in IH. specialize (IH _ Hin). rewrite Forall_forall in IH.
      now apply (IH child Hc).
Qed.

Lemma child_edges_In t e :
  In e (child_edges t) <->
  exists items c l child, children t = Some items /\ In (c, l) items /\ In child l /\
                          e = (edge_ids t child, c).
Proof.
  unfold child_edges. destruct (children t) as [items|].
  - rewrite in_flat_map. split.
    + intros ([c l] & Hin & He). apply in_map_iff in He as (child & <- & Hc).
      exists items, c, l, child. auto.
    + intros (items' & c & l & child & [= <-] & Hin & Hc & ->).
      exists (c, l). split; [assumption|]. apply in_map_iff. eauto.
  - split; [intros []|]. intros (? & ? & ? & ? & [=] & _).
Qed.

Lemma subtrees_In t child :
  In child (subtrees t) <->
  exists items c l, children t = Some items /\ In (c, l) items /\ In child l.
Proof.
  unfold subtrees. destruct (children t) as [items|].
  - rewrite in_flat_map. split.
    + intros ([c l] & Hin & Hc). exists items, c, l. auto.
    + intros (items' & c & l & [= <-] & Hin & Hc). exists (c, l). auto.
  - split; [intros []|]. intros (? & ? & ? & [=] & _).
Qed.

(** Two levels: the root and its immediate children are visited. *)
Lemma script_relations_two t ids c :
  In (MergeRelation ids c) (merge_script (Some 2) t) <->
  In (ids, c) (child_edges t) \/
  exists child, In child (subtrees t) /\ In (ids, c) (child_edges child).
Proof.
  rewrite merge_script_In by discriminate. simpl budget_pred. split.
  - intros [[=]|(items & c' & l & child & Hch & Hin & Hc & Hst)].
    destruct Hst as [[= -> ->]|[[=]|Hst]].
    + left. apply child_edges_In. exists items, c', l, child. auto.
    + right. exists child. split; [apply subtrees_In; exists items, c', l; auto|].
      apply merge_script_In in Hst; [|discriminate]. simpl budget_pred in Hst.
      destruct Hst as [[=]|(items2 & c2 & l2 & gc & Hch2 & Hin2 & Hc2 & Hst)].
      destruct Hst as [[= -> ->]|[[=]|Hst]].
      * apply child_edges_In. exists items2, c2, l2, gc. auto.
      * rewrite merge_script_exhausted in Hst. contradiction.
  - intros [He|(child & Hsub & He)]; right.
    + apply child_edges_In in He as (items & c' & l & child & Hch & Hin & Hc & [= -> ->]).
      exists items, c', l, child. auto.
    + apply subtrees_In in Hsub as (items & c' & l & Hch & Hin & Hc).
      exists items, c', l, child. repeat split; auto. right. right.
      apply merge_script_In; [discriminate|]. right.
      apply child_edges_In in He as (items2 & c2 & l2 & gc & Hch2 & Hin2 & Hc2 & [= -> ->]).
      exists items2, c2, l2, gc. auto.
Qed.

Lemma script_homes_two t id_ h :
  In (MergeHome id_ h) (merge_script (Some 2) t) <->
  (id_, h) = (dataset_id t, home t) \/
  exists child, In child (subtrees t) /\ (id_, h) = (dataset_id child, home child).
Proof.
  rewrite merge_script_In by discriminate. simpl budget_pred. split.
  - intros [[= -> ->]|(items & c' & l & child & Hch & Hin & Hc & Hst)]; [auto|].
    destruct Hst as [[=]|[[=]|Hst]]. right. exists child.
    split; [apply subtrees_In; exists items, c', l; auto|].
    apply merge_script_In in Hst; [|discriminate]. simpl budget_pred in Hst.
    destruct Hst as [[= -> ->]|(items2 & c2 & l2 & gc & Hch2 & Hin2 & Hc2 & Hst)]; [auto|].
    destruct Hst as [[=]|[[=]|Hst]].
    rewrite merge_script_exhausted in Hst. contradiction.
  - intros [[= -> ->]|(child & Hsub & [= -> ->])]; [auto|]. right.
    apply subtrees_In in Hsub as (items & c' & l & Hch & Hin & Hc).
    exists items, c', l, child. repeat split; auto. right. right.
    apply merge_script_In; [discriminate|]. auto.
Qed.

(** ** The relation list and the relation index stay in step *)

Lemma empty_relations_synced : relations_synced empty_relations.
Proof. intros ids. reflexivity. Qed.

Lemma run_step_synced self st self' :
  relations_synced self -> run_step self st = Ok self' -> relations_synced self'.
Proof.
  intros Hsync Hok. destruct st as [id_ h|ids0 c0|ids0 node]; simpl in Hok.
  - apply merge_new_home_ok in Hok as [(_ & _ & _ & ->)|(_ & ->)]; auto.
  - apply merge_new_lineage_relation_ok in Hok as [(_ & ->)|(Hfresh & ->)]; auto.
    cbn [source_id derived_id] in Hfresh.
    replace (fst ids0, snd ids0) with ids0 in Hfresh by now destruct ids0.
    intros ids. unfold relations_for, set_dataset_ids, index_relation.
    cbn [relations _relations_idx source_id derived_id classifier].
    replace (fst ids0, snd ids0) with ids0 by now destruct ids0.
    rewrite filter_app, DictFacts.get_set.
    specialize (Hsync ids). unfold relations_for in Hsync. rewrite Hsync.
    cbn [filter source_id derived_id].
    replace (fst ids0, snd ids0) with ids0 by now destruct ids0.
    destruct (keqb_spec ids ids0) as [->|Hne].
    + rewrite Hfresh, keqb_refl. reflexivity.
    + assert (Hne' : keqb ids0 ids = false) by (apply keqb_neq; congruence).
      rewrite Hne'. now rewrite app_nil_r.
  - apply _merge_new_node_ok in Hok as [(_ & ->)|(_ & _ & ->)]; auto.
Qed.

Lemma run_steps_synced l s s' :
  relations_synced s -> run_steps l s = Ok s' -> relations_synced s'.
Proof.
  revert s. induction l as [|st l IH]; intros s Hsync.
  - now intros [= <-].
  - rewrite run_steps_cons. intros Hok. unbind Hok as s1 Hst.
    eapply IH; [|exact Hok]. eapply run_step_synced; eauto.
Qed.

(** ** The adjacency indices follow the relation index *)

Lemma dict_set_fresh {K V} `{EqKey K} (d : dict K V) k v :
  Dict.mem d k = false -> Dict.set d k v = d ++ [(k, v)].
Proof.
  unfold Dict.mem. induction d as [|[k' v'] r IH]; simpl; [reflexivity|].
  destruct (keqb k k'); [discriminate|]. intros Hm. now rewrite IH.
Qed.

Lemma dict_keys_set {K V} `{EqKey K} (d : dict K V) k v y :
  In y (Dict.keys (Dict.set d k v)) <-> In y (Dict.keys d) \/ y = k.
Proof.
  unfold Dict.keys. induction d as [|[k' v'] r IH]; simpl.
  - intuition auto.
  - destruct (keqb_spec k k') as [->|Hne]; simpl.
    + intuition auto.
    + rewrite IH. intuition auto.
Qed.

Lemma get_or_empty_index_edge idx a b c a' :
  get_or_empty (index_edge idx a b c) a' =
  if keqb a' a then Dict.set (get_or_empty idx a) b c else get_or_empty idx a'.
Proof.
  unfold index_edge, get_or_empty, Dict.mem.
  destruct (Dict.get idx a) as [inner|] eqn:E.
  - rewrite DictFacts.get_set, E. now destruct (keqb a' a).
  - rewrite DictFacts.get_set_same, !DictFacts.get_set.
    destruct (keqb a' a); reflexivity.
Qed.

Lemma step_index_edge idx a b c x y :
  step (index_edge idx a b c) x y <-> step idx x y \/ (x = a /\ y = b).
Proof.
  unfold step. rewrite get_or_empty_index_edge.
  destruct (keqb_spec x a) as [->|Hne].
  - rewrite dict_keys_set. intuition auto.
  - intuition auto.
Qed.

Lemma empty_relations_well_indexed : well_indexed empty_relations.
Proof.
  repeat split; simpl; try discriminate; try contradiction.
Qed.

Lemma In_set_fresh {K V} `{EqKey K} (d : dict K V) k v k' v' :
  (forall w, ~ In (k, w) d) ->
  (In (k', v') (Dict.set d k v) <-> In (k', v') d \/ (k', v') = (k, v)).
Proof.
  intros Hfresh. rewrite dict_set_fresh.
  - rewrite in_app_iff. simpl. intuition auto.
  - destruct (Dict.mem d k) eqn:E; [|reflexivity].
    apply DictFacts.mem_true in E as (w & Hw). apply DictFacts.get_In in Hw. now apply Hfresh in Hw.
Qed.

Lemma In_index_edge (idx : dict UUID (dict UUID string)) a0 b0 c0 a b c :
  (forall w, ~ In (b0, w) (get_or_empty idx a0)) ->
  (In (b, c) (get_or_empty (index_edge idx a0 b0 c0) a) <->
   In (b, c) (get_or_empty idx a) \/ (a, b, c) = (a0, b0, c0)).
Proof.
  intros Hnew. rewrite get_or_empty_index_edge.
  destruct (keqb_spec a a0) as [->|Hne].
  - rewrite In_set_fresh by exact Hnew.
    split; (intros [?|[= -> ->]]; auto).
  - split; [auto|]. intros [?|[= -> -> ->]]; congruence.
Qed.

Lemma index_relation_well_indexed self rel ids' :
  well_indexed self ->
  Dict.get (_relations_idx self) (source_id rel, derived_id rel) = None ->
  (forall x, IdSet.mem x ids' = true <->
             IdSet.mem x (dataset_ids self) = true \/
             x = source_id rel \/ x = derived_id rel) ->
  well_indexed (set_dataset_ids (index_relation self rel) ids').
Proof.
  intros (Hsrc & Hder & Hknown) Hfresh Hids.
  destruct rel as [c0 s0 d0].
  unfold well_indexed, set_dataset_ids, index_relation.
  cbn [by_source by_derived _relations_idx dataset_ids source_id derived_id classifier] in *.
  assert (Hidx : forall s d c,
            Dict.get (Dict.set (_relations_idx self) (s0, d0) c0) (s, d) = Some c <->
            Dict.get (_relations_idx self) (s, d) = Some c \/ (s, d, c) = (s0, d0, c0)).
  { intros s d c. rewrite DictFacts.get_set.
    destruct (keqb_spec (s, d) (s0, d0)) as [[= -> ->]|Hne].
    - split; [intros [= ->]; auto|]. intros [?|[= ->]]; congruence.
    - split; [auto|]. intros [?|[= -> -> ->]]; congruence. }
  split; [|split].
  - intros s d c. rewrite In_index_edge, Hidx, Hsrc; [reflexivity|].
    intros w Hw. apply Hsrc in Hw. congruence.
  - intros s d c. rewrite In_index_edge, Hidx, Hder.
    + split; (intros [?|[= -> -> ->]]; auto).
    + intros w Hw. apply Hder in Hw. congruence.
  - intros s d c Hget. apply Hidx in Hget as [Hget|[= -> -> ->]].
    + apply Hknown in Hget as [? ?]. split; apply Hids; auto.
    + split; apply Hids; auto.
Qed.

Lemma new_ids_mem self rel x :
  IdSet.mem x (IdSet.update (dataset_ids self)
                 (IdSet.add (derived_id rel) [source_id rel])) = true <->
  IdSet.mem x (dataset_ids self) = true \/ x = source_id rel \/ x = derived_id rel.
Proof.
  rewrite IdSetFacts.mem_update, IdSetFacts.mem_add. cbn [IdSet.mem].
  rewrite orb_false_r, !orb_true_iff, !keqb_eq. intuition auto.
Qed.

Lemma run_step_well_indexed self st self' :
  well_indexed self -> run_step self st = Ok self' -> well_indexed self'.
Proof.
  intros Hwf Hok. destruct st as [id_ h|ids0 c0|ids0 node]; simpl in Hok.
  - apply merge_new_home_ok in Hok as [(_ & _ & _ & ->)|(_ & ->)]; auto.
  - apply merge_new_lineage_relation_ok in Hok as [(_ & ->)|(Hfresh & ->)]; auto.
    apply index_relation_well_indexed; auto. intros x. apply new_ids_mem.
  - apply _merge_new_node_ok in Hok as [(_ & ->)|(_ & _ & ->)]; auto.
Qed.

Lemma run_steps_well_indexed l s s' :
  well_indexed s -> run_steps l s = Ok s' -> well_indexed s'.
Proof.
  revert s. induction l as [|st l IH]; intros s Hwf.
  - now intros [= <-].
  - rewrite run_steps_cons. intros Hok. unbind Hok as s1 Hst.
    eapply IH; [|exact Hok]. eapply run_step_well_indexed; eauto.
Qed.

Lemma extract_tree_outcomes self root d :
  (exists t, extract_tree self root d = Ok t) \/
  (exists x, extract_tree self root d =
             Raise (InconsistentLineageException (GraphNotAcyclic x))).
Proof.
  destruct (extract_tree self root d) as [t|e|] eqn:E.
  - left. eauto.
  - right. apply extract_raise_walk in E as ((x & ->) & _). eauto.
  - now apply extract_tree_terminates in E.
Qed.

(** ** Cycles in an adjacency index *)

Lemma reach_trans adj a b c : reach adj a b -> reach adj b c -> reach adj a c.
Proof.
  induction 1 as [|a m b Hs _ IH]; [auto|]. intros Hbc.
  apply reach_hop with (b := m); auto.
Qed.

Lemma reach_step adj a b : step adj a b -> reach adj a b.
Proof. intros Hs. apply reach_hop with (b := b); [assumption|constructor]. Qed.

Lemma good_hop adj a b : good adj a -> step adj a b -> good adj b.
Proof.
  intros Hgood Hs y Hreach. apply Hgood. apply reach_hop with (b := b); assumption.
Qed.

Lemma walk_head adj a p : walk adj a p -> exists q, p = a :: q.
Proof. intros [|? b q _ _]; eauto. Qed.

Lemma walk_In_reach adj a p y : walk adj a p -> In y p -> reach adj a y.
Proof.
  induction 1 as [a|a b q Hs Hw IH]; simpl.
  - intros [<-|[]]. constructor.
  - intros [<-|Hin]; [constructor|].
    apply reach_hop with (b := b); auto.
Qed.

(** A walk that ends at [b]. *)
Lemma reach_walk adj a b : reach adj a b -> exists p, walk adj a (p ++ [b]).
Proof.
  induction 1 as [a|a m b Hs _ (p & Hw)].
  - exists []. constructor.
  - destruct (walk_head Hw) as (q & Hq). exists (a :: p). simpl.
    apply walk_step with (b := m); assumption.
Qed.

Lemma walk_extend adj a p y m q :
  walk adj a (p ++ [y]) -> step adj y m -> walk adj m q -> walk adj a (p ++ y :: q).
Proof.
  revert a. induction p as [|x p IH]; intros a Hw Hs Hq; simpl in *.
  - inversion Hw as [|? b q' _ Hq']; subst; [|inversion Hq'].
    destruct (walk_head Hq) as (q' & ->). apply walk_step with (b := m); assumption.
  - inversion Hw as [Hnil|? b q' Hab Hq']; subst.
    + destruct p; discriminate.
    + apply walk_step with (b := b); [assumption|]. now apply IH.
Qed.

(** The two readings of "no cycle below [x]" agree. *)
Lemma good_walks adj x : good adj x <-> forall p, walk adj x p -> NoDup p.
Proof.
  split.
  - intros Hgood p Hw. induction Hw as [a|a b q Hs Hw IH].
    + repeat constructor. tauto.
    + constructor; [|apply IH; eapply good_hop; eauto].
      intros Hin. apply (Hgood a); [constructor|].
      exists b. split; [assumption|]. eapply walk_In_reach; eauto.
  - intros Hwalks y Hxy (m & Hs & Hmy).
    destruct (reach_walk Hxy) as (p & Hp). destruct (reach_walk Hmy) as (q & Hq).
    pose proof (Hwalks _ (walk_extend _ _ Hp Hs Hq)) as Hnd.
    apply NoDup_remove_2 in Hnd. apply Hnd. rewrite !in_app_iff. right. right. now left.
Qed.

(** Adding edges that all point to [r] creates no cycle, provided no
    cycle can be reached from [r] afterwards. *)
Lemma good_new_edges G G' r :
  (forall a b, step G' a b -> step G a b \/ b = r) ->
  good G' r ->
  forall x, good G x -> good G' x.
Proof.
  intros Hnew Hr.
  assert (Hreach : forall a b, reach G' a b -> reach G a b \/ reach G' r b).
  { induction 1 as [a|a m b Hs Hmb IH]; [left; constructor|].
    destruct (Hnew _ _ Hs) as [Hold| ->]; [|now right].
    destruct IH as [IH|IH]; [left|now right].
    apply reach_hop with (b := m); assumption. }
  intros x Hx y Hxy (m & Hs & Hmy).
  assert (Hcyc : returns G' y) by (exists m; auto).
  destruct (Hreach _ _ Hxy) as [Hxy'|Hry]; [|now apply (Hr y)].
  destruct (Hnew _ _ Hs) as [Hold| ->].
  - destruct (Hreach _ _ Hmy) as [Hmy'|Hry]; [|now apply (Hr y)].
    apply (Hx y Hxy'). exists m. auto.
  - now apply (Hr y).
Qed.

Lemma extract_tree_good self root d :
  (exists t, extract_tree self root d = Ok t) <-> good (adjacency self d) root.
Proof.
  rewrite good_walks. split.
  - intros (t & Hok) p Hw. unfold extract_tree in Hok.
    eapply extract_ok_walks in Hok; [|exact Hw]. apply Hok.
  - intros Hwalks. destruct (extract_tree_outcomes self root d) as [?|(x & Hraise)];
      [assumption|].
    apply extract_raise_walk in Hraise as (_ & p & Hw & Hbad). exfalso.
    destruct Hbad as [Hdup|(y & _ & [=])]. auto.
Qed.

(** ** Successful merges keep the indices free of cycles *)

Lemma empty_relations_sound : sound empty_relations.
Proof.
  intros d x y Hreach (m & Hs & _). destruct d; simpl in Hs; contradiction.
Qed.

(** When one of the ids of a new relation is known already, both cycle
    checks of [merge_new_lineage_relation] have passed. *)
Lemma merge_new_lineage_relation_checked self rel self' :
  merge_new_lineage_relation self rel = Ok self' ->
  Dict.get (_relations_idx self) (source_id rel, derived_id rel) = None ->
  IdSet.mem (source_id rel) (dataset_ids self)
  || IdSet.mem (derived_id rel) (dataset_ids self) = true ->
  good (adjacency (index_relation self rel) SOURCES) (derived_id rel) /\
  good (adjacency (index_relation self rel) DERIVED) (source_id rel).
Proof.
  unfold merge_new_lineage_relation. intros Hok Hfresh Hknown.
  rewrite Hfresh in Hok. cbv zeta in Hok. unbind Hok as u Hcheck.
  change (dataset_ids (index_relation self rel)) with (dataset_ids self) in Hcheck.
  rewrite Hknown in Hcheck.
  unbind Hcheck as t1 H1. unbind Hcheck as t2 H2.
  split; apply extract_tree_good; eauto.
Qed.

Lemma step_known self d a b :
  well_indexed self -> step (adjacency self d) a b ->
  IdSet.mem a (dataset_ids self) = true /\ IdSet.mem b (dataset_ids self) = true.
Proof.
  intros (Hsrc & Hder & Hknown) Hs. apply step_item in Hs as (c & Hin).
  destruct d; simpl in Hin.
  - apply Hsrc, Hknown in Hin. tauto.
  - apply Hder, Hknown in Hin. tauto.
Qed.

Lemma good_no_steps adj x : (forall b, ~ step adj x b) -> good adj x.
Proof.
  intros Hnone y Hreach (m & Hs & _).
  apply reach_inv in Hreach as [<-|(b & Hb & _)]; eapply Hnone; eauto.
Qed.

(** A single-item merge of a relation between two different ids keeps
    every id that was free of cycles free of cycles. *)
Lemma merge_relation_good self s t c self' :
  well_indexed self ->
  s <> t ->
  _merge_new_relation self (s, t) c = Ok self' ->
  forall d x, good (adjacency self d) x -> good (adjacency self' d) x.
Proof.
  intros Hwf Hne Hok d x Hx. unfold _merge_new_relation in Hok. simpl in Hok.
  set (rel := {| classifier := c; source_id := s; derived_id := t |}) in *.
  pose proof (merge_new_lineage_relation_ok _ _ Hok) as [(_ & ->)|(Hfresh & ->)];
    [assumption|].
  change (adjacency (set_dataset_ids (index_relation self rel) _) d)
    with (adjacency (index_relation self rel) d).
  destruct (IdSet.mem s (dataset_ids self) || IdSet.mem t (dataset_ids self)) eqn:Hknown.
  - destruct (merge_new_lineage_relation_checked _ _ Hok Hfresh Hknown) as (Hsrc & Hder).
    destruct d; simpl adjacency in *.
    + apply good_new_edges with (G := by_source self) (r := t); auto.
      intros a b Hs. apply step_index_edge in Hs as [?|[_ ->]]; auto.
    + apply good_new_edges with (G := by_derived self) (r := s); auto.
      intros a b Hs. apply step_index_edge in Hs as [?|[_ ->]]; auto.
  - apply orb_false_iff in Hknown as (Hs & Ht).
    destruct d; simpl adjacency in *.
    + apply good_new_edges with (G := by_source self) (r := t); auto.
      * intros a b Hst. apply step_index_edge in Hst as [?|[_ ->]]; auto.
      * apply good_no_steps. intros b Hst.
        apply step_index_edge in Hst as [Hst|[Heq _]]; [|congruence].
        apply (@step_known self SOURCES _ _ Hwf) in Hst as [Hk _]. congruence.
    + apply good_new_edges with (G := by_derived self) (r := s); auto.
      * intros a b Hst. apply step_index_edge in Hst as [?|[_ ->]]; auto.
      * apply good_no_steps. intros b Hst.
        apply step_index_edge in Hst as [Hst|[Heq _]]; [|congruence].
        apply (@step_known self DERIVED _ _ Hwf) in Hst as [Hk _]. congruence.
Qed.

Lemma run_step_good self st self' :
  well_indexed self -> loop_free st -> run_step self st = Ok self' ->
  forall d x, good (adjacency self d) x -> good (adjacency self' d) x.
Proof.
  intros Hwf Hfree Hok d x. destruct st as [id_ h|[s t] c|ids node]; simpl in *.
  - apply merge_new_home_ok in Hok as [(_ & _ & _ & ->)|(_ & ->)]; auto.
  - eapply merge_relation_good; eauto.
  - apply _merge_new_node_ok in Hok as [(_ & ->)|(_ & _ & ->)]; auto.
Qed.

Lemma run_steps_sound l s s' :
  well_indexed s -> Forall loop_free l -> run_steps l s = Ok s' ->
  sound s -> sound s'.
Proof.
  revert s. induction l as [|st l IH]; intros s Hwf Hfree.
  - now intros [= <-].
  - rewrite run_steps_cons. intros Hok Hsound. unbind Hok as s1 Hst.
    inversion Hfree as [|? ? Hst_free Hl_free]; subst.
    eapply IH; [| |exact Hok|].
    + eapply run_step_well_indexed; eauto.
    + assumption.
    + intros d x. eapply run_step_good; eauto.
Qed.

(** ** What a successful merge_tree has checked *)

Lemma for_each_ok_each {A S} (body : S -> A -> outcome S) l s s' :
  for_each body l s = Ok s' ->
  forall x, In x l -> exists s1 s2, body s1 x = Ok s2.
Proof.
  revert s. induction l as [|y l IH]; intros s Hok x; [contradiction|].
  rewrite for_each_cons in Hok. unbind Hok as s1 Hy.
  intros [<-|Hin]; eauto.
Qed.

Lemma for_each_fixed {A S} (body : S -> A -> outcome S) l s :
  (forall x, In x l -> body s x = Ok s) -> for_each body l s = Ok s.
Proof.
  induction l as [|y l IH]; intros Hbody; [reflexivity|].
  rewrite for_each_cons, Hbody by now left. simpl. apply IH.
  intros; apply Hbody; now right.
Qed.

Lemma LineageTree_subtree_ind (P : LineageTree -> Prop) :
  (forall t, (forall child, In child (subtrees t) -> P child) -> P t) ->
  forall t, P t.
Proof.
  intros Hstep. induction t as [d i h|d i items h IH] using LineageTree_nested_ind;
    apply Hstep; unfold subtrees; simpl; [contradiction|].
  intros child Hin. apply in_flat_map in Hin as (item & Hitem & Hc).
  rewrite Forall_forall in IH. specialize (IH _ Hitem).
  rewrite Forall_forall in IH. auto.
Qed.

Lemma direction_eqb_eq a b : direction_eqb a b = true <-> a = b.
Proof. destruct a, b; simpl; split; congruence. Qed.

Lemma child_datasets_distinct tree ids :
  child_datasets tree = Ok ids ->
  forall child, In child (subtrees tree) -> dataset_id child <> dataset_id tree.
Proof.
  intros Hok child Hin. apply subtrees_In in Hin as (items & c & l & Hch & Hitem & Hc).
  destruct tree as [d i ch h]. simpl in *. subst ch.
  destruct (for_each_ok_each _ _ _ Hok _ Hitem) as (acc1 & acc2 & Hinner).
  destruct (for_each_ok_each _ _ _ Hinner _ Hc) as (acc3 & acc4 & Hbody).
  unbind Hbody as sub Hsub. rewrite IdSetFacts.mem_add in Hbody.
  destruct (keqb_spec i (dataset_id child)) as [->|Hne]; [discriminate|]. congruence.
Qed.

Lemma merge_tree_ok_inv self tree parent_node max_depth self' :
  merge_tree self tree parent_node max_depth = Ok self' ->
  (exists ids, child_datasets tree = Ok ids) /\
  forall child, In child (subtrees tree) ->
    direction child = direction tree /\
    (fst (recursion_plan parent_node max_depth) = true ->
     exists s1 s2,
       merge_tree s1 child (Some tree)
         (snd (recursion_plan parent_node max_depth)) = Ok s2).
Proof.
  rewrite merge_tree_unfold. intros Hok. unbind Hok as ids Hids.
  split; [eauto|]. unbind Hok as s0 Hhome.
  destruct (recursion_plan parent_node max_depth) as [recurse next].
  unbind Hok as u Hcheck. intros child Hin.
  apply subtrees_In in Hin as (items & c & l & Hch & Hitem & Hc).
  rewrite Hch in Hok.
  destruct (for_each_ok_each _ _ _ Hok _ Hitem) as (s1 & s2 & Hinner).
  destruct (for_each_ok_each _ _ _ Hinner _ Hc) as (s3 & s4 & Hbody).
  destruct (direction_eqb (direction child) (direction tree)) eqn:Hdir;
    [|discriminate].
  split; [now apply direction_eqb_eq|]. simpl. intros ->.
  simpl in Hbody. unbind Hbody as s5 Hrel. unbind Hbody as s6 Hnode. eauto.
Qed.

Lemma edge_ids_distinct tree child :
  dataset_id child <> dataset_id tree ->
  fst (edge_ids tree child) <> snd (edge_ids tree child).
Proof. unfold edge_ids. destruct (direction tree); simpl; congruence. Qed.

Lemma merge_tree_loop_free tree :
  forall self parent_node max_depth self',
    merge_tree self tree parent_node max_depth = Ok self' ->
    Forall loop_free (merge_script (depth_budget parent_node max_depth) tree).
Proof.
  induction tree as [tree IH] using LineageTree_subtree_ind.
  intros self parent_node max_depth self' Hok.
  destruct (merge_tree_ok_inv _ _ _ _ Hok) as ((ids & Hids) & Hchildren).
  destruct (recursion_plan_budget parent_node max_depth tree) as (Hb & Hrec & Hstop).
  apply Forall_forall. intros st Hin. apply merge_script_In in Hin; [|exact Hb].
  destruct Hin as [->|(items & c & l & child & Hch & Hitem & Hc & Hst)]; [exact I|].
  assert (Hsub : In child (subtrees tree)) by (apply subtrees_In; exists items, c, l; auto).
  destruct Hst as [->|[->|Hst]]; [|exact I|].
  - simpl. apply edge_ids_distinct. eapply child_datasets_distinct; eauto.
  - destruct (Hchildren _ Hsub) as (_ & Hchild).
    destruct (fst (recursion_plan parent_node max_depth)) eqn:Hr.
    + destruct (Hchild eq_refl) as (s1 & s2 & Hok').
      apply IH in Hok'; [|assumption]. rewrite Hrec in Hok' by reflexivity.
      rewrite Forall_forall in Hok'. auto.
    + rewrite Hstop, merge_script_exhausted in Hst by reflexivity. contradiction.
Qed.

(** A successful [merge_tree] keeps a well-indexed, cycle-free collection
    well indexed and cycle free. *)
Lemma merge_tree_sound self tree parent_node max_depth self' :
  well_indexed self -> sound self ->
  merge_tree self tree parent_node max_depth = Ok self' ->
  well_indexed self' /\ sound self'.
Proof.
  intros Hwf Hsound Hok. pose proof (merge_tree_loop_free _ _ _ _ Hok) as Hfree.
  apply merge_tree_script in Hok. split.
  - eapply run_steps_well_indexed; eauto.
  - eapply run_steps_sound; eauto.
Qed.

Lemma no_grandchildren_children t :
  got_grandchildren t = false -> children t = None \/ children t = Some [].
Proof. unfold got_grandchildren. destruct (children t) as [[|]|]; auto. discriminate. Qed.

Lemma budget_pred_root max_depth : budget_pred (depth_budget None max_depth) <> Some O.
Proof.
  unfold depth_budget, budget_pred. destruct (max_depth <=? 0)%Z eqn:E; [discriminate|].
  simpl. intros [= H]. apply Z.leb_gt in E. lia.
Qed.

(** ** The checks of a first merge still hold at its end *)

Lemma evolves_refl s : evolves s s.
Proof. exists []. split; [constructor|reflexivity]. Qed.

Lemma evolves_trans a b c : evolves a b -> evolves b c -> evolves a c.
Proof.
  intros (l1 & Hf1 & H1) (l2 & Hf2 & H2). exists (l1 ++ l2). split.
  - apply Forall_app. auto.
  - rewrite run_steps_app, H1. exact H2.
Qed.

Lemma evolves_step s st s' : loop_free st -> run_step s st = Ok s' -> evolves s s'.
Proof.
  intros Hfree Hok. exists [st]. split; [repeat constructor; assumption|].
  rewrite run_steps_cons, Hok. reflexivity.
Qed.

Lemma evolves_well_indexed s s' : well_indexed s -> evolves s s' -> well_indexed s'.
Proof. intros Hwf (l & _ & Hok). eapply run_steps_well_indexed; eauto. Qed.

Lemma evolves_good s s' :
  well_indexed s -> evolves s s' ->
  forall d x, good (adjacency s d) x -> good (adjacency s' d) x.
Proof.
  intros Hwf (l & Hfree & Hok). revert s Hwf Hok.
  induction Hfree as [|st l Hst _ IH]; intros s Hwf.
  - now intros [= <-].
  - rewrite run_steps_cons. intros Hok d x Hx. unbind Hok as s1 Hrun.
    eapply IH; [|exact Hok|].
    + eapply run_step_well_indexed; eauto.
    + eapply run_step_good; eauto.
Qed.

Lemma merge_tree_evolves self tree parent_node max_depth self' :
  merge_tree self tree parent_node max_depth = Ok self' -> evolves self self'.
Proof.
  intros Hok. exists (merge_script (depth_budget parent_node max_depth) tree).
  split; [eapply merge_tree_loop_free; eauto | now apply merge_tree_script].
Qed.

(** A loop whose every iteration moves along a preorder: the state an
    iteration starts from, and the state it leaves. *)
Section LoopAlong.
Context {A S : Type} (body : S -> A -> outcome S) (R : S -> S -> Prop).
Hypothesis R_refl : forall s, R s s.
Hypothesis R_trans : forall a b c, R a b -> R b c -> R a c.

Lemma for_each_along l s s' :
  (forall s x s', In x l -> body s x = Ok s' -> R s s') ->
  for_each body l s = Ok s' -> R s s'.
Proof.
  revert s. induction l as [|y l IH]; intros s Hbody.
  - intros [= <-]. apply R_refl.
  - rewrite for_each_cons. intros Hok. unbind Hok as s1 Hy.
    apply R_trans with (b := s1).
    + eapply Hbody; [now left|exact Hy].
    + apply IH; [|exact Hok].
      intros s0 x0 s0' Hx Hb. apply (Hbody s0 x0 s0'); [now right|exact Hb].
Qed.

Lemma for_each_split l s s' x :
  (forall s x s', In x l -> body s x = Ok s' -> R s s') ->
  for_each body l s = Ok s' -> In x l ->
  exists s1 s2, R s s1 /\ body s1 x = Ok s2 /\ R s2 s'.
Proof.
  revert s. induction l as [|y l IH]; intros s Hbody Hok Hin; [contradiction|].
  rewrite for_each_cons in Hok. unbind Hok as s1 Hy.
  assert (Hrest : forall s x s', In x l -> body s x = Ok s' -> R s s').
  { intros s0 x0 s0' Hx Hb. apply (Hbody s0 x0 s0'); [now right|exact Hb]. }
  destruct Hin as [<-|Hin].
  - exists s, s1. split; [apply R_refl|]. split; [assumption|].
    now apply for_each_along with (l := l).
  - destruct (IH s1 Hrest Hok Hin) as (s2 & s3 & H12 & Hx & H3).
    exists s2, s3. split; [|auto]. apply R_trans with (b := s1); [|assumption].
    eapply Hbody; [now left|exact Hy].
Qed.
End LoopAlong.

(** A merged leaf has passed its cycle check in the collection the merge
    returns. *)
Lemma merge_leaf_checked self leaf_node parent_node max_depth self' :
  got_grandchildren leaf_node = false ->
  merge_tree self leaf_node parent_node max_depth = Ok self' ->
  good (adjacency self' (opposite (direction leaf_node))) (dataset_id leaf_node).
Proof.
  intros Hleaf Hok. rewrite merge_tree_unfold in Hok.
  unbind Hok as ids Hids. unbind Hok as s1 Hhome.
  destruct (recursion_plan parent_node max_depth) as [recurse next].
  rewrite Hleaf in Hok. simpl negb in Hok. cbv iota in Hok.
  unbind Hok as u Hcheck. unbind Hcheck as t Hext.
  assert (self' = s1) as ->.
  { destruct (no_grandchildren_children _ Hleaf) as [Hn|Hn]; rewrite Hn in Hok;
      simpl in Hok; congruence. }
  apply extract_tree_good. eauto.
Qed.

(** After a successful merge of a shallow tree, no cycle can be reached
    from any of its children against the tree's direction. *)
Lemma merge_shallow_checked self tree max_depth self1 :
  well_indexed self -> shallow tree ->
  merge_tree self tree None max_depth = Ok self1 ->
  forall child, In child (subtrees tree) ->
    good (adjacency self1 (opposite (direction child))) (dataset_id child).
Proof.
  intros Hwf Hshallow Hok child Hsub.
  pose proof (merge_tree_ok_inv _ _ _ _ Hok) as ((ids & Hids) & _).
  rewrite merge_tree_unfold in Hok.
  unbind Hok as ids' Hids'. unbind Hok as s0 Hhome.
  simpl recursion_plan in Hok. cbv iota in Hok. unbind Hok as u Hcheck.
  pose proof Hsub as Hsub'.
  apply subtrees_In in Hsub' as (items & c & l & Hch & Hitem & Hc).
  rewrite Hch in Hok.
  set (child_body := fun (c : string) (self : LineageRelations) (child : LineageTree) =>
         if negb (direction_eqb (direction child) (direction tree))
         then Raise (InconsistentLineageException MixedDirections)
         else
           let ids := edge_ids tree child in
           self <- _merge_new_relation self ids c ;;
           self <- _merge_new_node self ids child ;;
           merge_tree self child (Some tree) max_depth).
  assert (Hbody : forall c s x s', In x (subtrees tree) ->
            child_body c s x = Ok s' -> evolves s s').
  { intros c' s x s' Hx Hrun. unfold child_body in Hrun.
    destruct (negb (direction_eqb (direction x) (direction tree))); [discriminate|].
    cbv zeta in Hrun. unbind Hrun as s1 Hrel. unbind Hrun as s2 Hnode.
    apply evolves_trans with (b := s1).
    { apply evolves_step with (st := MergeRelation (edge_ids tree x) c'); [|exact Hrel].
      simpl. apply edge_ids_distinct. eapply child_datasets_distinct; eauto. }
    apply evolves_trans with (b := s2).
    { apply evolves_step with (st := MergeNode (edge_ids tree x) x); [exact I|exact Hnode]. }
    eapply merge_tree_evolves; eauto. }
  assert (Hitems : forall s item s', In item items ->
            for_each (child_body (fst item)) (snd item) s = Ok s' -> evolves s s').
  { intros s [c' l'] s' Hin Hrun. simpl in Hrun.
    apply (@for_each_along _ _ (child_body c') evolves evolves_refl evolves_trans)
      in Hrun; [assumption|].
    intros s2 x s3 Hx. apply Hbody. apply subtrees_In. exists items, c', l'. auto. }
  destruct (@for_each_split _ _
              (fun s item => for_each (child_body (fst item)) (snd item) s)
              evolves evolves_refl evolves_trans items s0 self1 (c, l) Hitems Hok Hitem)
    as (s1 & s2 & H01 & Hinner & H2).
  simpl in Hinner.
  assert (Hl : forall s x s', In x l -> child_body c s x = Ok s' -> evolves s s').
  { intros s x s' Hx. apply Hbody. apply subtrees_In. exists items, c, l. auto. }
  destruct (@for_each_split _ _ (child_body c) evolves evolves_refl evolves_trans
              l s1 s2 child Hl Hinner Hc)
    as (s3 & s4 & H13 & Hrun & H42).
  assert (Hwf4 : well_indexed s4).
  { apply evolves_well_indexed with (s := s0).
    - apply run_step_well_indexed with (self := self)
        (st := MergeHome (dataset_id tree) (home tree)); [exact Hwf|exact Hhome].
    - apply evolves_trans with (b := s1); [assumption|].
      apply evolves_trans with (b := s3); [assumption|]. now apply (Hl s3 child). }
  apply evolves_good with (s := s4);
    [assumption|now apply evolves_trans with (b := s2)|].
  unfold child_body in Hrun.
  destruct (negb (direction_eqb (direction child) (direction tree))); [discriminate|].
  cbv zeta in Hrun. unbind Hrun as s5 Hrel. unbind Hrun as s6 Hnode.
  eapply merge_leaf_checked; [|exact Hrun]. now apply Hshallow.
Qed.

(** Merging a leaf whose home is settled, when no cycle can be reached
    from it, changes nothing. *)
Lemma merge_leaf_again self leaf_node parent_node max_depth :
  got_grandchildren leaf_node = false ->
  merge_new_home self (dataset_id leaf_node) (home leaf_node) = Ok self ->
  (exists t, extract_tree self (dataset_id leaf_node)
               (opposite (direction leaf_node)) = Ok t) ->
  merge_tree self leaf_node parent_node max_depth = Ok self.
Proof.
  intros Hleaf Hhome (t & Hext). rewrite merge_tree_unfold.
  assert (Hcd : child_datasets leaf_node = Ok []).
  { destruct leaf_node as [cd ci cch chh]. simpl in *.
    destruct (no_grandchildren_children _ Hleaf) as [Hn|Hn]; simpl in Hn; subst cch;
      reflexivity. }
  rewrite Hcd, Hhome. simpl bind.
  destruct (recursion_plan parent_node max_depth) as [recurse next].
  rewrite Hleaf, Hext. simpl.
  destruct (no_grandchildren_children _ Hleaf) as [-> | ->]; reflexivity.
Qed.

(** Merging a shallow tree a second time, into the collection its first
    merge into a well-indexed collection returned, succeeds and changes
    nothing. *)
Lemma merge_shallow_tree_again self tree max_depth self1 :
  well_indexed self -> shallow tree ->
  merge_tree self tree None max_depth = Ok self1 ->
  merge_tree self1 tree None max_depth = Ok self1.
Proof.
  intros Hwf Hshallow Hok.
  destruct (merge_tree_ok_inv _ _ _ _ Hok) as ((ids & Hids) & Hchildren).
  pose proof (merge_tree_script _ _ _ _ Hok) as Hrun.
  pose proof (run_steps_done _ _ Hrun) as Hdone. rewrite Forall_forall in Hdone.
  destruct (recursion_plan_budget None max_depth tree) as (Hb & _).
  assert (Hagain : forall st, In st (merge_script (depth_budget None max_depth) tree) ->
                     no_detail st -> run_step self1 st = Ok self1).
  { intros st Hin Hno. apply rerun_step_ok; auto. }
  rewrite merge_tree_unfold, Hids. simpl bind.
  change (merge_new_home self1 (dataset_id tree) (home tree))
    with (run_step self1 (MergeHome (dataset_id tree) (home tree))).
  rewrite Hagain; [|apply merge_script_In; [exact Hb|now left]|exact I].
  simpl bind. simpl recursion_plan. cbv iota.
  assert (Hcheck : (if negb (got_grandchildren tree)
                    then extract_tree self1 (dataset_id tree) (opposite (direction tree)) ;;;
                         Ok tt
                    else Ok tt) = Ok tt).
  { destruct (got_grandchildren tree) eqn:Hgot; [reflexivity|]. simpl negb. cbv iota.
    assert (Hroot : exists t, extract_tree self1 (dataset_id tree)
                                (opposite (direction tree)) = Ok t).
    { apply extract_tree_good. eapply merge_leaf_checked; eauto. }
    destruct Hroot as (t & ->). reflexivity. }
  rewrite Hcheck. simpl bind.
  destruct (children tree) as [items|] eqn:Hch; [|reflexivity].
  apply for_each_fixed. intros [c l] Hitem. apply for_each_fixed. intros child Hc.
  assert (Hsub : In child (subtrees tree)) by (apply subtrees_In; exists items, c, l; auto).
  destruct (Hchildren _ Hsub) as (Hdir & _).
  rewrite Hdir. replace (direction_eqb (direction tree) (direction tree)) with true
    by (symmetry; now apply direction_eqb_eq).
  simpl negb. cbv iota zeta. simpl fst.
  change (_merge_new_relation self1 (edge_ids tree child) c)
    with (run_step self1 (MergeRelation (edge_ids tree child) c)).
  rewrite Hagain;
    [|apply merge_script_In; [exact Hb|right; exists items, c, l, child; auto]|exact I].
  simpl bind.
  change (_merge_new_node self1 (edge_ids tree child) child)
    with (run_step self1 (MergeNode (edge_ids tree child) child)).
  rewrite Hagain;
    [|apply merge_script_In; [exact Hb|right; exists items, c, l, child; auto 7]
     |now apply Hshallow].
  simpl bind.
  apply merge_leaf_again.
  - now apply Hshallow.
  - change (merge_new_home self1 (dataset_id child) (home child))
      with (run_step self1 (MergeHome (dataset_id child) (home child))).
    apply Hagain; [|exact I].
    apply merge_script_In; [exact Hb|]. right. exists items, c, l, child.
    repeat split; auto. right. right.
    apply merge_script_In; [apply budget_pred_root|]. now left.
  - apply extract_tree_good. eapply merge_shallow_checked; eauto.
Qed.

(** ** Cycles of the edge set *)

Lemma empty_relations_consistent : consistent empty_relations.
Proof. split; [apply empty_relations_well_indexed | apply empty_relations_synced]. Qed.

Lemma run_steps_consistent l s s' :
  consistent s -> run_steps l s = Ok s' -> consistent s'.
Proof.
  intros (Hwf & Hsync) Hok. split.
  - eapply run_steps_well_indexed; eauto.
  - eapply run_steps_synced; eauto.
Qed.

Lemma relation_listed self r :
  relations_synced self ->
  (In r (relations self) <->
   Dict.get (_relations_idx self) (source_id r, derived_id r) = Some (classifier r)).
Proof.
  intros Hsync. specialize (Hsync (source_id r, derived_id r)).
  unfold relations_for in Hsync. split.
  - intros Hin.
    assert (Hf : In r (filter (fun r0 => keqb (source_id r0, derived_id r0)
                                           (source_id r, derived_id r))
                         (relations self))).
    { apply filter_In. split; [assumption|apply keqb_refl]. }
    rewrite Hsync in Hf.
    destruct (Dict.get (_relations_idx self) (source_id r, derived_id r)) as [c|];
      [|contradiction].
    destruct Hf as [<-|[]]. reflexivity.
  - intros Hget. rewrite Hget in Hsync.
    assert (Hf : In r (filter (fun r0 => keqb (source_id r0, derived_id r0)
                                           (source_id r, derived_id r))
                         (relations self))).
    { rewrite Hsync. left. now destruct r. }
    now apply filter_In in Hf.
Qed.

Lemma step_by_source self a b :
  consistent self ->
  (step (by_source self) a b <->
   exists c, In {| classifier := c; source_id := a; derived_id := b |} (relations self)).
Proof.
  intros ((Hsrc & _ & _) & Hsync). split.
  - intros Hs. apply step_item in Hs as (c & Hin). exists c.
    apply relation_listed; [assumption|]. simpl. now apply Hsrc.
  - intros (c & Hin). apply relation_listed in Hin; [|assumption]. simpl in Hin.
    apply Hsrc in Hin. now apply (item_step (by_source self) a (b, c)).
Qed.

Lemma step_by_derived self a b :
  well_indexed self -> (step (by_derived self) a b <-> step (by_source self) b a).
Proof.
  intros (Hsrc & Hder & _). split; intros Hs; apply step_item in Hs as (c & Hin).
  - apply Hder, Hsrc in Hin. now apply (item_step (by_source self) b (a, c)).
  - apply Hsrc, Hder in Hin. now apply (item_step (by_derived self) a (b, c)).
Qed.

Lemma derives_returns self a b :
  consistent self ->
  (derives (relations self) a b <->
   exists m, step (by_source self) a m /\ reach (by_source self) m b).
Proof.
  intros Hcons. split.
  - induction 1 as [r Hin|a b c _ (m & Hs & Hr) _ (m' & Hs' & Hr')].
    + exists (derived_id r). split; [|constructor].
      apply step_by_source; [assumption|]. exists (classifier r). now destruct r.
    + exists m. split; [assumption|].
      eapply reach_trans; [exact Hr|]. apply reach_hop with (b := m'); assumption.
  - intros (m & Hs & Hr). revert a Hs.
    induction Hr as [m|m x b Hmx _ IH]; intros a Hs.
    + apply step_by_source in Hs as (c & Hin); [|assumption].
      apply (derives_hop (relations self) _ Hin).
    + apply derives_trans with (b := m); [|now apply IH].
      apply step_by_source in Hs as (c & Hin); [|assumption].
      apply (derives_hop (relations self) _ Hin).
Qed.

Lemma reach_reverse G G' a b :
  (forall x y, step G x y -> step G' y x) -> reach G a b -> reach G' b a.
Proof.
  intros Hrev. induction 1 as [a|a m b Hs _ IH]; [constructor|].
  eapply reach_trans; [exact IH|]. apply reach_step. auto.
Qed.

Lemma returns_reverse G G' y :
  (forall x y, step G x y -> step G' y x) -> returns G y -> returns G' y.
Proof.
  intros Hrev (m & Hs & Hr). apply reach_reverse with (G' := G') in Hr; [|exact Hrev].
  apply Hrev in Hs.
  apply reach_inv in Hr as [<-|(b & Hb & Hbm)].
  - exists y. split; [assumption|constructor].
  - exists b. split; [assumption|].
    eapply reach_trans; [exact Hbm|]. now apply reach_step.
Qed.

(** On a consistent collection, the cycle-free indices are exactly the
    acyclic edge sets. *)
Lemma sound_acyclic self : consistent self -> (sound self <-> acyclic self).
Proof.
  intros Hcons. split.
  - intros Hsound a Hcycle. apply derives_returns in Hcycle; [|assumption].
    apply (Hsound SOURCES a a); [constructor|exact Hcycle].
  - intros Hacyclic d x y _ Hret.
    assert (Hsrc : returns (by_source self) y).
    { destruct d; [exact Hret|].
      apply returns_reverse with (G := by_derived self); [|exact Hret].
      intros a b. now apply step_by_derived, Hcons. }
    apply (Hacyclic y). now apply derives_returns.
Qed.

(** A successful [merge_tree] keeps a consistent, acyclic collection
    consistent and acyclic. *)
Lemma merge_tree_acyclic self tree parent_node max_depth self' :
  consistent self -> acyclic self ->
  merge_tree self tree parent_node max_depth = Ok self' ->
  consistent self' /\ acyclic self'.
Proof.
  intros Hcons Hacyclic Hok.
  assert (Hcons' : consistent self').
  { apply merge_tree_script in Hok. eapply run_steps_consistent; eauto. }
  split; [assumption|]. apply sound_acyclic; [assumption|].
  eapply merge_tree_sound in Hok; [apply Hok|apply Hcons|now apply sound_acyclic].
Qed.

(** So does a successful merge of one relation between two different
    ids. *)
Lemma merge_relation_acyclic self rel self' :
  consistent self -> acyclic self ->
  source_id rel <> derived_id rel ->
  merge_new_lineage_relation self rel = Ok self' ->
  consistent self' /\ acyclic self'.
Proof.
  intros Hcons Hacyclic Hne Hok.
  assert (Hrun : run_steps [MergeRelation (source_id rel, derived_id rel) (classifier rel)]
                   self = Ok self').
  { unfold run_steps. simpl. unfold _merge_new_relation. simpl.
    replace {| classifier := classifier rel; source_id := source_id rel;
               derived_id := derived_id rel |} with rel by now destruct rel.
    now rewrite Hok. }
  assert (Hcons' : consistent self') by (eapply run_steps_consistent; eauto).
  split; [assumption|]. apply sound_acyclic; [assumption|].
  eapply run_steps_sound; [apply Hcons| |exact Hrun|now apply sound_acyclic].
  constructor; [exact Hne|constructor].
Qed.

(** The empty collection has no cycle. *)
Lemma empty_relations_acyclic : acyclic empty_relations.
Proof.
  apply sound_acyclic; [apply empty_relations_consistent|apply empty_relations_sound].
Qed.

(** So does a successful [merge] of a collection that relates no id to
    itself. *)
Lemma merge_pool_acyclic self pool self' :
  consistent self -> acyclic self ->
  (forall a c, ~ In ((a, a), c) (_relations_idx pool)) ->
  merge self pool = Ok self' ->
  consistent self' /\ acyclic self'.
Proof.
  intros Hcons Hacyclic Hfree Hok. rewrite merge_as_script in Hok.
  assert (Hcons' : consistent self') by (eapply run_steps_consistent; eauto).
  split; [assumption|]. apply sound_acyclic; [assumption|].
  eapply run_steps_sound; [apply Hcons| |exact Hok|now apply sound_acyclic].
  unfold pool_script. rewrite !Forall_app. repeat split;
    apply Forall_forall; intros st Hin; apply in_map_iff in Hin as (item & <- & Hin);
    try exact I.
  destruct item as [[a b] c]. simpl. intros <-. now apply (Hfree a c).
Qed.

(** A relation from an id to itself passes when the id is new: the cycle
    check is skipped. *)
Lemma self_loop_fresh self a c :
  IdSet.mem a (dataset_ids self) = false ->
  Dict.get (_relations_idx self) (a, a) = None ->
  exists self',
    merge_new_lineage_relation self
      {| classifier := c; source_id := a; derived_id := a |} = Ok self' /\
    ~ acyclic self'.
Proof.
  intros Hnew Hfresh. unfold merge_new_lineage_relation.
  cbn [source_id derived_id classifier]. rewrite Hfresh. cbv zeta.
  unfold index_relation at 1 2. cbn [dataset_ids]. rewrite Hnew. simpl.
  eexists. split; [reflexivity|]. intros Hacyclic. apply (Hacyclic a).
  apply (derives_hop _ {| classifier := c; source_id := a; derived_id := a |}).
  cbn [relations set_dataset_ids index_relation]. apply in_app_iff. right. now left.
Qed.

(** It is caught when the id is known. *)
Lemma self_loop_known self a c :
  IdSet.mem a (dataset_ids self) = true ->
  Dict.get (_relations_idx self) (a, a) = None ->
  exists x,
    merge_new_lineage_relation self
      {| classifier := c; source_id := a; derived_id := a |} =
    Raise (InconsistentLineageException (GraphNotAcyclic x)).
Proof.
  intros Hknown Hfresh. unfold merge_new_lineage_relation.
  cbn [source_id derived_id classifier]. rewrite Hfresh. cbv zeta.
  set (rel := {| classifier := c; source_id := a; derived_id := a |}).
  cbn [dataset_ids index_relation]. rewrite Hknown. cbn [orb].
  destruct (extract_tree_outcomes (index_relation self rel) a SOURCES)
    as [(t & Hok)|(x & Hraise)].
  - exfalso. assert (Hgood : good (adjacency (index_relation self rel) SOURCES) a)
      by (apply extract_tree_good; eauto).
    apply (Hgood a); [constructor|]. exists a. split; [|constructor].
    cbn [adjacency index_relation by_source rel source_id derived_id classifier].
    apply step_index_edge. now right.
  - exists x. fold rel. unfold index_relation in Hraise |- *. 
    cbn [rel source_id derived_id classifier] in Hraise |- *.
    rewrite Hraise. reflexivity.
Qed.

(** ** More on loops *)

Lemma flat_map_nest {A B C} (f : A -> list B) (g : B -> list C) l :
  flat_map g (flat_map f l) = flat_map (fun x => flat_map g (f x)) l.
Proof.
  induction l as [|x l IH]; simpl; [reflexivity|]. now rewrite flat_map_app, IH.
Qed.

Lemma for_each_flat_map {A B S} (body : S -> B -> outcome S) (f : A -> list B) l s :
  for_each body (flat_map f l) s = for_each (fun s x => for_each body (f x) s) l s.
Proof.
  revert s. induction l as [|x l IH]; intros s; [reflexivity|].
  simpl flat_map. rewrite for_each_app, for_each_cons.
  destruct (for_each body (f x) s); simpl; auto.
Qed.

(** Two loops agree when their bodies agree on every state an invariant
    of the second admits. *)
Lemma for_each_ext_inv {A S} (P : S -> Prop) (f g : S -> A -> outcome S) l s :
  (forall s x, P s -> In x l -> f s x = g s x) ->
  (forall s x s', P s -> In x l -> g s x = Ok s' -> P s') ->
  P s -> for_each f l s = for_each g l s.
Proof.
  revert s. induction l as [|x l IH]; intros s Heq Hinv Hs; [reflexivity|].
  rewrite !for_each_cons, Heq by (auto; now left).
  destruct (g s x) as [s1| |] eqn:E; simpl; auto.
  apply IH.
  - intros; apply Heq; auto; now right.
  - intros s0 x0 s0' H0 Hin. apply Hinv; auto; now right.
  - eapply Hinv; eauto; now left.
Qed.

Lemma for_each_inv {A S} (P : S -> Prop) (body : S -> A -> outcome S) l s s' :
  (forall s x s', P s -> In x l -> body s x = Ok s' -> P s') ->
  P s -> for_each body l s = Ok s' -> P s'.
Proof.
  revert s. induction l as [|x l IH]; intros s Hinv Hs.
  - now intros [= <-].
  - rewrite for_each_cons. intros Hok. unbind Hok as s1 Hx.
    apply IH with (s := s1); auto.
    + intros s0 x0 s0' H0 Hin. apply Hinv; auto; now right.
    + eapply Hinv; eauto; now left.
Qed.

Lemma for_each_progress {A S} (P : S -> Prop) (body : S -> A -> outcome S) l s :
  (forall s x, P s -> In x l -> exists s', body s x = Ok s' /\ P s') ->
  P s -> exists s', for_each body l s = Ok s' /\ P s'.
Proof.
  revert s. induction l as [|x l IH]; intros s Hbody Hs; [now exists s|].
  destruct (Hbody s x Hs) as (s1 & Hx & H1); [now left|].
  rewrite for_each_cons, Hx. simpl. apply IH; auto.
  intros; apply Hbody; auto; now right.
Qed.

(** ** The duplicate-subtree guard *)

Lemma guard_keys_cons st l : guard_keys (st :: l) = guard_key st ++ guard_keys l.
Proof. reflexivity. Qed.

Lemma guard_keys_app l1 l2 : guard_keys (l1 ++ l2) = guard_keys l1 ++ guard_keys l2.
Proof. apply flat_map_app. Qed.

Lemma flat_map_Forall {A B} (f g : A -> list B) l :
  Forall (fun x => f x = g x) l -> flat_map f l = flat_map g l.
Proof. induction 1 as [|x l Hx _ IH]; simpl; [reflexivity|]. now rewrite Hx, IH. Qed.

Lemma guard_keys_script t : guard_keys (merge_script None t) = guarded_links t.
Proof.
  induction t as [d i h|d i items h IH] using LineageTree_nested_ind;
    [reflexivity|].
  rewrite merge_script_step by discriminate.
  rewrite guard_keys_cons. simpl guard_key. simpl app.
  cbn [children guarded_links]. unfold guard_keys at 1. rewrite flat_map_nest.
  generalize (mkLineageTree d i (Some items) h). intros t.
  apply flat_map_Forall. eapply Forall_impl; [|exact IH].
  intros item Hitem. cbv beta. rewrite flat_map_nest.
  apply flat_map_Forall. eapply Forall_impl; [|exact Hitem].
  intros child Hchild. cbv beta.
  change (budget_pred None) with (@None nat).
  change (flat_map guard_key
            (MergeRelation (edge_ids t child) (fst item)
             :: MergeNode (edge_ids t child) child :: merge_script None child))
    with ((if got_grandchildren child then [edge_ids t child] else []) ++
          guard_keys (merge_script None child)).
  now rewrite Hchild.
Qed.

Lemma run_step_guard s st s' :
  run_step s st = Ok s' ->
  (forall k, In k (guard_key st) -> Dict.mem (_trees_idx s) k = false) /\
  (forall k, Dict.mem (_trees_idx s') k = true <->
             Dict.mem (_trees_idx s) k = true \/ In k (guard_key st)).
Proof.
  destruct st as [id_ h|ids c|ids node]; simpl; intros Hok.
  - apply merge_new_home_ok in Hok as [(stored & _ & _ & ->)|(_ & ->)];
      simpl; split; try tauto.
  - apply merge_new_lineage_relation_ok in Hok as [(_ & ->)|(_ & ->)];
      simpl; split; try tauto.
  - apply _merge_new_node_ok in Hok as [(Hno & ->)|(Hgot & Hfresh & ->)].
    + rewrite Hno. simpl. split; tauto.
    + rewrite Hgot. simpl. split.
      * intros k [<-|[]]. assumption.
      * intros k. unfold set_trees_idx. cbn [_trees_idx].
        rewrite DictFacts.mem_set, orb_true_iff, keqb_eq. split.
        -- intros [->|?]; [right; now left|now left].
        -- intros [?|[<-|[]]]; [now right|now left].
Qed.

(** A successful run registers no guard key twice, and none that was
    registered before. *)
Lemma run_steps_guard l : forall s s',
  run_steps l s = Ok s' ->
  NoDup (guard_keys l) /\
  (forall k, In k (guard_keys l) -> Dict.mem (_trees_idx s) k = false).
Proof.
  induction l as [|st l IH]; intros s s' Hok.
  - split; [constructor|intros k []].
  - rewrite run_steps_cons in Hok. unbind Hok as s1 Hst.
    destruct (run_step_guard _ _ Hst) as (Hfresh & Hkeys).
    destruct (IH _ _ Hok) as (Hnd & Hrest).
    rewrite guard_keys_cons. split.
    + assert (Hown : NoDup (guard_key st)).
      { destruct st as [| |ids node]; simpl; try constructor.
        destruct (got_grandchildren node); repeat constructor. intros []. }
      apply NoDup_app; [assumption|assumption|].
      intros k Hk Hin. apply Hrest in Hin.
      assert (Dict.mem (_trees_idx s1) k = true) by (apply Hkeys; now right).
      congruence.
    + intros k. rewrite in_app_iff. intros [Hin|Hin]; [auto|].
      apply Hrest in Hin. destruct (Dict.mem (_trees_idx s) k) eqn:E; [|reflexivity].
      assert (Dict.mem (_trees_idx s1) k = true) by (apply Hkeys; now left). congruence.
Qed.

(** ** Merging what was extracted from a collection *)

Lemma reach_mono G G' a b :
  (forall x y, step G x y -> step G' x y) -> reach G a b -> reach G' a b.
Proof.
  intros Hsub. induction 1 as [|a m b Hs _ IH]; [constructor|].
  apply reach_hop with (b := m); auto.
Qed.

Lemma step_indexed s d x y :
  well_indexed s -> step (adjacency s d) x y ->
  exists c, Dict.get (_relations_idx s) (orient d x y) = Some c.
Proof.
  intros (Hsrc & Hder & _) Hs. apply step_item in Hs as (c & Hin). exists c.
  destruct d; simpl in *; [now apply Hsrc|now apply Hder].
Qed.

Lemma orient_inj d a b a' b' : orient d a b = orient d a' b' -> a = a' /\ b = b'.
Proof. destruct d; simpl; intros [= -> ->]; auto. Qed.

Lemma orient_opposite d a b : orient (opposite d) a b = orient d b a.
Proof. now destruct d. Qed.

Lemma NoDup_app_disjoint {A} (l1 l2 : list A) k :
  NoDup (l1 ++ l2) -> In k l1 -> In k l2 -> False.
Proof.
  induction l1 as [|x l1 IH]; simpl; [tauto|].
  intros Hnd [->|Hin] Hin2; inversion Hnd as [|? ? Hnotin Hnd']; subst.
  - apply Hnotin. apply in_app_iff. now right.
  - auto.
Qed.

Section WithinReach.
Variables (R : LineageRelations) (root : UUID) (d : LineageDirection).
Hypothesis R_indexed : well_indexed R.
Hypothesis root_good : good (adjacency R d) root.

Let adj := adjacency R d.

Lemma no_return_forward G :
  (forall x y, step G x y -> step adj x y /\ reach adj root x) ->
  forall y, ~ returns G y.
Proof.
  intros Hsub y (m & Hs & Hr). destruct (Hsub _ _ Hs) as (Hs' & Hreach).
  apply (root_good Hreach). exists m. split; [exact Hs'|].
  eapply reach_mono; [|exact Hr]. intros x0 y0 H0. now apply Hsub.
Qed.

Lemma no_return_backward G :
  (forall x y, step G x y -> step adj y x /\ reach adj root y) ->
  forall y, ~ returns G y.
Proof.
  intros Hsub y Hret.
  assert (Hret' : returns adj y).
  { eapply returns_reverse; [|exact Hret]. intros x0 y0 H0. now apply Hsub. }
  destruct Hret as (m & Hs & _). destruct (Hsub _ _ Hs) as (Hs' & Hreach).
  apply (@root_good y); [|assumption].
  apply reach_trans with (b := m); [assumption|now apply reach_step].
Qed.

Lemma reached_link_step ids c :
  reached_link R root d ids c ->
  exists a b, ids = orient d a b /\ step adj a b /\ reach adj root a.
Proof.
  intros (a & b & Hreach & Hin & ->). exists a, b. repeat split; auto.
  apply (item_step adj a (b, c)). exact Hin.
Qed.

Lemma reached_link_fun ids c c' :
  reached_link R root d ids c -> reached_link R root d ids c' -> c = c'.
Proof.
  intros (a & b & _ & Hin & ->) (a' & b' & _ & Hin' & Heq).
  apply orient_inj in Heq as (<- & <-).
  destruct R_indexed as (Hsrc & Hder & _). fold adj in Hin, Hin'.
  unfold adj in *. destruct d; simpl in *.
  - apply Hsrc in Hin, Hin'. congruence.
  - apply Hder in Hin, Hin'. congruence.
Qed.

(** Such a collection has no cycle in either adjacency index. *)
Lemma within_sound s : within R root d s -> sound s.
Proof.
  intros (Hwf & _ & Hidx) d' x y _. revert y.
  destruct (direction_eqb d' d) eqn:Hd.
  - apply direction_eqb_eq in Hd. subst d'. apply no_return_forward.
    intros a b Hs. apply step_indexed in Hs as (c & Hget); [|assumption].
    apply Hidx, reached_link_step in Hget as (a' & b' & Heq & Hs' & Hr).
    apply orient_inj in Heq as (-> & ->). auto.
  - assert (Hopp : d' = opposite d) by (destruct d, d'; simpl in *; congruence).
    subst d'. apply no_return_backward.
    intros a b Hs. apply step_indexed in Hs as (c & Hget); [|assumption].
    rewrite orient_opposite in Hget.
    apply Hidx, reached_link_step in Hget as (a' & b' & Heq & Hs' & Hr).
    apply orient_inj in Heq as (-> & ->). auto.
Qed.

Lemma within_step s st s' :
  within R root d s -> drawn R root d st -> run_step s st = Ok s' ->
  within R root d s'.
Proof.
  intros (Hwf & Hhomes & Hidx) Hdrawn Hok. split; [|split].
  - eapply run_step_well_indexed; eauto.
  - intros id_ h Hget. apply (run_step_homes _ _ Hok) in Hget as [Hget|(_ & ->)]; auto.
  - intros ids c Hget. apply (run_step_relations _ _ Hok) in Hget as [Hget| ->]; auto.
Qed.

Lemma drawn_progress s st :
  within R root d s -> drawn R root d st ->
  (forall k, In k (guard_key st) -> Dict.mem (_trees_idx s) k = false) ->
  exists s', run_step s st = Ok s'.
Proof.
  intros Hin Hdrawn Hguard. pose proof Hin as (Hwf & Hhomes & Hidx).
  destruct st as [id_ h|ids c|ids node]; simpl in *.
  - unfold merge_new_home. destruct (Dict.get (_homes s) id_) as [stored|] eqn:E; [|eauto].
    apply Hhomes in E. subst. rewrite keqb_refl. simpl. rewrite andb_false_r. eauto.
  - unfold _merge_new_relation, merge_new_lineage_relation.
    cbn [source_id derived_id classifier].
    replace (fst ids, snd ids) with ids by now destruct ids.
    destruct (Dict.get (_relations_idx s) ids) as [known|] eqn:E.
    + apply Hidx in E. rewrite (reached_link_fun E Hdrawn), String.eqb_refl. simpl. eauto.
    + cbv zeta.
      set (rel := {| classifier := c; source_id := fst ids; derived_id := snd ids |}).
      set (s1 := set_dataset_ids (index_relation s rel)
                   (IdSet.update (dataset_ids s) (IdSet.add (snd ids) [fst ids]))).
      assert (Hin1 : within R root d s1).
      { split; [|split].
        - apply index_relation_well_indexed; auto.
          + cbn [source_id derived_id rel]. now replace (fst ids, snd ids) with ids by now destruct ids.
          + intros x. apply (new_ids_mem s rel x).
        - exact Hhomes.
        - intros ids' c'. unfold s1, set_dataset_ids, index_relation.
          cbn [_relations_idx rel source_id derived_id classifier].
          replace (fst ids, snd ids) with ids by now destruct ids.
          rewrite DictFacts.get_set. destruct (keqb_spec ids' ids) as [->|_]; auto.
          now intros [= <-]. }
      apply within_sound in Hin1.
      assert (Hext : forall x d', exists t, extract_tree (index_relation s rel) x d' = Ok t).
      { intros x d'. apply extract_tree_good.
        change (adjacency (index_relation s rel) d') with (adjacency s1 d'). apply Hin1. }
      destruct (Hext (snd ids) SOURCES) as (t1 & ->).
      destruct (Hext (fst ids) DERIVED) as (t2 & ->).
      destruct (_ || _); simpl; eauto.
  - unfold _merge_new_node. destruct (got_grandchildren node); [|eauto].
    rewrite Hguard by now left. eauto.
Qed.

(** A run of such merges succeeds unless it registers a guard key
    twice. *)
Lemma run_drawn l : forall s,
  within R root d s -> Forall (drawn R root d) l ->
  NoDup (guard_keys l) ->
  (forall k, In k (guard_keys l) -> Dict.mem (_trees_idx s) k = false) ->
  exists s', run_steps l s = Ok s' /\ within R root d s'.
Proof.
  induction l as [|st l IH]; intros s Hin Hall Hnd Hfresh; [now exists s|].
  inversion Hall as [|? ? Hst Hrest]; subst. rewrite guard_keys_cons in *.
  destruct (@drawn_progress s st Hin Hst) as (s1 & Hok).
  { intros k Hk. apply Hfresh, in_app_iff. now left. }
  rewrite run_steps_cons, Hok. simpl. apply IH.
  - eapply within_step; eauto.
  - assumption.
  - eapply NoDup_app_remove_l; eauto.
  - intros k Hk. destruct (Dict.mem (_trees_idx s1) k) eqn:E; [|reflexivity].
    apply (run_step_guard _ _ Hok) in E as [E|E].
    + rewrite Hfresh in E by (apply in_app_iff; now right). discriminate.
    + exfalso. eapply NoDup_app_disjoint; eauto.
Qed.
End WithinReach.

(** ** merge_tree as the run of its script *)

Lemma all_nodes_unfold t : all_nodes t = t :: flat_map all_nodes (subtrees t).
Proof.
  destruct t as [d i [items|] h]; [|reflexivity].
  unfold subtrees. cbn [children]. rewrite flat_map_nest. reflexivity.
Qed.

Lemma all_nodes_self t : In t (all_nodes t).
Proof. rewrite all_nodes_unfold. now left. Qed.

Lemma all_nodes_child t child n :
  In child (subtrees t) -> In n (all_nodes child) -> In n (all_nodes t).
Proof.
  intros Hc Hn. rewrite all_nodes_unfold. right. apply in_flat_map. eauto.
Qed.

Lemma direction_eqb_refl d : direction_eqb d d = true.
Proof. now destruct d. Qed.

(** When the checks of [merge_tree] pass, it is the run of its script:
    the checks of the tree itself, once and for all, and the cycle check
    at each leaf, in every state an invariant of the script admits. *)
Lemma merge_tree_runs_script (P : LineageRelations -> Prop) :
  (forall s x d, P s -> exists t, extract_tree s x d = Ok t) ->
  forall tree,
    (forall s st s', P s -> In st (merge_script None tree) ->
                     run_step s st = Ok s' -> P s') ->
    Forall well_formed_node (all_nodes tree) ->
    forall s parent_node, P s ->
      merge_tree s tree parent_node 0 = run_steps (merge_script None tree) s.
Proof.
  intros Hext tree. induction tree as [tree IH] using LineageTree_subtree_ind.
  intros Hstep Hwf s parent_node Hs. rewrite Forall_forall in Hwf.
  rewrite merge_tree_unfold, merge_script_step by discriminate.
  destruct (Hwf tree (all_nodes_self tree)) as ((ids & Hids) & Hdir).
  rewrite Hids. simpl bind. rewrite run_steps_cons. simpl run_step.
  destruct (merge_new_home s (dataset_id tree) (home tree)) as [s0| |] eqn:Hhome;
    simpl bind; try reflexivity.
  assert (H0 : P s0).
  { apply (Hstep s (MergeHome (dataset_id tree) (home tree)));
      [exact Hs| |exact Hhome]. apply merge_script_In; [discriminate|now left]. }
  assert (Hplan : recursion_plan parent_node 0 = (true, 0%Z))
    by (destruct parent_node; reflexivity).
  rewrite Hplan.
  assert (Hcheck : (if negb (got_grandchildren tree)
                    then extract_tree s0 (dataset_id tree) (opposite (direction tree)) ;;;
                         Ok tt
                    else Ok tt) = Ok tt).
  { destruct (negb (got_grandchildren tree)); [|reflexivity].
    destruct (Hext s0 (dataset_id tree) (opposite (direction tree)) H0) as (t & ->).
    reflexivity. }
  rewrite Hcheck. simpl bind.
  destruct (children tree) as [items|] eqn:Hch; [|reflexivity].
  change (budget_pred None) with (@None nat).
  assert (Hchild : forall c l child s2 s2',
            In (c, l) items -> In child l -> P s2 ->
            run_steps (MergeRelation (edge_ids tree child) c ::
                       MergeNode (edge_ids tree child) child ::
                       merge_script None child) s2 = Ok s2' -> P s2').
  { intros c l child s2 s2' Hitem Hc H2. apply for_each_inv; [|exact H2].
    intros s3 st s3' H3 Hin. apply Hstep; [exact H3|].
    apply merge_script_In; [discriminate|]. right. exists items, c, l, child.
    repeat split; auto. destruct Hin as [<-|[<-|Hin]]; auto. }
  unfold run_steps. rewrite for_each_flat_map.
  apply for_each_ext_inv with (P := P); [| |exact H0].
  - intros s1 [c l] H1 Hitem. cbn [fst snd]. rewrite for_each_flat_map.
    apply for_each_ext_inv with (P := P); [| |exact H1].
    + intros s2 child H2 Hc.
      assert (Hsub : In child (subtrees tree)) by (apply subtrees_In; exists items, c, l; auto).
      rewrite (Hdir child Hsub), direction_eqb_refl. simpl negb. cbv iota zeta.
      rewrite !for_each_cons. simpl run_step.
      destruct (_merge_new_relation s2 (edge_ids tree child) c) as [s3| |] eqn:Hrel;
        simpl bind; try reflexivity.
      assert (H3 : P s3).
      { apply (Hstep s2 (MergeRelation (edge_ids tree child) c));
          [exact H2| |exact Hrel]. apply merge_script_In; [discriminate|].
        right. exists items, c, l, child. auto. }
      destruct (_merge_new_node s3 (edge_ids tree child) child) as [s4| |] eqn:Hnode;
        simpl bind; try reflexivity.
      assert (H4 : P s4).
      { apply (Hstep s3 (MergeNode (edge_ids tree child) child));
          [exact H3| |exact Hnode]. apply merge_script_In; [discriminate|].
        right. exists items, c, l, child. auto 7. }
      apply IH; auto.
      * intros s5 st s5' H5 Hin. apply Hstep; [exact H5|].
        apply merge_script_In; [discriminate|]. right. exists items, c, l, child. auto 7.
      * apply Forall_forall. intros n Hn. apply Hwf. eapply all_nodes_child; eauto.
    + intros s2 child s2' H2 Hc. now apply Hchild with (c := c) (l := l).
  - intros s1 [c l] s1' H1 Hitem. cbn [fst snd]. rewrite for_each_flat_map.
    apply for_each_inv; [|exact H1].
    intros s2 child s2' H2 Hc. now apply Hchild with (c := c) (l := l).
Qed.

(** ** The extracted tree passes the checks of merge_tree *)

Lemma child_datasets_unfold t :
  child_datasets t =
  match children t with
  | None => Ok []
  | Some items =>
      for_each (fun child_dsids item =>
        for_each (fun child_dsids child =>
          subchildren <- child_datasets child ;;
          let subchildren := IdSet.add (dataset_id child) subchildren in
          if IdSet.mem (dataset_id t) subchildren
          then Raise (InconsistentLineageException TreeNotAcyclic)
          else Ok (IdSet.update child_dsids subchildren))
          (snd item) child_dsids)
        items []
  end.
Proof. destruct t as [d i [items|] h]; reflexivity. Qed.

Lemma tree_nodes_self t : In (dataset_id t) (map fst (tree_nodes t)).
Proof.
  apply in_map_iff. exists (dataset_id t, home t). split; [reflexivity|].
  apply tree_nodes_In. now left.
Qed.

Lemma below_nodes t x : below t x -> In x (map fst (tree_nodes t)).
Proof.
  intros (child & Hc & Hx). apply in_map_iff in Hx as (n & <- & Hn).
  apply in_map. apply tree_nodes_In. right.
  apply subtrees_In in Hc as (items & c & l & Hch & Hitem & Hl).
  exists items, c, l, child. auto.
Qed.

Lemma below_child t child x :
  In child (subtrees t) -> In x (map fst (tree_nodes child)) -> below t x.
Proof. intros Hc Hx. exists child. auto. Qed.

(** [child_datasets] returns ids of nodes below the root only. *)
Lemma child_datasets_below t :
  forall l, child_datasets t = Ok l -> forall x, In x l -> below t x.
Proof.
  induction t as [t IH] using LineageTree_subtree_ind. intros l.
  rewrite child_datasets_unfold. destruct (children t) as [items|] eqn:Hch.
  - intros Hok.
    eapply (@for_each_inv _ _ (fun acc => forall x, In x acc -> below t x));
      [| |exact Hok]; [|intros x []].
    intros acc [c cl] acc' Hacc Hitem Hinner. cbn [snd] in Hinner.
    eapply (@for_each_inv _ _ (fun acc => forall x, In x acc -> below t x));
      [| |exact Hinner]; [|exact Hacc].
    intros acc1 child acc2 Hacc1 Hc Hbody.
    assert (Hsub : In child (subtrees t)) by (apply subtrees_In; exists items, c, cl; auto).
    unbind Hbody as sub Hchild. cbv zeta in Hbody.
    destruct (IdSet.mem (dataset_id t) (IdSet.add (dataset_id child) sub)); [discriminate|].
    injection Hbody as <-. intros x Hx.
    apply IdSetFacts.mem_In in Hx. rewrite IdSetFacts.mem_update, IdSetFacts.mem_add in Hx.
    rewrite !orb_true_iff, keqb_eq, !IdSetFacts.mem_In in Hx.
    destruct Hx as [Hx|[->|Hx]]; [auto| |].
    + apply below_child with (child := child); [assumption|apply tree_nodes_self].
    + apply below_child with (child := child); [assumption|].
      apply below_nodes. eapply IH; eauto.
  - intros [= <-] x [].
Qed.

(** [child_datasets] succeeds when it does for every child and the root's
    id does not show up below the root. *)
Lemma child_datasets_progress t :
  (forall child, In child (subtrees t) -> exists l, child_datasets child = Ok l) ->
  ~ below t (dataset_id t) ->
  exists l, child_datasets t = Ok l.
Proof.
  intros Hchildren Hroot. rewrite child_datasets_unfold.
  destruct (children t) as [items|] eqn:Hch; [|eauto].
  destruct (@for_each_progress _ _ (fun _ : list UUID => True)
              (fun child_dsids item =>
                 for_each (fun child_dsids child =>
                   subchildren <- child_datasets child ;;
                   let subchildren := IdSet.add (dataset_id child) subchildren in
                   if IdSet.mem (dataset_id t) subchildren
                   then Raise (InconsistentLineageException TreeNotAcyclic)
                   else Ok (IdSet.update child_dsids subchildren))
                   (snd item) child_dsids) items []) as (l & Hl & _); [|exact I|eauto].
  intros acc [c cl] _ Hitem. cbn [snd].
  apply for_each_progress; [|exact I].
  intros acc1 child _ Hc.
  assert (Hsub : In child (subtrees t)) by (apply subtrees_In; exists items, c, cl; auto).
  destruct (Hchildren child Hsub) as (sub & Hchild). rewrite Hchild. simpl bind.
  destruct (IdSet.mem (dataset_id t) (IdSet.add (dataset_id child) sub)) eqn:E; [|eauto].
  exfalso. apply Hroot. rewrite IdSetFacts.mem_add, orb_true_iff, keqb_eq, IdSetFacts.mem_In in E.
  apply below_child with (child := child); [assumption|].
  destruct E as [->|E]; [apply tree_nodes_self|].
  apply below_nodes. eapply child_datasets_below; eauto.
Qed.

(** Every node of an extracted tree passes the checks of [merge_tree],
    and none of its ids was on the path to its root. *)
Lemma extract_well_formed self d fuel :
  forall root so_far t,
    extract_tree_fuel fuel self root d so_far = Ok t ->
    (forall x, In x (map fst (tree_nodes t)) -> IdSet.mem x so_far = false) /\
    Forall well_formed_node (all_nodes t).
Proof.
  induction fuel as [|fuel IH]; intros root so_far t Hok; [discriminate|].
  pose proof (extract_content _ _ _ _ _ Hok) as (Hid & Hdir & _).
  apply extract_ok_inv in Hok as (Hfresh & ch & -> & _ & _ & Hchildren).
  set (t := {| direction := d; dataset_id := root; children := Some ch;
               home := home_of self root |}) in *.
  assert (Hsub : forall child, In child (subtrees t) ->
            exists b, extract_tree_fuel fuel self b d (IdSet.add root so_far) = Ok child).
  { intros child Hc. apply subtrees_In in Hc as (items & c & l & [= <-] & Hitem & Hl).
    destruct (proj1 (Hchildren c child)) as (b & _ & Hb); eauto. }
  assert (Hnodes : forall child x, In child (subtrees t) ->
            In x (map fst (tree_nodes child)) ->
            x <> root /\ IdSet.mem x so_far = false).
  { intros child x Hc Hx. destruct (Hsub child Hc) as (b & Hb).
    apply IH in Hb as (Hb & _). apply Hb in Hx.
    rewrite IdSetFacts.mem_add, orb_false_iff, keqb_neq in Hx. exact Hx. }
  split.
  - intros x Hx. apply in_map_iff in Hx as (n & <- & Hn).
    apply tree_nodes_In in Hn as [->|(items & c & l & child & Hch & Hitem & Hl & Hn)];
      [exact Hfresh|].
    apply (Hnodes child); [apply subtrees_In; exists items, c, l; auto|now apply in_map].
  - rewrite all_nodes_unfold. constructor.
    + split.
      * apply child_datasets_progress.
        -- intros child Hc. destruct (Hsub child Hc) as (b & Hb).
           apply IH in Hb as (_ & Hb). rewrite Forall_forall in Hb.
           apply (Hb child (all_nodes_self child)).
        -- intros (child & Hc & Hx). destruct (Hnodes child _ Hc Hx) as (Hne & _).
           now apply Hne.
      * intros child Hc. destruct (Hsub child Hc) as (b & Hb).
        now apply extract_content in Hb as (_ & -> & _).
    + apply Forall_forall. intros n Hn. apply in_flat_map in Hn as (child & Hc & Hn).
      destruct (Hsub child Hc) as (b & Hb). apply IH in Hb as (_ & Hb).
      rewrite Forall_forall in Hb. auto.
Qed.

Lemma extract_drawn R root d t :
  extract_tree R root d = Ok t -> Forall (drawn R root d) (merge_script None t).
Proof.
  intros Hok. unfold extract_tree in Hok.
  apply extract_content in Hok as (_ & _ & Hedges & Hnodes).
  apply Forall_forall. intros [id_ h|ids c|ids node] Hin; simpl; [| |exact I].
  - apply script_homes_all, Hnodes in Hin as (a & _ & [= -> ->]). reflexivity.
  - apply script_relations_all, Hedges in Hin as (a & b & c' & Hreach & Hin & [= -> ->]).
    exists a, b. auto.
Qed.

Lemma empty_relations_within R root d : within R root d empty_relations.
Proof.
  split; [apply empty_relations_well_indexed|]. split; simpl; discriminate.
Qed.

(** Merging an extracted tree into the empty collection succeeds exactly
    when the tree lists no link to a child with children twice. *)
Lemma merge_extracted R root d t :
  well_indexed R ->
  extract_tree R root d = Ok t ->
  ((exists R', merge_tree empty_relations t None 0 = Ok R') <->
   NoDup (guarded_links t)).
Proof.
  intros HR Hext. rewrite <- guard_keys_script. split.
  - intros (R' & Hok). apply merge_tree_script in Hok.
    change (depth_budget None 0) with (@None nat) in Hok.
    now apply run_steps_guard in Hok.
  - intros Hnd.
    assert (Hgood : good (adjacency R d) root) by (apply extract_tree_good; eauto).
    pose proof (extract_drawn _ _ _ Hext) as Hdrawn.
    rewrite (@merge_tree_runs_script (within R root d)).
    + destruct (@run_drawn R root d HR Hgood (merge_script None t) empty_relations)
        as (R' & Hok & _); eauto using empty_relations_within.
    + intros s x d' Hs. apply extract_tree_good.
      now apply (within_sound Hgood Hs).
    + intros s st s' Hs Hin. apply (@within_step R root d s st s' Hs).
      rewrite Forall_forall in Hdrawn. auto.
    + unfold extract_tree in Hext. now apply extract_well_formed in Hext.
    + apply empty_relations_within.
Qed.

(** * The claims *)

Open Scope string_scope.

Lemma holding_built rel :
  merge_new_lineage_relation empty_relations rel = Ok (holding rel).
Proof. reflexivity. Qed.

Ltac eval_ids :=
  repeat (progress (cbn;
    unfold merge_new_home, _merge_new_relation, merge_new_lineage_relation,
           _merge_new_node, set_dataset_ids, index_relation, set_homes, set_trees_idx,
           index_edge, IdSet.update, IdSet.add, get_or_empty, home_of, append_child,
           Dict.mem;
    cbn; rewrite ?N.eqb_refl, ?String.eqb_refl;
    repeat match goal with
           | H : N.eqb _ _ = _ |- _ => rewrite !H
           | H : String.eqb _ _ = _ |- _ => rewrite !H
           end)).

(** ** C1: acyclicity *)

(** C1 (code defect): merging a relation whose source and derived ids are
    the same id succeeds when that id is new to the collection, because
    the cycle check is only run when one of the ids is already known, and
    the resulting edge set has a one-hop cycle; when the id is known the
    check raises.  Every other successful operation keeps a consistent,
    acyclic collection consistent and acyclic, and the empty collection
    is both: [merge_new_lineage_relation] between two different ids,
    [merge_tree], and [merge] of a collection that relates no id to
    itself. *)
Theorem acyclicity_except_fresh_self_loop :
  (forall self a c,
     IdSet.mem a (dataset_ids self) = false ->
     Dict.get (_relations_idx self) (a, a) = None ->
     exists self',
       merge_new_lineage_relation self
         {| classifier := c; source_id := a; derived_id := a |} = Ok self' /\
       ~ acyclic self') /\
  (forall self a c,
     IdSet.mem a (dataset_ids self) = true ->
     Dict.get (_relations_idx self) (a, a) = None ->
     exists x,
       merge_new_lineage_relation self
         {| classifier := c; source_id := a; derived_id := a |} =
       Raise (InconsistentLineageException (GraphNotAcyclic x))) /\
  (consistent empty_relations /\ acyclic empty_relations) /\
  (forall self rel self',
     consistent self -> acyclic self ->
     source_id rel <> derived_id rel ->
     merge_new_lineage_relation self rel = Ok self' ->
     consistent self' /\ acyclic self') /\
  (forall self tree parent_node max_depth self',
     consistent self -> acyclic self ->
     merge_tree self tree parent_node max_depth = Ok self' ->
     consistent self' /\ acyclic self') /\
  (forall self pool self',
     consistent self -> acyclic self ->
     (forall a c, ~ In ((a, a), c) (_relations_idx pool)) ->
     merge self pool = Ok self' ->
     consistent self' /\ acyclic self').
Proof.
  split; [exact self_loop_fresh|]. split; [exact self_loop_known|].
  split; [split; [apply empty_relations_consistent|apply empty_relations_acyclic]|].
  split; [exact merge_relation_acyclic|].
  split; [exact merge_tree_acyclic|exact merge_pool_acyclic].
Qed.

Lemma acyclicity_except_fresh_self_loop_witness :
  exists self',
    merge_new_lineage_relation empty_relations
      {| classifier := "x"; source_id := 1%N; derived_id := 1%N |} = Ok self' /\
    ~ acyclic self'.
Proof. apply (proj1 acyclicity_except_fresh_self_loop); reflexivity. Defined.

(** ** C2: the U1/U2 scenario *)

Lemma scenario_merge (U1 U2 : UUID) :
  U1 <> U2 ->
  merge_tree empty_relations (scenario_tree U1 U2) None 0 = Ok (scenario_relations U1 U2).
Proof.
  intros Hne.
  assert (H12 : N.eqb U1 U2 = false) by now apply N.eqb_neq.
  assert (H21 : N.eqb U2 U1 = false) by (apply N.eqb_neq; congruence).
  unfold scenario_tree, scenario_relations. eval_ids. reflexivity.
Qed.

(** C2 as stated fails: the merged relation is not
    [(source_id=U2, derived_id=U1)] with an empty homes mapping. *)
Lemma scenario_merge_not_as_stated :
  ~ exists self,
      merge_tree empty_relations (scenario_tree 1%N 2%N) None 0 = Ok self /\
      relations self = [ {| classifier := "nbar"; source_id := 2%N; derived_id := 1%N |} ] /\
      _homes self = [].
Proof.
  intros (self & Hok & Hrel & Hhomes).
  rewrite scenario_merge in Hok by discriminate. injection Hok as <-. discriminate.
Qed.

(** C2 (amended): merging the scenario tree into the empty collection
    succeeds and yields exactly one relation, classified "nbar", between
    [U1] and [U2], and a homes mapping that records a null home for [U1]
    and for [U2]. *)
Theorem scenario_merge_result (U1 U2 : UUID) :
  U1 <> U2 ->
  exists self r,
    merge_tree empty_relations (scenario_tree U1 U2) None 0 = Ok self /\
    relations self = [r] /\
    classifier r = "nbar" /\
    ((source_id r = U1 /\ derived_id r = U2) \/ (source_id r = U2 /\ derived_id r = U1)) /\
    _homes self = [(U1, None); (U2, None)].
Proof.
  intros Hne. exists (scenario_relations U1 U2).
  exists {| classifier := "nbar"; source_id := U1; derived_id := U2 |}.
  split; [now apply scenario_merge|]. simpl. repeat split; auto.
Qed.

Lemma scenario_merge_result_witness :
  exists self r,
    merge_tree empty_relations (scenario_tree 1%N 2%N) None 0 = Ok self /\
    relations self = [r] /\
    classifier r = "nbar" /\
    ((source_id r = 1%N /\ derived_id r = 2%N) \/ (source_id r = 2%N /\ derived_id r = 1%N)) /\
    _homes self = [(1%N, None); (2%N, None)].
Proof. apply (@scenario_merge_result 1%N 2%N). discriminate. Defined.

(** ** C5: classifier determinism *)

(** C5: merging [(A,B,"x")] into the empty collection succeeds; and once
    [(A,B,"x")] has been merged into a collection, merging [(A,B,"y")]
    with a different classifier raises the inconsistent-classifier
    exception, and merging [(A,B,"x")] again succeeds, changes nothing
    and leaves exactly one relation for the pair [(A,B)]. *)
Theorem classifier_determinism :
  (forall A B x,
     exists self1,
       merge_new_lineage_relation empty_relations
         {| classifier := x; source_id := A; derived_id := B |} = Ok self1) /\
  (forall self self1 A B x,
     relations_synced self ->
     merge_new_lineage_relation self
       {| classifier := x; source_id := A; derived_id := B |} = Ok self1 ->
     (forall y, y <> x ->
        merge_new_lineage_relation self1
          {| classifier := y; source_id := A; derived_id := B |} =
        Raise (InconsistentLineageException (InconsistentClassifiers (A, B)))) /\
     merge_new_lineage_relation self1
       {| classifier := x; source_id := A; derived_id := B |} = Ok self1 /\
     relations_for self1 (A, B) =
     [ {| classifier := x; source_id := A; derived_id := B |} ]).
Proof.
  split.
  { intros A B x. eexists. apply holding_built. }
  intros self self1 A B x Hsync Hok.
  assert (Hget : Dict.get (_relations_idx self1) (A, B) = Some x).
  { apply (run_step_done self (MergeRelation (A, B) x)). exact Hok. }
  assert (Hsync1 : relations_synced self1).
  { apply (run_step_synced (MergeRelation (A, B) x) Hsync). exact Hok. }
  repeat split.
  - intros y Hne. unfold merge_new_lineage_relation. simpl. rewrite Hget.
    destruct (String.eqb_spec x y) as [->|_]; [congruence|reflexivity].
  - unfold merge_new_lineage_relation. simpl. now rewrite Hget, String.eqb_refl.
  - rewrite (Hsync1 (A, B)), Hget. reflexivity.
Qed.

Lemma classifier_determinism_witness :
  (forall y, y <> "x" ->
     merge_new_lineage_relation
       (holding {| classifier := "x"; source_id := 1%N; derived_id := 2%N |})
       {| classifier := y; source_id := 1%N; derived_id := 2%N |} =
     Raise (InconsistentLineageException (InconsistentClassifiers (1%N, 2%N)))) /\
  merge_new_lineage_relation
    (holding {| classifier := "x"; source_id := 1%N; derived_id := 2%N |})
    {| classifier := "x"; source_id := 1%N; derived_id := 2%N |} =
  Ok (holding {| classifier := "x"; source_id := 1%N; derived_id := 2%N |}) /\
  relations_for (holding {| classifier := "x"; source_id := 1%N; derived_id := 2%N |})
    (1%N, 2%N) = [ {| classifier := "x"; source_id := 1%N; derived_id := 2%N |} ].
Proof.
  apply (proj2 classifier_determinism empty_relations).
  - exact empty_relations_synced.
  - apply holding_built.
Defined.

(** ** C6 and C7: relations_diff *)

Lemma diff_homes_raises self existing :
  _homes self <> [] ->
  diff_homes self existing = Raise (TypeError "cannot unpack non-iterable UUID object").
Proof.
  unfold diff_homes, Dict.keys. destruct (_homes self) as [|[k v] r]; [congruence|].
  reflexivity.
Qed.

Lemma diff_homes_none self existing :
  _homes self = [] -> diff_homes self existing = Ok ([], []).
Proof. unfold diff_homes. now intros ->. Qed.

Lemma diff_relations_raises self existing allow_updates :
  _relations_idx self <> [] ->
  diff_relations self existing allow_updates =
  Raise (TypeError "list indices must be integers or slices, not UUID").
Proof.
  unfold diff_relations, Dict.keys.
  destruct (_relations_idx self) as [|[[a b] c] r]; [congruence|]. reflexivity.
Qed.

(** The strict half of C6 holds: the consistency merge raises. *)
Lemma diff_strict_raises (A B : UUID) (x y : string) :
  x <> y ->
  relations_diff (holding {| classifier := x; source_id := A; derived_id := B |})
    (Some (holding {| classifier := y; source_id := A; derived_id := B |})) false =
  Raise (InconsistentLineageException (InconsistentClassifiers (A, B))).
Proof.
  intros Hne. apply String.eqb_neq in Hne. unfold relations_diff, new_relations, merge.
  eval_ids. reflexivity.
Qed.

(** C6 (code defect): with [allow_updates=True] the diff against an
    existing collection returns nothing to update: the loops iterate the
    keys of the mappings as if they were entries, so the loop over a
    non-empty homes mapping raises [TypeError] when it unpacks an id, and
    otherwise the loop over a non-empty relation index raises [TypeError]
    when it assigns into a list with an id as its index.  So the diff of
    a collection holding [(A,B,"x")] against one holding [(A,B,"y")] raises
    [TypeError]; with [allow_updates=False] it raises the
    inconsistent-classifier exception, as stated. *)
Theorem diff_allow_updates_raises :
  (forall self existing,
     _homes self <> [] ->
     relations_diff self (Some existing) true =
     Raise (TypeError "cannot unpack non-iterable UUID object")) /\
  (forall self existing,
     _homes self = [] -> _relations_idx self <> [] ->
     relations_diff self (Some existing) true =
     Raise (TypeError "list indices must be integers or slices, not UUID")) /\
  (forall A B x y,
     relations_diff (holding {| classifier := x; source_id := A; derived_id := B |})
       (Some (holding {| classifier := y; source_id := A; derived_id := B |})) true =
     Raise (TypeError "list indices must be integers or slices, not UUID")) /\
  (forall A B x y,
     x <> y ->
     relations_diff (holding {| classifier := x; source_id := A; derived_id := B |})
       (Some (holding {| classifier := y; source_id := A; derived_id := B |})) false =
     Raise (InconsistentLineageException (InconsistentClassifiers (A, B)))).
Proof.
  split; [|split; [|split]].
  - intros self existing Hhomes. unfold relations_diff. simpl.
    now rewrite diff_homes_raises.
  - intros self existing Hhomes Hrels. unfold relations_diff. simpl.
    rewrite diff_homes_none by assumption. simpl.
    now rewrite diff_relations_raises.
  - reflexivity.
  - exact diff_strict_raises.
Qed.

Lemma diff_allow_updates_raises_witness :
  relations_diff (scenario_relations 1%N 2%N)
    (Some (holding {| classifier := "y"; source_id := 1%N; derived_id := 2%N |})) true =
  Raise (TypeError "cannot unpack non-iterable UUID object") /\
  relations_diff (holding {| classifier := "x"; source_id := 1%N; derived_id := 2%N |})
    (Some (holding {| classifier := "y"; source_id := 1%N; derived_id := 2%N |})) false =
  Raise (InconsistentLineageException (InconsistentClassifiers (1%N, 2%N))).
Proof.
  split.
  - apply (proj1 diff_allow_updates_raises). discriminate.
  - apply (proj2 (proj2 (proj2 diff_allow_updates_raises))). discriminate.
Defined.

(** With no existing collection everything is to add, nothing to update. *)
Lemma diff_against_absent (self : LineageRelations) (allow_updates : bool) :
  relations_diff self None allow_updates =
  Ok {| relations_to_add := relations self; relations_to_update := [];
        homes_to_add := _homes self; homes_to_update := [] |}.
Proof. reflexivity. Qed.

(** C7 (code defect): with no existing collection the diff returns
    everything as to add and nothing as to update; against an existing
    collection that is present, empty or not, the diff of a collection
    that holds a home or a relation raises, in either mode; so the
    diff of a collection holding [(A,B,"x")] against an empty collection
    does not return the relation as to add, it raises [TypeError]. *)
Theorem diff_against_empty_raises :
  (forall self allow_updates,
     relations_diff self None allow_updates =
     Ok {| relations_to_add := relations self; relations_to_update := [];
           homes_to_add := _homes self; homes_to_update := [] |}) /\
  (forall self existing allow_updates,
     _homes self <> [] \/ _relations_idx self <> [] ->
     raised (relations_diff self (Some existing) allow_updates)) /\
  (forall A B x allow_updates,
     relations_diff (holding {| classifier := x; source_id := A; derived_id := B |})
       (Some empty_relations) allow_updates =
     Raise (TypeError "list indices must be integers or slices, not UUID")).
Proof.
  split; [exact diff_against_absent|]. split.
  - intros self existing allow_updates Hholds. unfold relations_diff.
    destruct (if negb allow_updates
              then merged <- new_relations None 0 (Some self) ;;
                   merge merged existing ;;; Ok tt
              else Ok tt) as [u|e|] eqn:Hcheck; simpl.
    + destruct (_homes self) as [|item homes] eqn:Hhomes.
      * rewrite diff_homes_none by assumption. simpl.
        rewrite diff_relations_raises; [now eexists|]. destruct Hholds; congruence.
      * rewrite diff_homes_raises; [now eexists|]. congruence.
    + now exists e.
    + exfalso. destruct allow_updates; [discriminate|]. simpl in Hcheck.
      apply bind_fuel_inv in Hcheck as [Hfuel|(merged & _ & Hfuel)].
      * unfold new_relations in Hfuel.
        apply bind_fuel_inv in Hfuel as [Hfuel|(s & _ & [=])].
        now apply merge_no_fuel in Hfuel.
      * apply bind_fuel_inv in Hfuel as [Hfuel|(s & _ & [=])].
        now apply merge_no_fuel in Hfuel.
  - intros A B x allow_updates. destruct allow_updates; [reflexivity|].
    unfold relations_diff, new_relations, merge. eval_ids. reflexivity.
Qed.

Lemma diff_against_empty_raises_witness :
  raised (relations_diff (scenario_relations 1%N 2%N) (Some empty_relations) false).
Proof. apply (proj1 (proj2 diff_against_empty_raises)). left. discriminate. Defined.

(** ** C10: null homes *)

Lemma merge_tree_extends self tree parent_node max_depth self' :
  merge_tree self tree parent_node max_depth = Ok self' -> extends self self'.
Proof. intros Hok. apply merge_tree_script in Hok. eapply run_steps_extends; eauto. Qed.

(** C10: a successful [merge_tree] leaves a homes entry for every node of
    the tree; where the tree carries no home for an id that had no entry,
    the entry is the null home; and once an id's entry is the null home,
    merging any home for that id neither raises nor changes the
    collection, also through a later [merge_tree]. *)
Theorem null_home_recorded_and_kept :
  (forall self tree self',
     merge_tree self tree None 0 = Ok self' ->
     forall id_ h, In (id_, h) (tree_nodes tree) ->
       Dict.mem (_homes self') id_ = true) /\
  (forall self tree self' id_,
     merge_tree self tree None 0 = Ok self' ->
     In (id_, None) (tree_nodes tree) ->
     (forall h, In (id_, h) (tree_nodes tree) -> h = None) ->
     Dict.mem (_homes self) id_ = false ->
     Dict.get (_homes self') id_ = Some None) /\
  (forall self id_ h,
     Dict.get (_homes self) id_ = Some None ->
     merge_new_home self id_ h = Ok self) /\
  (forall self tree parent_node max_depth self' id_,
     Dict.get (_homes self) id_ = Some None ->
     merge_tree self tree parent_node max_depth = Ok self' ->
     Dict.get (_homes self') id_ = Some None).
Proof.
  assert (Hall : forall self tree self',
            merge_tree self tree None 0 = Ok self' ->
            forall id_ h, In (id_, h) (tree_nodes tree) ->
              Dict.mem (_homes self') id_ = true).
  { intros self tree self' Hok id_ h Hin. apply merge_tree_script in Hok.
    eapply run_steps_homes_mem; [exact Hok|]. apply script_homes_all. exact Hin. }
  split; [exact Hall|]. split; [|split].
  - intros self tree self' id_ Hok Hin Hnull Hfresh.
    pose proof (Hall _ _ _ Hok _ _ Hin) as Hmem.
    apply DictFacts.mem_true in Hmem as (h & Hget). rewrite Hget. f_equal.
    apply merge_tree_script in Hok.
    eapply run_steps_homes in Hget as [Hold|(_ & Hstep)]; [| |exact Hok].
    + apply DictFacts.mem_false in Hfresh. congruence.
    + apply Hnull. now apply script_homes_all.
  - intros self id_ h Hget. unfold merge_new_home. now rewrite Hget.
  - intros self tree parent_node max_depth self' id_ Hget Hok.
    apply merge_tree_extends in Hok. now apply Hok.
Qed.

Lemma null_home_recorded_and_kept_witness :
  merge_tree empty_relations (scenario_tree 1%N 2%N) None 0 =
  Ok (scenario_relations 1%N 2%N) /\
  Dict.get (_homes (scenario_relations 1%N 2%N)) 2%N = Some None /\
  merge_new_home (scenario_relations 1%N 2%N) 2%N (Some "home") =
  Ok (scenario_relations 1%N 2%N).
Proof.
  assert (Hok : merge_tree empty_relations (scenario_tree 1%N 2%N) None 0 =
                Ok (scenario_relations 1%N 2%N)) by (apply scenario_merge; discriminate).
  assert (Hnull : Dict.get (_homes (scenario_relations 1%N 2%N)) 2%N = Some None).
  { apply (proj1 (proj2 null_home_recorded_and_kept) _ _ _ 2%N Hok).
    - simpl. auto.
    - simpl. intros h [[=]|[[=]|[]]]. congruence.
    - reflexivity. }
  split; [exact Hok|]. split; [exact Hnull|].
  apply (proj1 (proj2 (proj2 null_home_recorded_and_kept))). exact Hnull.
Defined.

(** ** C9: extraction is path-sensitive *)

(** C9: [extract_tree] raises the cyclic-lineage exception exactly when
    some walk of the adjacency index from the root repeats an id; otherwise
    it returns a tree; a diamond is extracted, with the shared id on both
    branches; every node of a returned tree has a children mapping; and
    on a consistent collection the hops of the adjacency index are the
    known relations, followed from source to derived for SOURCES and
    from derived to source for DERIVED. *)
Theorem extract_tree_path_sensitive :
  (forall self root d,
     (exists x, extract_tree self root d =
                Raise (InconsistentLineageException (GraphNotAcyclic x))) <->
     (exists p, walk (adjacency self d) root p /\ ~ NoDup p)) /\
  (forall self root d,
     (forall p, walk (adjacency self d) root p -> NoDup p) ->
     exists t, extract_tree self root d = Ok t) /\
  (exists diamond,
     build diamond_edges = Ok diamond /\
     extract_tree diamond 1%N SOURCES = Ok diamond_tree) /\
  (forall self root d t,
     extract_tree self root d = Ok t -> fully_expanded t = true) /\
  (forall self a b,
     consistent self ->
     (step (adjacency self SOURCES) a b <->
      exists c, In {| classifier := c; source_id := a; derived_id := b |}
                  (relations self)) /\
     (step (adjacency self DERIVED) a b <->
      exists c, In {| classifier := c; source_id := b; derived_id := a |}
                  (relations self))).
Proof.
  assert (Hiff : forall self root d,
     (exists x, extract_tree self root d =
                Raise (InconsistentLineageException (GraphNotAcyclic x))) <->
     (exists p, walk (adjacency self d) root p /\ ~ NoDup p)).
  { intros self root d. split.
    - intros (x & Hraise). apply extract_raise_walk in Hraise as (_ & p & Hw & Hbad).
      exists p. split; [assumption|]. destruct Hbad as [?|(y & _ & [=])]. assumption.
    - intros (p & Hw & Hdup).
      destruct (extract_tree_outcomes self root d) as [(t & Hok)|?]; [|assumption].
      exfalso. apply Hdup. unfold extract_tree in Hok.
      eapply extract_ok_walks in Hok; [|exact Hw]. apply Hok. }
  split; [exact Hiff|]. split; [|split; [|split]].
  - intros self root d Hwalks.
    destruct (extract_tree_outcomes self root d) as [?|Hraise]; [assumption|].
    apply Hiff in Hraise as (p & Hw & Hdup). exfalso. auto.
  - eexists. split; vm_compute; reflexivity.
  - intros self root d t. apply extract_fully_expanded.
  - intros self a b Hcons. simpl. split; [now apply step_by_source|].
    rewrite step_by_derived by apply Hcons. now apply step_by_source.
Qed.

Lemma extract_tree_path_sensitive_witness :
  (exists x, extract_tree
               (holding {| classifier := "x"; source_id := 5%N; derived_id := 5%N |})
               5%N SOURCES =
             Raise (InconsistentLineageException (GraphNotAcyclic x))) /\
  fully_expanded diamond_tree = true.
Proof.
  split.
  - apply (proj1 extract_tree_path_sensitive). exists [5%N; 5%N]. split.
    + apply walk_step with (b := 5%N); [|constructor]. simpl. now left.
    + intros Hnd. inversion Hnd as [|? ? Hnotin _]. apply Hnotin. now left.
  - destruct (proj1 (proj2 (proj2 extract_tree_path_sensitive))) as (diamond & _ & Hok).
    exact (proj1 (proj2 (proj2 (proj2 extract_tree_path_sensitive))) _ _ _ _ Hok).
Defined.

(** ** C4: merging twice *)

(** C4 as stated fails: the chain merges once and merging it a second
    time raises; and the collection this leaves merges once into the
    empty collection and raises when merged into the result again. *)
Lemma merge_twice_raises :
  exists self1,
    merge_tree empty_relations chain_tree None 0 = Ok self1 /\
    merge_tree self1 chain_tree None 0 =
    Raise (InconsistentLineageException DuplicateSubtrees) /\
    exists self2,
      merge empty_relations self1 = Ok self2 /\
      merge self2 self1 = Raise (InconsistentLineageException DuplicateSubtrees).
Proof.
  eexists. split; [vm_compute; reflexivity|]. split; [vm_compute; reflexivity|].
  eexists. split; vm_compute; reflexivity.
Qed.

Lemma merge_tree_not_ok_raises self tree parent_node max_depth :
  (forall self', merge_tree self tree parent_node max_depth <> Ok self') ->
  raised (merge_tree self tree parent_node max_depth).
Proof.
  intros Hnot. destruct (merge_tree self tree parent_node max_depth) as [s|e|] eqn:E.
  - now destruct (Hnot s).
  - now exists e.
  - now apply merge_tree_no_fuel in E.
Qed.

Lemma subtree_in_script b tree child :
  b <> Some O -> In child (subtrees tree) ->
  In (MergeNode (edge_ids tree child) child) (merge_script b tree).
Proof.
  intros Hb Hin. apply merge_script_In; [exact Hb|]. right.
  apply subtrees_In in Hin as (items & c & l & Hch & Hin & Hc).
  exists items, c, l, child. repeat split; auto.
Qed.

(** C4 (amended): a second [merge] of a collection whose guard index
    [_trees_idx] is empty succeeds whenever the first did and leaves the
    collection exactly as the first left it; so does a second [merge_tree]
    of a tree none of whose children carries children, when the first
    was into a collection whose indexes agree; a second [merge_tree] of any
    tree that succeeds leaves the collection exactly as the first left it;
    and the second merge raises when a child of the tree, or an entry of
    the merged collection's guard index, carries children. *)
Theorem merge_twice :
  (forall self pool self1,
     _trees_idx pool = [] ->
     merge self pool = Ok self1 ->
     merge self1 pool = Ok self1) /\
  (forall self tree max_depth self1,
     well_indexed self -> shallow tree ->
     merge_tree self tree None max_depth = Ok self1 ->
     merge_tree self1 tree None max_depth = Ok self1) /\
  (forall self tree parent_node max_depth self1 self2,
     merge_tree self tree parent_node max_depth = Ok self1 ->
     merge_tree self1 tree parent_node max_depth = Ok self2 ->
     self2 = self1) /\
  (forall self tree parent_node max_depth self1 child,
     merge_tree self tree parent_node max_depth = Ok self1 ->
     In child (subtrees tree) -> got_grandchildren child = true ->
     raised (merge_tree self1 tree parent_node max_depth)) /\
  (forall self pool self1 ids node,
     merge self pool = Ok self1 ->
     In (ids, node) (_trees_idx pool) -> got_grandchildren node = true ->
     raised (merge self1 pool)).
Proof.
  split; [|split; [|split; [|split]]].
  - intros self pool self1 Hguard Hok. rewrite merge_as_script in *.
    apply rerun_steps_ok; [eapply run_steps_done; eauto|].
    unfold pool_script. rewrite Hguard. simpl. rewrite app_nil_r.
    apply Forall_app. split; apply Forall_forall; intros st Hin;
      apply in_map_iff in Hin as (item & <- & _); exact I.
  - intros self tree max_depth self1. apply merge_shallow_tree_again.
  - intros self tree parent_node max_depth self1 self2 Hok1 Hok2.
    apply merge_tree_script in Hok1, Hok2.
    eapply rerun_steps; [|exact Hok2]. eapply run_steps_done; eauto.
  - intros self tree parent_node max_depth self1 child Hok Hin Hgot.
    apply merge_tree_not_ok_raises. intros self2 Hok2.
    apply merge_tree_script in Hok, Hok2.
    destruct (recursion_plan_budget parent_node max_depth tree) as (Hb & _).
    revert Hok2. eapply rerun_steps_detail;
      [eapply run_steps_done; exact Hok
      |apply subtree_in_script; [exact Hb|exact Hin]
      |exact Hgot].
  - intros self pool self1 ids node Hok Hin Hgot.
    destruct (merge self1 pool) as [s|e|] eqn:E.
    + exfalso. rewrite merge_as_script in *. revert E.
      eapply rerun_steps_detail;
        [eapply run_steps_done; exact Hok| |exact Hgot].
      unfold pool_script. rewrite !in_app_iff. right. right.
      apply in_map_iff. exists (ids, node). auto.
    + now exists e.
    + now apply merge_no_fuel in E.
Qed.

Lemma scenario_shallow : shallow (scenario_tree 1%N 2%N).
Proof. intros child [<-|[]]. reflexivity. Qed.

Lemma merge_twice_witness :
  merge (scenario_relations 1%N 2%N) (scenario_relations 1%N 2%N) =
  Ok (scenario_relations 1%N 2%N) /\
  merge_tree (scenario_relations 1%N 2%N) (scenario_tree 1%N 2%N) None 0 =
  Ok (scenario_relations 1%N 2%N).
Proof.
  assert (Hm : merge empty_relations (scenario_relations 1%N 2%N) =
               Ok (scenario_relations 1%N 2%N)) by (vm_compute; reflexivity).
  assert (Ht : merge_tree empty_relations (scenario_tree 1%N 2%N) None 0 =
               Ok (scenario_relations 1%N 2%N)) by (vm_compute; reflexivity).
  split.
  - exact (proj1 merge_twice empty_relations (scenario_relations 1%N 2%N) _ eq_refl Hm).
  - exact (proj1 (proj2 merge_twice) empty_relations _ 0%Z _
             empty_relations_well_indexed scenario_shallow Ht).
Defined.

(** ** C8: the depth bound of merge_tree *)

(** C8 as stated fails: with [max_depth=1] the link from the child 2 to
    the grandchild 3 is merged as well. *)
Lemma max_depth_one_merges_two_levels :
  exists self,
    merge_tree empty_relations deep_chain_tree None 1 = Ok self /\
    Dict.get (_relations_idx self) (1%N, 2%N) = Some "a" /\
    Dict.get (_relations_idx self) (2%N, 3%N) = Some "b" /\
    Dict.get (_relations_idx self) (3%N, 4%N) = None /\
    Dict.keys (_homes self) = [1%N; 2%N].
Proof. eexists. split; [vm_compute; reflexivity|]. repeat split. Qed.

(** C8 (amended): a successful [merge_tree] with [max_depth=1] adds to the
    relation index exactly the links from the root to its immediate
    children and from those children to their own children, and records
    homes for exactly the root and its immediate children; with
    [max_depth=0] it adds exactly the links of every level and records
    homes for every node. *)
Theorem merge_tree_depth_bound :
  (forall self tree self',
     merge_tree self tree None 1 = Ok self' ->
     (forall ids c,
        Dict.get (_relations_idx self') ids = Some c <->
        Dict.get (_relations_idx self) ids = Some c \/
        In (ids, c) (child_edges tree) \/
        exists child, In child (subtrees tree) /\ In (ids, c) (child_edges child)) /\
     (forall id_,
        Dict.mem (_homes self') id_ = true <->
        Dict.mem (_homes self) id_ = true \/
        id_ = dataset_id tree \/
        exists child, In child (subtrees tree) /\ id_ = dataset_id child)) /\
  (forall self tree self',
     merge_tree self tree None 0 = Ok self' ->
     (forall ids c,
        Dict.get (_relations_idx self') ids = Some c <->
        Dict.get (_relations_idx self) ids = Some c \/ In (ids, c) (tree_edges tree)) /\
     (forall id_,
        Dict.mem (_homes self') id_ = true <->
        Dict.mem (_homes self) id_ = true \/ In id_ (map fst (tree_nodes tree)))).
Proof.
  split.
  - intros self tree self' Hok. apply merge_tree_script in Hok.
    change (depth_budget None 1) with (Some 2) in Hok. split.
    + intros ids c. rewrite (run_steps_relations _ _ Hok ids c), script_relations_two.
      reflexivity.
    + intros id_. rewrite (run_steps_homes_mem_iff _ _ Hok id_).
      split; (intros [?|Hin]; [now left|right]).
      * destruct Hin as (h & Hin). apply script_homes_two in Hin.
        destruct Hin as [[= -> _]|(child & Hc & [= -> _])]; eauto.
      * destruct Hin as [->|(child & Hc & ->)].
        -- exists (home tree). apply script_homes_two. now left.
        -- exists (home child). apply script_homes_two. right. eauto.
  - intros self tree self' Hok. apply merge_tree_script in Hok.
    change (depth_budget None 0) with (@None nat) in Hok. split.
    + intros ids c. rewrite (run_steps_relations _ _ Hok ids c), script_relations_all.
      reflexivity.
    + intros id_. rewrite (run_steps_homes_mem_iff _ _ Hok id_).
      split; (intros [?|Hin]; [now left|right]).
      * destruct Hin as (h & Hin). apply script_homes_all in Hin.
        apply in_map_iff. exists (id_, h). auto.
      * apply in_map_iff in Hin as ([i h] & <- & Hin). exists h.
        now apply script_homes_all.
Qed.

Lemma merge_tree_depth_bound_witness :
  exists self,
    merge_tree empty_relations deep_chain_tree None 1 = Ok self /\
    Dict.get (_relations_idx self) (2%N, 3%N) = Some "b" /\
    Dict.mem (_homes self) 3%N = false.
Proof.
  assert (Hok : exists self, merge_tree empty_relations deep_chain_tree None 1 = Ok self).
  { eexists. vm_compute. reflexivity. }
  destruct Hok as (self & Hok). exists self. split; [exact Hok|].
  destruct (proj1 merge_tree_depth_bound _ _ _ Hok) as (Hrel & Hhomes). split.
  - apply Hrel. right. right. exists (node SOURCES 2%N "b" [ node SOURCES 3%N "c" [leaf SOURCES 4%N] ]).
    split; simpl; auto.
  - destruct (Dict.mem (_homes self) 3%N) eqn:E; [|reflexivity]. exfalso.
    apply Hhomes in E. destruct E as [E|[E|(child & Hc & E)]]; try discriminate.
    simpl in Hc. destruct Hc as [<-|[]]. discriminate.
Defined.

(** ** C3: extract, then merge *)

Lemma tailed_diamond_ascends a b : derives tailed_diamond_edges a b -> (a < b)%N.
Proof.
  induction 1 as [r Hin|a b c _ IH1 _ IH2]; [|lia].
  simpl in Hin. repeat (destruct Hin as [<-|Hin]; [simpl; lia|]). contradiction.
Qed.

(** C3 as stated fails: the tailed diamond is acyclic and 1 is known to
    it, extraction from 1 succeeds, and merging the extracted tree into
    the empty collection raises, because the subtree below the join is
    listed, with its children, on both branches. *)
Lemma round_trip_raises :
  exists R t,
    build tailed_diamond_edges = Ok R /\
    acyclic R /\
    IdSet.mem 1%N (dataset_ids R) = true /\
    extract_tree R 1%N SOURCES = Ok t /\
    merge_tree empty_relations t None 0 =
    Raise (InconsistentLineageException DuplicateSubtrees).
Proof.
  eexists. eexists. split; [vm_compute; reflexivity|]. split.
  - intros a Hcycle. apply tailed_diamond_ascends in Hcycle. lia.
  - split; [reflexivity|]. split; vm_compute; reflexivity.
Qed.

Lemma scenario_extract (U1 U2 : UUID) :
  U1 <> U2 ->
  extract_tree (scenario_relations U1 U2) U1 SOURCES = Ok (scenario_tree U1 U2).
Proof.
  intros Hne.
  assert (H12 : N.eqb U1 U2 = false) by now apply N.eqb_neq.
  assert (H21 : N.eqb U2 U1 = false) by (apply N.eqb_neq; congruence).
  unfold extract_tree, scenario_tree, scenario_relations. eval_ids. reflexivity.
Qed.

(** C3 (amended): when [extract_tree] returns a tree and [merge_tree] of
    that tree into the empty collection succeeds, the resulting relation
    index holds exactly the entries of the adjacency index that are
    reachable from the root in that direction, and the resulting homes
    mapping holds exactly the reachable ids, each with the home recorded
    for it, or the null home when none is recorded; on a consistent
    collection the resulting relations are exactly the relations of the
    collection whose near end is reachable; on a consistent, acyclic
    collection [extract_tree] returns a tree from every root; the merge
    of an extracted tree into the empty collection succeeds exactly when
    the tree lists no link to a child with children twice; and after
    merging the U1/U2 scenario tree, extracting [U1] in SOURCES direction
    returns that tree. *)
Theorem extract_merge_round_trip :
  (forall R root d t R',
     extract_tree R root d = Ok t ->
     merge_tree empty_relations t None 0 = Ok R' ->
     (forall ids c,
        Dict.get (_relations_idx R') ids = Some c <->
        exists a b, reach (adjacency R d) root a /\
                    In (b, c) (get_or_empty (adjacency R d) a) /\
                    ids = orient d a b) /\
     (forall id_ h,
        Dict.get (_homes R') id_ = Some h <->
        reach (adjacency R d) root id_ /\ h = home_of R id_)) /\
  (forall R root d t R',
     consistent R ->
     extract_tree R root d = Ok t ->
     merge_tree empty_relations t None 0 = Ok R' ->
     forall r, In r (relations R') <->
               In r (relations R) /\ reach (adjacency R d) root (near_end d r)) /\
  (forall R root d,
     consistent R -> acyclic R -> exists t, extract_tree R root d = Ok t) /\
  (forall R root d t,
     well_indexed R ->
     extract_tree R root d = Ok t ->
     ((exists R', merge_tree empty_relations t None 0 = Ok R') <->
      NoDup (guarded_links t))) /\
  (forall U1 U2,
     U1 <> U2 ->
     exists R,
       merge_tree empty_relations (scenario_tree U1 U2) None 0 = Ok R /\
       extract_tree R U1 SOURCES = Ok (scenario_tree U1 U2)).
Proof.
  assert (Hmain : forall R root d t R',
     extract_tree R root d = Ok t ->
     merge_tree empty_relations t None 0 = Ok R' ->
     (forall ids c,
        Dict.get (_relations_idx R') ids = Some c <->
        exists a b, reach (adjacency R d) root a /\
                    In (b, c) (get_or_empty (adjacency R d) a) /\
                    ids = orient d a b) /\
     (forall id_ h,
        Dict.get (_homes R') id_ = Some h <->
        reach (adjacency R d) root id_ /\ h = home_of R id_));
    [|split; [exact Hmain|split; [|split; [|split]]]].
  { intros R root d t R' Hext Hmerge. unfold extract_tree in Hext.
    apply extract_content in Hext as (_ & _ & Hedges & Hnodes).
    apply merge_tree_script in Hmerge.
    change (depth_budget None 0) with (@None nat) in Hmerge.
    assert (Hhomes : forall id_ h,
              Dict.get (_homes R') id_ = Some h ->
              reach (adjacency R d) root id_ /\ h = home_of R id_).
    { intros id_ h Hget.
      eapply run_steps_homes in Hget as [Hget|(_ & Hin)]; [| |exact Hmerge];
        [discriminate|].
      apply script_homes_all, Hnodes in Hin. destruct Hin as (a & Hreach & [= -> ->]).
      auto. }
    split.
    + intros ids c. rewrite (run_steps_relations _ _ Hmerge ids c), script_relations_all.
      rewrite Hedges. split.
      * intros [[=]|(a & b & c' & Hreach & Hin & [= -> ->])]. eauto.
      * intros (a & b & Hreach & Hin & ->). right. exists a, b, c. auto.
    + intros id_ h. split; [apply Hhomes|]. intros (Hreach & ->).
      assert (Hmem : Dict.mem (_homes R') id_ = true).
      { eapply run_steps_homes_mem; [exact Hmerge|]. apply script_homes_all.
        apply Hnodes. eauto. }
      apply DictFacts.mem_true in Hmem as (h' & Hget). rewrite Hget. f_equal.
      now apply Hhomes in Hget. }
  - intros R root d t R' (Hwf & Hsync) Hext Hmerge r.
    destruct (Hmain _ _ _ _ _ Hext Hmerge) as (Hedges & _).
    assert (Hsync' : relations_synced R').
    { apply merge_tree_script in Hmerge.
      eapply run_steps_synced; [apply empty_relations_synced|exact Hmerge]. }
    rewrite (relation_listed r Hsync'), (relation_listed r Hsync), Hedges.
    destruct Hwf as (Hsrc & Hder & _). destruct r as [c s e]. simpl.
    destruct d; simpl; split.
    + intros (a & b & Hreach & Hin & [= -> ->]). split; [now apply Hsrc|assumption].
    + intros (Hget & Hreach). exists s, e. split; [assumption|].
      split; [now apply Hsrc|reflexivity].
    + intros (a & b & Hreach & Hin & [= -> ->]). split; [now apply Hder|assumption].
    + intros (Hget & Hreach). exists e, s. split; [assumption|].
      split; [now apply Hder|reflexivity].
  - intros R root d Hcons Hacyclic. apply extract_tree_good.
    now apply (proj2 (sound_acyclic Hcons)).
  - exact merge_extracted.
  - intros U1 U2 Hne. exists (scenario_relations U1 U2).
    split; [now apply scenario_merge | now apply scenario_extract].
Qed.

Lemma extract_merge_round_trip_witness :
  exists R,
    merge_tree empty_relations (scenario_tree 1%N 2%N) None 0 = Ok R /\
    extract_tree R 1%N SOURCES = Ok (scenario_tree 1%N 2%N) /\
    Dict.get (_homes R) 2%N = Some None.
Proof.
  destruct (proj2 (proj2 (proj2 (proj2 extract_merge_round_trip))) 1%N 2%N)
    as (R & Hmerge & Hext); [discriminate|].
  exists R. split; [exact Hmerge|]. split; [exact Hext|].
  apply (proj2 (proj1 extract_merge_round_trip R 1%N SOURCES _ R Hext Hmerge) 2%N None).
  split.
  - assert (HR : R = scenario_relations 1%N 2%N).
    { rewrite scenario_merge in Hmerge by discriminate. now injection Hmerge. }
    subst R. apply reach_hop with (b := 2%N); [|constructor]. simpl. now left.
  - assert (HR : R = scenario_relations 1%N 2%N).
    { rewrite scenario_merge in Hmerge by discriminate. now injection Hmerge. }
    subst R. reflexivity.
Defined.

(** * Further properties of the operations *)

Close Scope string_scope.

(** ** child_datasets, exactly *)

Lemma child_datasets_raise t e :
  child_datasets t = Raise e -> e = InconsistentLineageException TreeNotAcyclic.
Proof.
  revert e. induction t as [t IH] using LineageTree_subtree_ind. intros e.
  rewrite child_datasets_unfold. destruct (children t) as [items|] eqn:Hch; [|discriminate].
  generalize (@nil UUID). intros acc0 Hraise.
  assert (Hsub : forall c l, In (c, l) items -> forall child, In child l ->
            In child (subtrees t)).
  { intros c l Hitem child Hc. apply subtrees_In. exists items, c, l. auto. }
  clear Hch. revert acc0 Hraise.
  induction items as [|[c l] items IHitems]; intros acc0; [discriminate|].
  rewrite for_each_cons. cbn [snd]. intros Hraise.
  apply bind_raise_inv in Hraise as [Hraise|(acc1 & _ & Hraise)].
  - assert (Hl : forall child, In child l -> In child (subtrees t))
      by (intros; eapply Hsub; [now left|eauto]).
    clear - IH Hl Hraise. revert acc0 Hraise.
    induction l as [|child l IHl]; intros acc0; [discriminate|].
    rewrite for_each_cons. intros Hraise.
    apply bind_raise_inv in Hraise as [Hraise|(acc1 & _ & Hraise)].
    + apply bind_raise_inv in Hraise as [Hraise|(sub & _ & Hraise)].
      * eapply IH; [apply Hl; now left|exact Hraise].
      * cbv zeta in Hraise.
        destruct (IdSet.mem (dataset_id t) (IdSet.add (dataset_id child) sub));
          [now injection Hraise as <-|discriminate].
    + eapply IHl; [|exact Hraise]. intros; apply Hl; now right.
  - eapply IHitems; [|exact Hraise]. intros c' l' Hin. apply (Hsub c' l'). now right.
Qed.

Lemma incl_update_l (acc new : list UUID) x : In x acc -> In x (IdSet.update acc new).
Proof.
  intros Hin. apply IdSetFacts.mem_In. rewrite IdSetFacts.mem_update.
  apply IdSetFacts.mem_In in Hin. now rewrite Hin.
Qed.

Lemma incl_update_r (acc new : list UUID) x : In x new -> In x (IdSet.update acc new).
Proof.
  intros Hin. apply IdSetFacts.mem_In. rewrite IdSetFacts.mem_update.
  apply IdSetFacts.mem_In in Hin. rewrite Hin. apply orb_true_r.
Qed.

(** What a successful [child_datasets] has seen of each child. *)
Lemma child_datasets_children t l :
  child_datasets t = Ok l ->
  forall child, In child (subtrees t) ->
    exists sub, child_datasets child = Ok sub /\
                IdSet.mem (dataset_id t) (IdSet.add (dataset_id child) sub) = false /\
                forall x, In x (IdSet.add (dataset_id child) sub) -> In x l.
Proof.
  intros Hok child Hc. rewrite child_datasets_unfold in Hok.
  apply subtrees_In in Hc as (items & c & cl & Hch & Hitem & Hcl). rewrite Hch in Hok.
  set (inner := fun (child_dsids : list UUID) (child : LineageTree) =>
         subchildren <- child_datasets child ;;
         let subchildren := IdSet.add (dataset_id child) subchildren in
         if IdSet.mem (dataset_id t) subchildren
         then Raise (InconsistentLineageException TreeNotAcyclic)
         else Ok (IdSet.update child_dsids subchildren)) in *.
  assert (Hgrow : forall acc child acc', inner acc child = Ok acc' ->
            forall x, In x acc -> In x acc').
  { intros acc ch acc' Hbody x Hx. unfold inner in Hbody. unbind Hbody as sub Hsub.
    cbv zeta in Hbody. destruct (IdSet.mem _ _); [discriminate|].
    injection Hbody as <-. now apply incl_update_l. }
  assert (Hrefl : forall a : list UUID, forall x, In x a -> In x a) by auto.
  assert (Htrans : forall a b c0 : list UUID,
            (forall x, In x a -> In x b) -> (forall x, In x b -> In x c0) ->
            forall x, In x a -> In x c0) by auto.
  destruct (@for_each_split _ _
              (fun acc item => for_each inner (snd item) acc)
              (fun a b : list UUID => forall x, In x a -> In x b) Hrefl Htrans
              items [] l (c, cl)) as (a1 & a2 & _ & Hinner & H2); auto.
  { intros acc item acc' _ Hrun.
    apply (@for_each_along _ _ inner (fun a b : list UUID => forall x, In x a -> In x b)
             Hrefl Htrans (snd item)); [|exact Hrun].
    intros acc1 ch acc2 _. apply Hgrow. }
  cbn [snd] in Hinner.
  destruct (@for_each_split _ _ inner
              (fun a b : list UUID => forall x, In x a -> In x b) Hrefl Htrans
              cl a1 a2 child) as (a3 & a4 & _ & Hbody & H4); auto.
  { intros acc1 ch acc2 _. apply Hgrow. }
  unfold inner in Hbody. unbind Hbody as sub Hsub. cbv zeta in Hbody.
  exists sub. split; [assumption|].
  destruct (IdSet.mem (dataset_id t) (IdSet.add (dataset_id child) sub)); [discriminate|].
  split; [reflexivity|]. injection Hbody as <-.
  intros x Hx. apply H2, H4. now apply incl_update_r.
Qed.

(** [child_datasets] returns every id below the root. *)
Lemma child_datasets_complete t :
  forall l, child_datasets t = Ok l -> forall x, below t x -> In x l.
Proof.
  induction t as [t IH] using LineageTree_subtree_ind.
  intros l Hok x (child & Hc & Hx).
  destruct (child_datasets_children _ Hok _ Hc) as (sub & Hsub & _ & Hin).
  apply Hin. apply IdSetFacts.mem_In. rewrite IdSetFacts.mem_add.
  apply in_map_iff in Hx as (n & <- & Hn).
  apply tree_nodes_In in Hn as [->|(items & c & cl & gc & Hch & Hitem & Hcl & Hn)].
  - cbn [fst]. now rewrite keqb_refl.
  - apply orb_true_iff. right. apply IdSetFacts.mem_In. eapply IH; eauto.
    exists gc. split; [apply subtrees_In; exists items, c, cl; auto|now apply in_map].
Qed.

(** [child_datasets] succeeds only when no node's id shows up below that
    node. *)
Lemma child_datasets_checked t :
  forall l, child_datasets t = Ok l ->
  forall n, In n (all_nodes t) -> ~ below n (dataset_id n).
Proof.
  induction t as [t IH] using LineageTree_subtree_ind. intros l Hok n Hn.
  rewrite all_nodes_unfold in Hn. destruct Hn as [<-|Hn].
  - intros (child & Hc & Hx).
    destruct (child_datasets_children _ Hok _ Hc) as (sub & Hsub & Hfresh & _).
    rewrite IdSetFacts.mem_add, orb_false_iff, keqb_neq in Hfresh.
    destruct Hfresh as (Hne & Hfresh).
    apply in_map_iff in Hx as (n & Hid & Hn).
    apply tree_nodes_In in Hn as [->|(items & c & cl & gc & Hch & Hitem & Hcl & Hn)].
    + cbn [fst] in Hid. congruence.
    + assert (Hin : In (dataset_id t) sub).
      { eapply child_datasets_complete; [exact Hsub|].
        exists gc. split; [apply subtrees_In; exists items, c, cl; auto|].
        rewrite <- Hid. now apply in_map. }
      apply IdSetFacts.mem_In in Hin. congruence.
  - apply in_flat_map in Hn as (child & Hc & Hn).
    destruct (child_datasets_children _ Hok _ Hc) as (sub & Hsub & _).
    eapply IH; eauto.
Qed.

Lemma child_datasets_succeeds t :
  (forall n, In n (all_nodes t) -> ~ below n (dataset_id n)) ->
  exists l, child_datasets t = Ok l.
Proof.
  induction t as [t IH] using LineageTree_subtree_ind. intros Hall.
  apply child_datasets_progress.
  - intros child Hc. apply IH; [assumption|].
    intros n Hn. apply Hall. eapply all_nodes_child; eauto.
  - apply Hall, all_nodes_self.
Qed.

(** [child_datasets] succeeds exactly on the trees in which no node's id
    shows up below that node; it then returns exactly the ids below the
    root, and otherwise raises "LineageTrees must be acyclic". *)
Theorem child_datasets_exact t :
  ((exists l, child_datasets t = Ok l) <->
   (forall n, In n (all_nodes t) -> ~ below n (dataset_id n))) /\
  (forall l, child_datasets t = Ok l -> forall x, In x l <-> below t x) /\
  ((exists l, child_datasets t = Ok l) \/
   child_datasets t = Raise (InconsistentLineageException TreeNotAcyclic)).
Proof.
  split; [|split].
  - split; [intros (l & Hok); now apply child_datasets_checked with (l := l)
           |apply child_datasets_succeeds].
  - intros l Hok x. split;
      [now apply child_datasets_below with (l := l)|now apply child_datasets_complete].
  - destruct (child_datasets t) as [l|e|] eqn:E.
    + left. now exists l.
    + right. now rewrite (child_datasets_raise _ E).
    + now apply child_datasets_no_fuel in E.
Qed.

(** ** Collections built by the public operations *)

Lemma relation_as_step self rel :
  merge_new_lineage_relation self rel =
  run_step self (MergeRelation (source_id rel, derived_id rel) (classifier rel)).
Proof. destruct rel. reflexivity. Qed.

Lemma run_steps_one st s : run_steps [st] s = run_step s st.
Proof. rewrite run_steps_cons. destruct (run_step s st); reflexivity. Qed.

Lemma perform_script s op s' :
  perform s op = Ok s' -> run_steps (op_script op) s = Ok s'.
Proof.
  destruct op as [id_ h|rel|pool|tree max_depth]; simpl perform; cbn [op_script].
  - now rewrite run_steps_one.
  - now rewrite run_steps_one, relation_as_step.
  - now rewrite merge_as_script.
  - apply merge_tree_script.
Qed.

Lemma built_script s : built s -> exists l, run_steps l empty_relations = Ok s.
Proof.
  intros (ops & Hok). revert Hok. generalize empty_relations.
  induction ops as [|op ops IH]; intros s0.
  - intros [= <-]. now exists [].
  - rewrite for_each_cons. intros Hok. unbind Hok as s1 Hop.
    destruct (IH _ Hok) as (l & Hl). exists (op_script op ++ l).
    rewrite run_steps_app, (perform_script _ _ Hop). exact Hl.
Qed.

(** An invariant of the single-item merges that holds of the empty
    collection holds of every built collection. *)
Lemma built_ind (P : LineageRelations -> Prop) :
  P empty_relations ->
  (forall s st s', P s -> run_step s st = Ok s' -> P s') ->
  forall s, built s -> P s.
Proof.
  intros Hempty Hstep s Hbuilt. apply built_script in Hbuilt as (l & Hok).
  apply (@for_each_inv _ _ P run_step l empty_relations s); auto.
  intros s0 st s0' H0 _. now apply Hstep.
Qed.

Lemma run_step_ids_tight s st s' :
  ids_tight s -> run_step s st = Ok s' -> ids_tight s'.
Proof.
  intros Htight Hok. destruct st as [id_ h|ids c|ids node]; simpl in Hok.
  - apply merge_new_home_ok in Hok as [(_ & _ & _ & ->)|(_ & ->)]; auto.
  - apply merge_new_lineage_relation_ok in Hok as [(_ & ->)|(Hfresh & ->)]; auto.
    cbn [source_id derived_id classifier] in *. intros x Hx.
    unfold set_dataset_ids in Hx. cbn [dataset_ids] in Hx.
    apply (new_ids_mem s {| classifier := c; source_id := fst ids; derived_id := snd ids |})
      in Hx. cbn [source_id derived_id] in Hx.
    unfold set_dataset_ids, index_relation. cbn [_relations_idx source_id derived_id classifier].
    destruct Hx as [Hx|Hx].
    + destruct (Htight x Hx) as (ids' & c' & Hget & Hends). exists ids', c'.
      split; [|assumption]. apply get_set_fresh; assumption.
    + exists (fst ids, snd ids), c. split; [apply DictFacts.get_set_same|]. simpl. tauto.
  - apply _merge_new_node_ok in Hok as [(_ & ->)|(_ & _ & ->)]; auto.
Qed.

Lemma mem_false_not_In {K V} `{EqKey K} (d : dict K V) k :
  Dict.mem d k = false -> forall w, ~ In (k, w) d.
Proof. intros Hmem w Hin. apply DictFacts.In_mem in Hin. congruence. Qed.

Lemma run_step_guard_entries s st s' :
  guard_entries_full s -> run_step s st = Ok s' -> guard_entries_full s'.
Proof.
  intros Hfull Hok. destruct st as [id_ h|ids c|ids node]; simpl in Hok.
  - apply merge_new_home_ok in Hok as [(_ & _ & _ & ->)|(_ & ->)]; auto.
  - apply merge_new_lineage_relation_ok in Hok as [(_ & ->)|(_ & ->)]; auto.
  - apply _merge_new_node_ok in Hok as [(_ & ->)|(Hgot & Hfresh & ->)]; auto.
    intros ids' node' Hin. unfold set_trees_idx in Hin. cbn [_trees_idx] in Hin.
    apply In_set_fresh in Hin; [|now apply mem_false_not_In].
    destruct Hin as [Hin|[= -> ->]]; eauto.
Qed.

Lemma run_step_keys_unique s st s' :
  keys_unique s -> run_step s st = Ok s' -> keys_unique s'.
Proof.
  intros (Hh & Hr & Ht) Hok. destruct st as [id_ h|ids c|ids node]; simpl in Hok.
  - apply merge_new_home_ok in Hok as [(_ & _ & _ & ->)|(_ & ->)];
      repeat split; simpl; auto using DictFacts.keys_set_NoDup.
  - apply merge_new_lineage_relation_ok in Hok as [(_ & ->)|(_ & ->)];
      repeat split; simpl; auto using DictFacts.keys_set_NoDup.
  - apply _merge_new_node_ok in Hok as [(_ & ->)|(_ & _ & ->)];
      repeat split; simpl; auto using DictFacts.keys_set_NoDup.
Qed.

Lemma built_consistent s : built s -> consistent s.
Proof.
  revert s. apply built_ind; [apply empty_relations_consistent|].
  intros s st s' Hs Hok. apply run_steps_consistent with (l := [st]) (s := s); auto.
  now rewrite run_steps_one.
Qed.

Lemma built_ids_tight s : built s -> ids_tight s.
Proof. revert s. apply built_ind; [intros x [=]|]. apply run_step_ids_tight. Qed.

Lemma built_guard_entries s : built s -> guard_entries_full s.
Proof.
  revert s. apply built_ind; [intros ids node []|]. apply run_step_guard_entries.
Qed.

Lemma built_keys_unique s : built s -> keys_unique s.
Proof.
  revert s. apply built_ind; [repeat split; constructor|]. apply run_step_keys_unique.
Qed.

(** What every built collection satisfies: the two adjacency indexes
    mirror the relation index, the relation list holds one relation per
    indexed pair, [dataset_ids] holds exactly the ids of the indexed
    relations, the guard index holds subtrees with children only, and no
    mapping holds a key twice. *)
Theorem built_invariants s :
  built s ->
  (forall a b c,
     Dict.get (_relations_idx s) (a, b) = Some c <->
     In (b, c) (get_or_empty (by_source s) a)) /\
  (forall a b c,
     Dict.get (_relations_idx s) (a, b) = Some c <->
     In (a, c) (get_or_empty (by_derived s) b)) /\
  (forall r,
     In r (relations s) <->
     Dict.get (_relations_idx s) (source_id r, derived_id r) = Some (classifier r)) /\
  (forall ids, List.length (relations_for s ids) <= 1) /\
  (forall x,
     IdSet.mem x (dataset_ids s) = true <->
     exists r, In r (relations s) /\ (x = source_id r \/ x = derived_id r)) /\
  guard_entries_full s /\
  keys_unique s.
Proof.
  intros Hbuilt.
  pose proof (built_consistent Hbuilt) as Hcons.
  pose proof (built_ids_tight Hbuilt) as Htight.
  pose proof (built_guard_entries Hbuilt) as Hfull.
  pose proof (built_keys_unique Hbuilt) as Hkeys.
  destruct Hcons as (Hwf & Hsync). pose proof Hwf as (Hsrc & Hder & Hknown).
  assert (Hlisted := fun r => relation_listed r Hsync).
  split; [intros; symmetry; apply Hsrc|]. split; [intros; symmetry; apply Hder|].
  split; [exact Hlisted|]. split.
  { intros ids. rewrite (Hsync ids). destruct (Dict.get (_relations_idx s) ids); simpl; lia. }
  split; [|auto]. intros x. split.
  - intros Hx. destruct (Htight x Hx) as ([a b] & c & Hget & Hends).
    exists {| classifier := c; source_id := a; derived_id := b |}. split; [|exact Hends].
    now apply Hlisted.
  - intros (r & Hin & Hends). apply Hlisted in Hin. apply Hknown in Hin.
    destruct Hends as [->| ->]; apply Hin.
Qed.

(** ** Operations only add *)

Lemma run_step_grows s st s' :
  run_step s st = Ok s' ->
  (forall ids node, Dict.get (_trees_idx s) ids = Some node ->
                    Dict.get (_trees_idx s') ids = Some node) /\
  (exists new, relations s' = relations s ++ new) /\
  (forall x, IdSet.mem x (dataset_ids s) = true -> IdSet.mem x (dataset_ids s') = true).
Proof.
  intros Hok. destruct st as [id_ h|ids c|ids node]; simpl in Hok.
  - apply merge_new_home_ok in Hok as [(_ & _ & _ & ->)|(_ & ->)];
      (split; [auto|split; [exists []; now rewrite app_nil_r|auto]]).
  - apply merge_new_lineage_relation_ok in Hok as [(_ & ->)|(_ & ->)].
    + split; [auto|split; [exists []; now rewrite app_nil_r|auto]].
    + split; [auto|split; [eexists; reflexivity|]].
      intros x Hx. unfold set_dataset_ids; cbn [dataset_ids].
      rewrite IdSetFacts.mem_update, Hx. reflexivity.
  - apply _merge_new_node_ok in Hok as [(_ & ->)|(_ & Hfresh & ->)];
      (split; [|split; [exists []; now rewrite app_nil_r|auto]]); auto.
    intros ids' node' Hget. unfold set_trees_idx; cbn [_trees_idx].
    apply get_set_fresh; [|assumption]. now apply DictFacts.mem_false.
Qed.

Lemma run_steps_grows l : forall s s',
  run_steps l s = Ok s' ->
  (forall ids node, Dict.get (_trees_idx s) ids = Some node ->
                    Dict.get (_trees_idx s') ids = Some node) /\
  (exists new, relations s' = relations s ++ new) /\
  (forall x, IdSet.mem x (dataset_ids s) = true -> IdSet.mem x (dataset_ids s') = true).
Proof.
  induction l as [|st l IH]; intros s s'.
  - intros [= <-]. split; [auto|split; [exists []; now rewrite app_nil_r|auto]].
  - rewrite run_steps_cons. intros Hok. unbind Hok as s1 Hst.
    destruct (run_step_grows _ _ Hst) as (Ht1 & (new1 & Hr1) & Hi1).
    destruct (IH _ _ Hok) as (Ht2 & (new2 & Hr2) & Hi2).
    split; [auto|split; [|auto]]. exists (new1 ++ new2). now rewrite Hr2, Hr1, app_assoc.
Qed.

(** No successful operation removes or changes what the collection
    records: every home, every classifier of the relation index and every
    entry of the guard index stays as it is, the relation list is only
    appended to, and no id leaves [dataset_ids]. *)
Theorem operations_only_add s op s' :
  perform s op = Ok s' ->
  (forall id_ h, Dict.get (_homes s) id_ = Some h -> Dict.get (_homes s') id_ = Some h) /\
  (forall ids c, Dict.get (_relations_idx s) ids = Some c ->
                 Dict.get (_relations_idx s') ids = Some c) /\
  (forall ids node, Dict.get (_trees_idx s) ids = Some node ->
                    Dict.get (_trees_idx s') ids = Some node) /\
  (exists new, relations s' = relations s ++ new) /\
  (forall x, IdSet.mem x (dataset_ids s) = true -> IdSet.mem x (dataset_ids s') = true).
Proof.
  intros Hok. apply perform_script in Hok.
  destruct (run_steps_extends _ _ Hok) as (Hh & Hr & _).
  destruct (run_steps_grows _ _ Hok) as (Ht & Hl & Hi). auto.
Qed.

(** ** Homes must agree *)

Lemma settled_agrees self self' id_ stored h :
  Dict.get (_homes self) id_ = Some stored -> truthy_home stored = true ->
  extends self self' -> home_settled self' id_ h -> h = stored.
Proof.
  intros Hget Htruthy (Hh & _) (stored' & Hget' & Hc).
  apply Hh in Hget. rewrite Hget in Hget'. injection Hget' as <-.
  rewrite Htruthy, andb_true_l in Hc. apply negb_false_iff, keqb_eq in Hc. congruence.
Qed.

Lemma run_steps_homes_agree l s s' id_ stored h :
  Dict.get (_homes s) id_ = Some stored -> truthy_home stored = true ->
  run_steps l s = Ok s' -> In (MergeHome id_ h) l -> h = stored.
Proof.
  intros Hget Htruthy Hok Hin.
  pose proof (run_steps_done _ _ Hok) as Hdone. rewrite Forall_forall in Hdone.
  apply Hdone in Hin. simpl in Hin.
  eapply settled_agrees; eauto. eapply run_steps_extends; eauto.
Qed.

(** Once a non-empty home is recorded for an id, merging any other home
    for it raises, a missing home included: [merge_new_home] raises the
    inconsistent-homes exception, and [merge_tree] and [merge] succeed
    only when every home they carry for that id is the recorded one. *)
Theorem homes_must_agree self id_ stored :
  Dict.get (_homes self) id_ = Some stored ->
  truthy_home stored = true ->
  (forall h, h <> stored ->
     merge_new_home self id_ h =
     Raise (InconsistentLineageException (InconsistentHomes id_))) /\
  (forall tree parent_node self' h,
     merge_tree self tree parent_node 0 = Ok self' ->
     In (id_, h) (tree_nodes tree) -> h = stored) /\
  (forall pool self' h,
     merge self pool = Ok self' -> In (id_, h) (_homes pool) -> h = stored).
Proof.
  intros Hget Htruthy. split; [|split].
  - intros h Hne. unfold merge_new_home. rewrite Hget, Htruthy.
    assert (keqb stored h = false) as -> by (apply keqb_neq; congruence). reflexivity.
  - intros tree parent_node self' h Hok Hin. apply merge_tree_script in Hok.
    change (depth_budget parent_node 0) with (@None nat) in Hok.
    eapply run_steps_homes_agree; eauto. now apply script_homes_all.
  - intros pool self' h Hok Hin. rewrite merge_as_script in Hok.
    eapply run_steps_homes_agree; eauto. unfold pool_script.
    apply in_app_iff. left. apply in_map_iff. exists (id_, h). auto.
Qed.

(** ** Cloning a built collection *)

Lemma set_trees_idx_self c : set_trees_idx c (_trees_idx c) = c.
Proof. now destruct c. Qed.

Lemma set_homes_self c : set_homes c (_homes c) = c.
Proof. now destruct c. Qed.

Lemma check_passes s rel s' :
  merge_new_lineage_relation s rel = Ok s' ->
  Dict.get (_relations_idx s) (source_id rel, derived_id rel) = None ->
  forall s2,
    by_source s2 = by_source s -> by_derived s2 = by_derived s ->
    dataset_ids s2 = dataset_ids s ->
    (if IdSet.mem (source_id rel) (dataset_ids (index_relation s2 rel))
        || IdSet.mem (derived_id rel) (dataset_ids (index_relation s2 rel))
     then extract_tree (index_relation s2 rel) (derived_id rel) SOURCES ;;;
          extract_tree (index_relation s2 rel) (source_id rel) DERIVED ;;;
          Ok tt
     else Ok tt) = Ok tt.
Proof.
  intros Hok Hfresh s2 Hsrc Hder Hids. cbn [dataset_ids index_relation]. rewrite Hids.
  destruct (IdSet.mem (source_id rel) (dataset_ids s)
            || IdSet.mem (derived_id rel) (dataset_ids s)) eqn:Hknown; [|reflexivity].
  destruct (merge_new_lineage_relation_checked _ _ Hok Hfresh Hknown) as (H1 & H2).
  assert (Ha : forall d, adjacency (index_relation s2 rel) d =
                         adjacency (index_relation s rel) d).
  { intros d. destruct d; simpl; congruence. }
  assert (E1 : exists t, extract_tree (index_relation s2 rel) (derived_id rel) SOURCES = Ok t)
    by (apply extract_tree_good; now rewrite Ha).
  assert (E2 : exists t, extract_tree (index_relation s2 rel) (source_id rel) DERIVED = Ok t)
    by (apply extract_tree_good; now rewrite Ha).
  destruct E1 as (t1 & ->). destruct E2 as (t2 & ->). reflexivity.
Qed.

(** A relation merges the same whatever the homes and the guard index
    are. *)
Lemma merge_relation_transfer s rel s' homes trees :
  merge_new_lineage_relation s rel = Ok s' ->
  merge_new_lineage_relation (set_trees_idx (set_homes s homes) trees) rel =
  Ok (set_trees_idx (set_homes s' homes) trees).
Proof.
  intros Hok. pose proof Hok as Hinv.
  apply merge_new_lineage_relation_ok in Hinv as [(Hget & ->)|(Hfresh & ->)].
  - unfold merge_new_lineage_relation. cbn [_relations_idx set_trees_idx set_homes].
    now rewrite Hget, String.eqb_refl.
  - unfold merge_new_lineage_relation at 1. cbn [_relations_idx set_trees_idx set_homes].
    rewrite Hfresh. cbv zeta.
    rewrite (@check_passes s rel _ Hok Hfresh (set_trees_idx (set_homes s homes) trees))
      by reflexivity.
    reflexivity.
Qed.

Lemma replay_transfer idx : forall s s' homes trees,
  replay idx s = Ok s' ->
  replay idx (set_trees_idx (set_homes s homes) trees) =
  Ok (set_trees_idx (set_homes s' homes) trees).
Proof.
  unfold replay. induction idx as [|[ids c] idx IH]; intros s s' homes trees.
  - now intros [= <-].
  - rewrite !for_each_cons. cbn [fst snd]. intros Hok. unbind Hok as s1 Hst.
    unfold _merge_new_relation in *.
    rewrite (@merge_relation_transfer _ _ _ homes trees Hst). simpl. now apply IH.
Qed.

Lemma run_step_replayed s st s' : replayed s -> run_step s st = Ok s' -> replayed s'.
Proof.
  unfold replayed. intros Hre Hok. destruct st as [id_ h|ids c|ids node]; simpl in Hok.
  - apply merge_new_home_ok in Hok as [(_ & _ & _ & ->)|(_ & ->)]; [assumption|].
    cbn [_relations_idx _homes set_homes].
    apply replay_transfer with (homes := Dict.set (_homes s) id_ h) (trees := [])
      in Hre. exact Hre.
  - pose proof Hok as Hinv. unfold _merge_new_relation in Hinv.
    apply merge_new_lineage_relation_ok in Hinv as [(_ & ->)|(Hfresh & Heq)];
      [assumption|].
    cbn [source_id derived_id classifier] in Hfresh, Heq.
    replace (fst ids, snd ids) with ids in Hfresh by now destruct ids.
    assert (Hidx : _relations_idx s' = _relations_idx s ++ [(ids, c)]).
    { rewrite Heq. cbn [_relations_idx set_dataset_ids index_relation
                        source_id derived_id classifier].
      replace (fst ids, snd ids) with ids by now destruct ids.
      apply dict_set_fresh. now apply DictFacts.mem_false. }
    assert (Hhomes : _homes s' = _homes s) by now rewrite Heq.
    rewrite Hidx, Hhomes. unfold replay in *. rewrite for_each_app, Hre. simpl.
    unfold _merge_new_relation in *.
    apply merge_relation_transfer with (homes := _homes s) (trees := []) in Hok.
    rewrite set_homes_self in Hok. rewrite <- Hhomes, set_homes_self in Hok.
    cbn [fst snd]. now rewrite Hok.
  - apply _merge_new_node_ok in Hok as [(_ & ->)|(_ & _ & ->)]; assumption.
Qed.

Lemma built_replayed s : built s -> replayed s.
Proof. revert s. apply built_ind; [reflexivity|apply run_step_replayed]. Qed.

Lemma homes_loop c (l acc : dict UUID (option string)) :
  NoDup (Dict.keys (acc ++ l)) ->
  for_each (fun self item => merge_new_home self (fst item) (snd item)) l
    (set_homes c acc) = Ok (set_homes c (acc ++ l)).
Proof.
  revert acc. induction l as [|[k v] l IH]; intros acc Hnd.
  - now rewrite app_nil_r.
  - rewrite for_each_cons. cbn [fst snd]. unfold merge_new_home.
    cbn [_homes set_homes].
    assert (Hfresh : Dict.mem acc k = false).
    { destruct (Dict.mem acc k) eqn:E; [|reflexivity]. exfalso.
      apply DictFacts.mem_true in E as (w & Hw). apply DictFacts.get_In in Hw.
      unfold Dict.keys in Hnd. rewrite map_app in Hnd.
      apply (NoDup_app_disjoint _ _ k Hnd); [now apply (in_map fst) in Hw|now left]. }
    pose proof Hfresh as Hnone. apply DictFacts.mem_false in Hnone. rewrite Hnone.
    simpl. rewrite (dict_set_fresh _ _ _ Hfresh).
    change (set_homes (set_homes c acc) (acc ++ [(k, v)]))
      with (set_homes c (acc ++ [(k, v)])).
    rewrite IH by (now rewrite <- app_assoc). now rewrite <- app_assoc.
Qed.

Lemma trees_loop c (l acc : dict (UUID * UUID) LineageTree) :
  NoDup (Dict.keys (acc ++ l)) ->
  (forall ids node, In (ids, node) l -> got_grandchildren node = true) ->
  for_each (fun self item => _merge_new_node self (fst item) (snd item)) l
    (set_trees_idx c acc) = Ok (set_trees_idx c (acc ++ l)).
Proof.
  revert acc. induction l as [|[k v] l IH]; intros acc Hnd Hfull.
  - now rewrite app_nil_r.
  - rewrite for_each_cons. cbn [fst snd]. unfold _merge_new_node.
    rewrite (Hfull k v) by now left. cbn [_trees_idx set_trees_idx].
    assert (Hfresh : Dict.mem acc k = false).
    { destruct (Dict.mem acc k) eqn:E; [|reflexivity]. exfalso.
      apply DictFacts.mem_true in E as (w & Hw). apply DictFacts.get_In in Hw.
      unfold Dict.keys in Hnd. rewrite map_app in Hnd.
      apply (NoDup_app_disjoint _ _ k Hnd); [now apply (in_map fst) in Hw|now left]. }
    rewrite Hfresh. simpl. rewrite (dict_set_fresh _ _ _ Hfresh).
    change (set_trees_idx (set_trees_idx c acc) (acc ++ [(k, v)]))
      with (set_trees_idx c (acc ++ [(k, v)])).
    rewrite IH; [now rewrite <- app_assoc|now rewrite <- app_assoc|].
    intros ids node Hin. apply (Hfull ids node). now right.
Qed.

(** [LineageRelations(clone=c)] is an exact copy of [c], for every
    collection [c] built by the public operations. *)
Theorem clone_exact c :
  built c ->
  merge empty_relations c = Ok c /\ new_relations None 0 (Some c) = Ok c.
Proof.
  intros Hbuilt.
  assert (Hmerge : merge empty_relations c = Ok c).
  { destruct (built_keys_unique Hbuilt) as (Hh & _ & Ht).
    pose proof (built_guard_entries Hbuilt) as Hfull.
    pose proof (built_replayed Hbuilt) as Hre. unfold replayed, replay in Hre.
    unfold merge.
    change empty_relations with (set_homes empty_relations []) at 1.
    rewrite homes_loop by exact Hh. cbn [bind app]. rewrite Hre. cbn [bind].
    rewrite (trees_loop c (_trees_idx c) []) by assumption.
    cbn [app]. now rewrite set_trees_idx_self. }
  split; [exact Hmerge|]. unfold new_relations. now rewrite Hmerge.
Qed.

(** ** What merge_tree accepts *)

Lemma merge_tree_well_formed tree :
  forall self parent_node self',
    merge_tree self tree parent_node 0 = Ok self' ->
    forall n, In n (all_nodes tree) ->
      direction n = direction tree /\ exists l, child_datasets n = Ok l.
Proof.
  induction tree as [tree IH] using LineageTree_subtree_ind.
  intros self parent_node self' Hok n Hn.
  destruct (merge_tree_ok_inv _ _ _ _ Hok) as (Hids & Hchildren).
  rewrite all_nodes_unfold in Hn. destruct Hn as [<-|Hn]; [auto|].
  apply in_flat_map in Hn as (child & Hc & Hn).
  destruct (Hchildren child Hc) as (Hdir & Hrec).
  assert (Hplan : recursion_plan parent_node 0 = (true, 0%Z))
    by (destruct parent_node; reflexivity).
  rewrite Hplan in Hrec. destruct (Hrec eq_refl) as (s1 & s2 & Hchild).
  destruct (IH child Hc _ _ _ Hchild n Hn) as (Hdn & Hl). split; [congruence|assumption].
Qed.

(** [merge_tree] merges a whole tree only when every node has the
    direction of the root and no node's id shows up below that node;
    any other tree makes it raise. *)
Theorem merge_tree_accepts self tree parent_node :
  (forall self',
     merge_tree self tree parent_node 0 = Ok self' ->
     forall n, In n (all_nodes tree) ->
       direction n = direction tree /\ ~ below n (dataset_id n)) /\
  (forall n, In n (all_nodes tree) ->
     direction n <> direction tree \/ below n (dataset_id n) ->
     raised (merge_tree self tree parent_node 0)).
Proof.
  assert (Hok : forall self',
            merge_tree self tree parent_node 0 = Ok self' ->
            forall n, In n (all_nodes tree) ->
              direction n = direction tree /\ ~ below n (dataset_id n)).
  { intros self' Hok n Hn.
    destruct (merge_tree_well_formed _ _ _ Hok n Hn) as (Hdir & l & Hl).
    split; [assumption|]. apply (child_datasets_checked _ Hl). apply all_nodes_self. }
  split; [exact Hok|]. intros n Hn Hbad. apply merge_tree_not_ok_raises.
  intros self' Hok'. destruct (Hok _ Hok' n Hn) as (Hdir & Hbelow). tauto.
Qed.

(** ** The nodes of an extracted tree *)

Lemma extract_nodes self d fuel :
  forall root so_far t,
    extract_tree_fuel fuel self root d so_far = Ok t ->
    forall n, In n (all_nodes t) ->
      exists fuel' so_far',
        extract_tree_fuel (S fuel') self (dataset_id n) d so_far' = Ok n.
Proof.
  induction fuel as [|fuel IH]; intros root so_far t Hok n Hn; [discriminate|].
  rewrite all_nodes_unfold in Hn. destruct Hn as [<-|Hn].
  - pose proof (extract_content _ _ _ _ _ Hok) as (-> & _). eauto.
  - apply in_flat_map in Hn as (child & Hc & Hn).
    apply extract_ok_inv in Hok as (_ & ch & -> & _ & _ & Hchildren).
    apply subtrees_In in Hc as (items & c & l & [= <-] & Hitem & Hl).
    destruct (proj1 (Hchildren c child)) as (b & _ & Hb); eauto.
Qed.

(** Every node of an extracted tree has the requested direction, carries
    the home recorded for its id, lists under each classifier exactly the
    ids its own id is related to in that direction, and passes
    [child_datasets]. *)
Theorem extract_tree_nodes self root d t :
  extract_tree self root d = Ok t ->
  forall n, In n (all_nodes t) ->
    direction n = d /\
    home n = home_of self (dataset_id n) /\
    (exists l, child_datasets n = Ok l) /\
    exists ch,
      children n = Some ch /\
      forall b c,
        In (b, c) (get_or_empty (adjacency self d) (dataset_id n)) <->
        exists l child, In (c, l) ch /\ In child l /\ dataset_id child = b.
Proof.
  intros Hok n Hn. unfold extract_tree in Hok.
  pose proof (extract_well_formed _ _ _ _ _ Hok) as (_ & Hwf).
  rewrite Forall_forall in Hwf. destruct (Hwf n Hn) as (Hl & _).
  destruct (extract_nodes _ _ _ _ _ Hok n Hn) as (fuel' & so_far' & Hnode).
  pose proof (extract_content _ _ _ _ _ Hnode) as (_ & Hdir & _).
  apply extract_ok_inv in Hnode as (_ & ch & Heq & _ & Heach & Hchildren).
  split; [assumption|]. split; [now rewrite Heq|]. split; [assumption|].
  exists ch. split; [now rewrite Heq|]. intros b c. split.
  - intros Hin. destruct (Heach b c Hin) as (child & Hchild).
    destruct (proj2 (Hchildren c child)) as (l & Hitem & Hcl); [eauto|].
    exists l, child. repeat split; auto.
    now apply extract_content in Hchild as (-> & _).
  - intros (l & child & Hitem & Hcl & <-).
    destruct (proj1 (Hchildren c child)) as (b & Hin & Hchild); [eauto|].
    now apply extract_content in Hchild as (-> & _).
Qed.

(** ** When a new relation is accepted *)

Lemma reach_added G G' A B x y :
  (forall a b, step G' a b -> step G a b \/ (a = A /\ b = B)) ->
  reach G' x y -> reach G x y \/ (reach G x A /\ reach G B y).
Proof.
  intros Hsub. induction 1 as [x|x m y Hs _ IH]; [left; constructor|].
  destruct (Hsub _ _ Hs) as [Hold|(-> & ->)].
  - destruct IH as [IH|(IH1 & IH2)].
    + left. now apply reach_hop with (b := m).
    + right. split; [now apply reach_hop with (b := m)|assumption].
  - right. split; [constructor|]. destruct IH as [IH|(_ & IH)]; assumption.
Qed.

(** Adding one hop from [A] to [B] to an index without cycles makes a
    cycle only when [A] could be reached from [B]. *)
Lemma no_cycle_added G G' A B :
  (forall a b, step G' a b -> step G a b \/ (a = A /\ b = B)) ->
  (forall y, ~ returns G y) -> ~ reach G B A ->
  forall y, ~ returns G' y.
Proof.
  intros Hsub Hsound Hfar y (m & Hs & Hr).
  eapply reach_added in Hr; [|exact Hsub]. destruct (Hsub _ _ Hs) as [Hold|(-> & ->)].
  - destruct Hr as [Hr|(Hr1 & Hr2)].
    + apply (Hsound y). now exists m.
    + apply Hfar. apply reach_trans with (b := y); [assumption|].
      now apply reach_hop with (b := m).
  - apply Hfar. destruct Hr as [Hr|(Hr & _)]; assumption.
Qed.

Lemma derives_mono l l' a b :
  (forall r, In r l -> In r l') -> derives l a b -> derives l' a b.
Proof.
  intros Hsub. induction 1 as [r Hin|a b c _ IH1 _ IH2].
  - apply derives_hop. auto.
  - now apply derives_trans with (b := b).
Qed.

Lemma sound_no_returns s : sound s -> forall d y, ~ returns (adjacency s d) y.
Proof. intros Hsound d y. apply (Hsound d y y). constructor. Qed.

Lemma reach_derives s a b :
  consistent s -> a <> b -> reach (by_source s) a b -> derives (relations s) a b.
Proof.
  intros Hcons Hne Hreach. apply derives_returns; [assumption|].
  apply reach_inv in Hreach as [?|Hreach]; [contradiction|exact Hreach].
Qed.

(** A relation between two different ids that is not yet indexed is
    accepted by a consistent, acyclic collection exactly when its source
    is not already derived from its derived id; otherwise the cycle check
    raises. *)
Theorem relation_accepted_exactly self A B c :
  consistent self -> acyclic self -> A <> B ->
  Dict.get (_relations_idx self) (A, B) = None ->
  let rel := {| classifier := c; source_id := A; derived_id := B |} in
  ((exists self', merge_new_lineage_relation self rel = Ok self') <->
   ~ derives (relations self) B A) /\
  (derives (relations self) B A ->
   exists x, merge_new_lineage_relation self rel =
             Raise (InconsistentLineageException (GraphNotAcyclic x))).
Proof.
  intros Hcons Hacyclic Hne Hfresh rel.
  assert (Honly : forall self', merge_new_lineage_relation self rel = Ok self' ->
                                ~ derives (relations self) B A).
  { intros self' Hok Hback.
    destruct (@merge_relation_acyclic self rel self' Hcons Hacyclic Hne Hok)
      as (_ & Hacyclic').
    apply merge_new_lineage_relation_ok in Hok as [(Hget & _)|(_ & ->)];
      [cbn [rel source_id derived_id] in Hget; congruence|].
    apply (Hacyclic' A). apply derives_trans with (b := B).
    - apply (derives_hop _ rel). cbn [relations set_dataset_ids index_relation].
      apply in_app_iff. right. now left.
    - eapply derives_mono; [|exact Hback]. intros r Hr.
      cbn [relations set_dataset_ids index_relation]. apply in_app_iff. now left. }
  assert (Hif : ~ derives (relations self) B A ->
                exists self', merge_new_lineage_relation self rel = Ok self').
  { intros Hfar. pose proof Hcons as (Hwf & _).
    assert (Hsound : sound self) by now apply sound_acyclic.
    assert (Hfar1 : ~ reach (by_source self) B A).
    { intros Hr. apply Hfar. apply reach_derives; auto. }
    assert (Hfar2 : ~ reach (by_derived self) A B).
    { intros Hr. apply Hfar1. eapply reach_reverse; [|exact Hr].
      intros x y. now apply step_by_derived. }
    assert (E1 : exists t, extract_tree (index_relation self rel) B SOURCES = Ok t).
    { apply extract_tree_good. intros y _.
      apply (@no_cycle_added (by_source self) _ A B); auto.
      - intros a b. cbn [adjacency index_relation by_source rel source_id derived_id
                         classifier]. apply step_index_edge.
      - apply (sound_no_returns Hsound SOURCES). }
    assert (E2 : exists t, extract_tree (index_relation self rel) A DERIVED = Ok t).
    { apply extract_tree_good. intros y _.
      apply (@no_cycle_added (by_derived self) _ B A); auto.
      - intros a b. cbn [adjacency index_relation by_derived rel source_id derived_id
                         classifier]. apply step_index_edge.
      - apply (sound_no_returns Hsound DERIVED). }
    unfold merge_new_lineage_relation. cbn [rel source_id derived_id classifier].
    rewrite Hfresh. cbv zeta. fold rel.
    destruct E1 as (t1 & E1). destruct E2 as (t2 & E2).
    cbn [rel source_id derived_id] in E1, E2. rewrite E1, E2.
    destruct (_ || _); simpl; eauto. }
  split; [split; [intros (self' & Hok); eauto|exact Hif]|].
  intros Hback.
  assert (Hnot : forall self', merge_new_lineage_relation self rel <> Ok self')
    by (intros self' Hok; exact (Honly _ Hok Hback)).
  revert Hnot. unfold merge_new_lineage_relation.
  cbn [rel source_id derived_id classifier]. rewrite Hfresh. cbv zeta. fold rel.
  destruct (extract_tree_outcomes (index_relation self rel) B SOURCES)
    as [(t1 & E1)|(x & E1)]; rewrite E1.
  - destruct (extract_tree_outcomes (index_relation self rel) A DERIVED)
      as [(t2 & E2)|(x & E2)]; rewrite E2.
    + destruct (_ || _); simpl; intros Hnot; exfalso; eapply Hnot; reflexivity.
    + destruct (_ || _); simpl; [eauto|]. intros Hnot; exfalso; eapply Hnot; reflexivity.
  - destruct (_ || _); simpl; [eauto|]. intros Hnot; exfalso; eapply Hnot; reflexivity.
Qed.

(** ** Merging to a plan *)

Section Planned.
Variable link : UUID * UUID -> string -> Prop.
Variable home_for : UUID -> option string.
Hypothesis link_fun : forall ids c c', link ids c -> link ids c' -> c = c'.
Hypothesis link_sound :
  forall s, well_indexed s ->
    (forall ids c, Dict.get (_relations_idx s) ids = Some c -> link ids c) -> sound s.

Lemma planned_step_keeps s st s' :
  planned link home_for s -> planned_step link home_for st ->
  run_step s st = Ok s' -> planned link home_for s'.
Proof.
  intros (Hwf & Hhomes & Hidx) Hst Hok. split; [|split].
  - eapply run_step_well_indexed; eauto.
  - intros id_ h Hget. apply (run_step_homes _ _ Hok) in Hget as [Hget|(_ & ->)]; auto.
  - intros ids c Hget. apply (run_step_relations _ _ Hok) in Hget as [Hget| ->]; auto.
Qed.

Lemma planned_progress s st :
  planned link home_for s -> planned_step link home_for st ->
  (forall k, In k (guard_key st) -> Dict.mem (_trees_idx s) k = false) ->
  exists s', run_step s st = Ok s'.
Proof.
  intros Hin Hst Hguard. pose proof Hin as (Hwf & Hhomes & Hidx).
  destruct st as [id_ h|ids c|ids node]; simpl in *.
  - unfold merge_new_home. destruct (Dict.get (_homes s) id_) as [stored|] eqn:E; [|eauto].
    apply Hhomes in E. subst. rewrite keqb_refl. simpl. rewrite andb_false_r. eauto.
  - unfold _merge_new_relation, merge_new_lineage_relation.
    cbn [source_id derived_id classifier].
    replace (fst ids, snd ids) with ids by now destruct ids.
    destruct (Dict.get (_relations_idx s) ids) as [known|] eqn:E.
    + apply Hidx in E. rewrite (link_fun E Hst), String.eqb_refl. simpl. eauto.
    + cbv zeta.
      set (rel := {| classifier := c; source_id := fst ids; derived_id := snd ids |}).
      set (s1 := set_dataset_ids (index_relation s rel)
                   (IdSet.update (dataset_ids s) (IdSet.add (snd ids) [fst ids]))).
      assert (Hsound : sound s1).
      { apply link_sound.
        - apply index_relation_well_indexed; auto.
          + cbn [source_id derived_id rel].
            now replace (fst ids, snd ids) with ids by now destruct ids.
          + intros x. apply (new_ids_mem s rel x).
        - intros ids' c'. unfold s1, set_dataset_ids, index_relation.
          cbn [_relations_idx rel source_id derived_id classifier].
          replace (fst ids, snd ids) with ids by now destruct ids.
          rewrite DictFacts.get_set. destruct (keqb_spec ids' ids) as [->|_]; auto.
          now intros [= <-]. }
      assert (Hext : forall x d', exists t, extract_tree (index_relation s rel) x d' = Ok t).
      { intros x d'. apply extract_tree_good.
        change (adjacency (index_relation s rel) d') with (adjacency s1 d'). apply Hsound. }
      destruct (Hext (snd ids) SOURCES) as (t1 & ->).
      destruct (Hext (fst ids) DERIVED) as (t2 & ->).
      destruct (_ || _); simpl; eauto.
  - unfold _merge_new_node. destruct (got_grandchildren node); [|eauto].
    rewrite Hguard by now left. eauto.
Qed.

(** A run of merges that follow the plan succeeds unless it registers a
    guard key twice. *)
Lemma run_planned l : forall s,
  planned link home_for s -> Forall (planned_step link home_for) l ->
  NoDup (guard_keys l) ->
  (forall k, In k (guard_keys l) -> Dict.mem (_trees_idx s) k = false) ->
  exists s', run_steps l s = Ok s' /\ planned link home_for s'.
Proof.
  induction l as [|st l IH]; intros s Hin Hall Hnd Hfresh; [now exists s|].
  inversion Hall as [|? ? Hst Hrest]; subst. rewrite guard_keys_cons in *.
  destruct (@planned_progress s st Hin Hst) as (s1 & Hok).
  { intros k Hk. apply Hfresh, in_app_iff. now left. }
  rewrite run_steps_cons, Hok. simpl. apply IH.
  - eapply planned_step_keeps; eauto.
  - assumption.
  - eapply NoDup_app_remove_l; eauto.
  - intros k Hk. destruct (Dict.mem (_trees_idx s1) k) eqn:E; [|reflexivity].
    apply (run_step_guard _ _ Hok) in E as [E|E].
    + rewrite Hfresh in E by (apply in_app_iff; now right). discriminate.
    + exfalso. eapply NoDup_app_disjoint; eauto.
Qed.

(** A tree that passes the checks of [merge_tree] and whose script
    follows the plan merges into any collection that does, unless a
    guard key is registered twice. *)
Lemma merge_tree_planned tree s :
  planned link home_for s ->
  Forall well_formed_node (all_nodes tree) ->
  Forall (planned_step link home_for) (merge_script None tree) ->
  NoDup (guarded_links tree) ->
  (forall k, In k (guarded_links tree) -> Dict.mem (_trees_idx s) k = false) ->
  exists s', merge_tree s tree None 0 = Ok s' /\
             run_steps (merge_script None tree) s = Ok s'.
Proof.
  intros Hs Hwf Hplan Hnd Hfresh. rewrite <- guard_keys_script in Hnd, Hfresh.
  destruct (run_planned Hs Hplan Hnd Hfresh) as (s' & Hok & _).
  exists s'. split; [|exact Hok].
  rewrite (@merge_tree_runs_script (planned link home_for)); auto.
  - intros s0 x d Hs0. apply extract_tree_good. destruct Hs0 as (Hwf0 & _ & Hidx0).
    now apply (link_sound Hwf0 Hidx0).
  - intros s0 st s0' H0 Hin. apply planned_step_keeps; [exact H0|].
    rewrite Forall_forall in Hplan. auto.
Qed.
End Planned.

(** ** Trees made by from_eo3_doc *)

Lemma fold_set_fresh {V W} (f : V -> W) (l : dict string V) : forall acc,
  NoDup (Dict.keys (acc ++ map (fun item => (fst item, f (snd item))) l)) ->
  fold_left (fun acc item => Dict.set acc (fst item) (f (snd item))) l acc =
  acc ++ map (fun item => (fst item, f (snd item))) l.
Proof.
  induction l as [|[k v] l IH]; intros acc Hnd; simpl; [now rewrite app_nil_r|].
  assert (Hfresh : Dict.mem acc k = false).
  { destruct (Dict.mem acc k) eqn:E; [|reflexivity]. exfalso.
    apply DictFacts.mem_true in E as (w & Hw). apply DictFacts.get_In in Hw.
    unfold Dict.keys in Hnd. rewrite map_app in Hnd.
    apply (NoDup_app_disjoint _ _ k Hnd); [now apply (in_map fst) in Hw|now left]. }
  rewrite (dict_set_fresh _ _ _ Hfresh), IH.
  - now rewrite <- app_assoc.
  - now rewrite <- app_assoc.
Qed.

Lemma from_eo3_doc_children dsid d sources home :
  NoDup (Dict.keys sources) ->
  children (from_eo3_doc dsid d (Some sources) home) =
  Some (map (fun item => (fst item, map (eo3_leaf d home) (snd item))) sources).
Proof.
  intros Hnd. unfold from_eo3_doc. cbn [children]. f_equal.
  apply (fold_set_fresh (map (eo3_leaf d home)) sources []).
  cbn [app]. unfold Dict.keys in *. rewrite map_map. exact Hnd.
Qed.

Section FromEo3Doc.
Variables (dsid : UUID) (d : LineageDirection) (sources : dict string (list UUID))
          (home : option string).
Hypothesis sources_keys : NoDup (Dict.keys sources).

Let t := from_eo3_doc dsid d (Some sources) home.

Lemma eo3_ids_In der : In der (eo3_ids sources) <-> exists c l, In (c, l) sources /\ In der l.
Proof.
  unfold eo3_ids. rewrite in_flat_map. split.
  - intros ([c l] & Hitem & Hin). eauto.
  - intros (c & l & Hitem & Hin). exists (c, l). auto.
Qed.

Lemma eo3_listed c child :
  (exists items l, children t = Some items /\ In (c, l) items /\ In child l) <->
  exists l der, In (c, l) sources /\ In der l /\ child = eo3_leaf d home der.
Proof.
  unfold t. rewrite from_eo3_doc_children by assumption. split.
  - intros (items & l & [= <-] & Hitem & Hin).
    apply in_map_iff in Hitem as ([c0 l0] & [= -> <-] & Hitem).
    apply in_map_iff in Hin as (der & <- & Hin). eauto.
  - intros (l & der & Hitem & Hin & ->). eexists. exists (map (eo3_leaf d home) l).
    split; [reflexivity|]. split; [|now apply in_map].
    apply in_map_iff. exists (c, l). auto.
Qed.

Lemma eo3_subtrees child :
  In child (subtrees t) <->
  exists der, In der (eo3_ids sources) /\ child = eo3_leaf d home der.
Proof.
  rewrite subtrees_In. split.
  - intros (items & c & l & Hch & Hitem & Hin).
    destruct (proj1 (eo3_listed c child)) as (l0 & der & Hl0 & Hder & ->); [eauto|].
    exists der. split; [apply eo3_ids_In; eauto|reflexivity].
  - intros (der & Hin & ->). apply eo3_ids_In in Hin as (c & l & Hitem & Hin).
    destruct (proj2 (eo3_listed c (eo3_leaf d home der))) as (items & l' & H1 & H2 & H3);
      [eauto|].
    exists items, c, l'. auto.
Qed.

Lemma eo3_edges ids c : In (ids, c) (tree_edges t) <-> eo3_link dsid d sources ids c.
Proof.
  rewrite tree_edges_In. unfold eo3_link. split.
  - intros (items & c0 & l & child & Hch & Hitem & Hin & Hedge).
    destruct (proj1 (eo3_listed c0 child)) as (l0 & der & Hl0 & Hder & ->); [eauto|].
    destruct Hedge as [[= -> ->]|[]]. exists l0, der. repeat split; auto;
      unfold edge_ids, t; cbn; now destruct d.
  - intros (l & der & Hitem & Hin & ->).
    destruct (proj2 (eo3_listed c (eo3_leaf d home der))) as (items & l' & H1 & H2 & H3);
      [eauto|].
    exists items, c, l', (eo3_leaf d home der). repeat split; auto; left; f_equal;
      unfold edge_ids, t; cbn; now destruct d.
Qed.

Lemma eo3_nodes id_ h :
  In (id_, h) (tree_nodes t) <->
  (id_ = dsid /\ h = None) \/ (In id_ (eo3_ids sources) /\ h = home).
Proof.
  rewrite tree_nodes_In. split.
  - intros [[= -> ->]|(items & c & l & child & Hch & Hitem & Hin & Hn)]; [now left|].
    destruct (proj1 (eo3_listed c child)) as (l0 & der & Hl0 & Hder & ->); [eauto|].
    destruct Hn as [[= <- <-]|[]]. right. split; [apply eo3_ids_In; eauto|reflexivity].
  - intros [(-> & ->)|(Hin & ->)]; [now left|]. right.
    apply eo3_ids_In in Hin as (c & l & Hitem & Hin).
    destruct (proj2 (eo3_listed c (eo3_leaf d home id_))) as (items & l' & H1 & H2 & H3);
      [eauto|].
    exists items, c, l', (eo3_leaf d home id_). repeat split; auto; now left.
Qed.

Lemma eo3_all_nodes n :
  In n (all_nodes t) ->
  n = t \/ exists der, In der (eo3_ids sources) /\ n = eo3_leaf d home der.
Proof.
  rewrite all_nodes_unfold. intros [<-|Hn]; [now left|]. right.
  apply in_flat_map in Hn as (child & Hc & Hn).
  apply eo3_subtrees in Hc as (der & Hder & ->). exists der. split; [assumption|].
  destruct Hn as [<-|[]]. reflexivity.
Qed.

Lemma eo3_below x : below t x <-> In x (eo3_ids sources).
Proof.
  unfold below. split.
  - intros (child & Hc & Hx). apply eo3_subtrees in Hc as (der & Hder & ->).
    destruct Hx as [<-|[]]. exact Hder.
  - intros Hx. exists (eo3_leaf d home x). split; [apply eo3_subtrees; eauto|now left].
Qed.

Lemma eo3_well_formed :
  ~ In dsid (eo3_ids sources) -> Forall well_formed_node (all_nodes t).
Proof.
  intros Hroot. apply Forall_forall. intros n Hn.
  apply eo3_all_nodes in Hn as [->|(der & Hder & ->)].
  - split.
    + apply child_datasets_progress.
      * intros child Hc. apply eo3_subtrees in Hc as (der & _ & ->). now exists [].
      * intros Hb. apply eo3_below in Hb. contradiction.
    + intros child Hc. apply eo3_subtrees in Hc as (der & _ & ->). reflexivity.
  - split; [now exists []|intros child []].
Qed.

Lemma eo3_no_guard : guarded_links t = [].
Proof.
  destruct (guarded_links t) as [|k ks] eqn:E; [reflexivity|]. exfalso.
  assert (Hin : In k (guarded_links t)) by (rewrite E; now left).
  rewrite <- guard_keys_script in Hin. apply in_flat_map in Hin as (st & Hst & Hk).
  apply merge_script_In in Hst; [|discriminate].
  destruct Hst as [->|(items & c & l & child & Hch & Hitem & Hin & Hst)]; [destruct Hk|].
  destruct (proj1 (eo3_listed c child)) as (l0 & der & _ & _ & ->); [eauto|].
  destruct Hst as [->|[->|Hst]]; try destruct Hk.
  change (budget_pred None) with (@None nat) in Hst.
  destruct Hst as [<-|[]]. destruct Hk.
Qed.

(** The home the tree carries for an id. *)
Let home_for (id_ : UUID) : option string := if keqb id_ dsid then None else home.

Lemma eo3_plan :
  ~ In dsid (eo3_ids sources) ->
  Forall (planned_step (eo3_link dsid d sources) home_for) (merge_script None t).
Proof.
  intros Hroot. apply Forall_forall. intros [id_ h|ids c|ids node] Hin; simpl; [| |exact I].
  - apply script_homes_all, eo3_nodes in Hin as [(-> & ->)|(Hin & ->)]; unfold home_for.
    + now rewrite keqb_refl.
    + destruct (keqb_spec id_ dsid) as [->|_]; [contradiction|reflexivity].
  - now apply script_relations_all, eo3_edges in Hin.
Qed.

Lemma two_sided_no_return G (P : UUID -> Prop) :
  (forall x y, step G x y -> P x /\ ~ P y) -> forall y, ~ returns G y.
Proof.
  intros Hside y (m & Hs & Hr). destruct (Hside _ _ Hs) as (Hy & Hm).
  apply reach_inv in Hr as [->|(m' & Hs' & _)]; [contradiction|].
  destruct (Hside _ _ Hs') as (Hm' & _). contradiction.
Qed.

Lemma eo3_sound s :
  ~ In dsid (eo3_ids sources) ->
  well_indexed s ->
  (forall ids c, Dict.get (_relations_idx s) ids = Some c -> eo3_link dsid d sources ids c) ->
  sound s.
Proof.
  intros Hroot Hwf Hidx d' x y _. revert y.
  assert (Hder : forall der l c, In (c, l) sources -> In der l -> der <> dsid).
  { intros der l c Hitem Hin ->. apply Hroot. apply eo3_ids_In. eauto. }
  destruct (direction_eqb d' d) eqn:Hd.
  - apply direction_eqb_eq in Hd. subst d'.
    apply two_sided_no_return with (P := fun x => x = dsid).
    intros a b Hs. apply step_indexed in Hs as (c & Hget); [|assumption].
    apply Hidx in Hget as (l & der & Hitem & Hin & Heq).
    apply orient_inj in Heq as (-> & ->). split; [reflexivity|eauto].
  - assert (Hopp : d' = opposite d) by (destruct d, d'; simpl in *; congruence).
    subst d'. apply two_sided_no_return with (P := fun x => x <> dsid).
    intros a b Hs. apply step_indexed in Hs as (c & Hget); [|assumption].
    rewrite orient_opposite in Hget.
    apply Hidx in Hget as (l & der & Hitem & Hin & Heq).
    apply orient_inj in Heq as (-> & ->). split; [eauto|tauto].
Qed.

Lemma eo3_link_fun :
  eo3_one_classifier sources ->
  forall ids c c', eo3_link dsid d sources ids c -> eo3_link dsid d sources ids c' -> c = c'.
Proof.
  intros Hone ids c c' (l & der & Hitem & Hin & ->) (l' & der' & Hitem' & Hin' & Heq).
  apply orient_inj in Heq as (_ & <-). eapply Hone; eauto.
Qed.

Lemma eo3_merges :
  ~ In dsid (eo3_ids sources) -> eo3_one_classifier sources ->
  exists s, merge_tree empty_relations t None 0 = Ok s /\
            run_steps (merge_script None t) empty_relations = Ok s.
Proof.
  intros Hroot Hone.
  apply (@merge_tree_planned (eo3_link dsid d sources) home_for).
  - now apply eo3_link_fun.
  - intros s. now apply eo3_sound.
  - split; [apply empty_relations_well_indexed|]. split; simpl; discriminate.
  - now apply eo3_well_formed.
  - now apply eo3_plan.
  - rewrite eo3_no_guard. constructor.
  - rewrite eo3_no_guard. intros k [].
Qed.

Lemma eo3_only :
  forall s, merge_tree empty_relations t None 0 = Ok s ->
            ~ In dsid (eo3_ids sources) /\ eo3_one_classifier sources.
Proof.
  intros s Hok. split.
  - destruct (merge_tree_ok_inv _ _ _ _ Hok) as ((l & Hl) & _).
    intros Hin. apply eo3_below in Hin.
    apply (@child_datasets_checked t l Hl t (all_nodes_self t)). exact Hin.
  - apply merge_tree_script in Hok. change (depth_budget None 0) with (@None nat) in Hok.
    intros c c' l l' der Hitem Hitem' Hin Hin'.
    assert (H1 : Dict.get (_relations_idx s) (orient d dsid der) = Some c).
    { apply (run_steps_relations _ _ Hok). right. apply script_relations_all, eo3_edges.
      exists l, der. auto. }
    assert (H2 : Dict.get (_relations_idx s) (orient d dsid der) = Some c').
    { apply (run_steps_relations _ _ Hok). right. apply script_relations_all, eo3_edges.
      exists l', der. auto. }
    congruence.
Qed.

Lemma eo3_result s :
  merge_tree empty_relations t None 0 = Ok s ->
  (forall ids c, Dict.get (_relations_idx s) ids = Some c <-> eo3_link dsid d sources ids c) /\
  (forall id_ h, Dict.get (_homes s) id_ = Some h <->
                 (id_ = dsid /\ h = None) \/ (In id_ (eo3_ids sources) /\ h = home)).
Proof.
  intros Hok. destruct (eo3_only Hok) as (Hroot & _).
  apply merge_tree_script in Hok. change (depth_budget None 0) with (@None nat) in Hok.
  split.
  - intros ids c. rewrite (run_steps_relations _ _ Hok ids c), script_relations_all, eo3_edges.
    split; [intros [[=]|?]; assumption|auto].
  - assert (Hto : forall id_ h, Dict.get (_homes s) id_ = Some h ->
                    (id_ = dsid /\ h = None) \/ (In id_ (eo3_ids sources) /\ h = home)).
    { intros id_ h Hget. apply (run_steps_homes _ _ Hok) in Hget as [[=]|(_ & Hin)].
      now apply script_homes_all, eo3_nodes in Hin. }
    intros id_ h. split; [apply Hto|]. intros Hnode.
    assert (Hmem : Dict.mem (_homes s) id_ = true).
    { eapply run_steps_homes_mem; [exact Hok|]. apply script_homes_all, eo3_nodes.
      exact Hnode. }
    apply DictFacts.mem_true in Hmem as (h' & Hget). rewrite Hget. f_equal.
    apply Hto in Hget. destruct Hnode as [(-> & ->)|(Hin & ->)];
      destruct Hget as [(Heq & ->)|(Hin' & ->)]; try reflexivity; try contradiction.
    subst. contradiction.
Qed.
End FromEo3Doc.

(** [merge_tree] of the tree [from_eo3_doc] makes of a dataset and its
    sources, into the empty collection: it succeeds exactly when the
    dataset is not one of its own sources and no source is listed under two
    classifiers; it then records one relation per listed source, a null
    home for the dataset itself and [home] for every source; merging the
    tree again changes nothing; and with [sources=None] only the null home
    of the dataset is recorded. *)
Theorem from_eo3_doc_merge dsid d sources home :
  NoDup (Dict.keys sources) ->
  let t := from_eo3_doc dsid d (Some sources) home in
  ((exists s, merge_tree empty_relations t None 0 = Ok s) <->
   ~ In dsid (eo3_ids sources) /\ eo3_one_classifier sources) /\
  (forall s,
     merge_tree empty_relations t None 0 = Ok s ->
     (forall ids c, Dict.get (_relations_idx s) ids = Some c <->
                    eo3_link dsid d sources ids c) /\
     (forall id_ h, Dict.get (_homes s) id_ = Some h <->
                    (id_ = dsid /\ h = None) \/ (In id_ (eo3_ids sources) /\ h = home))) /\
  (forall self max_depth self1,
     well_indexed self ->
     merge_tree self t None max_depth = Ok self1 ->
     merge_tree self1 t None max_depth = Ok self1) /\
  (forall max_depth,
     merge_tree empty_relations (from_eo3_doc dsid d None home) None max_depth =
     Ok (set_homes empty_relations [(dsid, None)])).
Proof.
  intros Hkeys t. split; [|split; [|split]].
  - split.
    + intros (s & Hok). now apply (@eo3_only dsid d sources home Hkeys s).
    + intros (Hroot & Hone).
      destruct (@eo3_merges dsid d sources home Hkeys Hroot Hone) as (s & Hok & _). eauto.
  - intros s. now apply (@eo3_result dsid d sources home Hkeys s).
  - intros self max_depth self1 Hwf. apply merge_shallow_tree_again; [exact Hwf|].
    intros child Hc. apply (@eo3_subtrees dsid d sources home Hkeys) in Hc as (der & _ & ->).
    reflexivity.
  - intros max_depth. destruct d; reflexivity.
Qed.

Lemma from_eo3_doc_merge_witness :
  (exists s,
     merge_tree empty_relations
       (from_eo3_doc 1%N SOURCES (Some [("nbar"%string, [2%N])]) (Some "here"%string))
       None 0 = Ok s) /\
  forall self max_depth self1,
    well_indexed self ->
    merge_tree self
      (from_eo3_doc 1%N SOURCES (Some [("nbar"%string, [2%N])]) (Some "here"%string))
      None max_depth = Ok self1 ->
    merge_tree self1
      (from_eo3_doc 1%N SOURCES (Some [("nbar"%string, [2%N])]) (Some "here"%string))
      None max_depth = Ok self1.
Proof.
  assert (Hkeys : NoDup (Dict.keys [("nbar"%string, [2%N])]))
    by (repeat constructor; intros []).
  destruct (@from_eo3_doc_merge 1%N SOURCES _ (Some "here"%string) Hkeys)
    as (Hiff & _ & Hagain & _).
  split; [|exact Hagain]. apply Hiff. split.
  - simpl. intros [[=]|[]].
  - intros c c' l l' der [[= <- <-]|[]] [[= <- <-]|[]] _ _. reflexivity.
Defined.

(** ** Every operation returns or raises the lineage exception *)










(** ** What a merge of a collection yields *)

Lemma pool_script_relation pool ids c :
  In (MergeRelation ids c) (pool_script pool) <-> In (ids, c) (_relations_idx pool).
Proof.
  unfold pool_script. rewrite !in_app_iff, !in_map_iff. split.
  - intros [(x & [=] & _)|[([ids' c'] & [= -> ->] & Hin)|(x & [=] & _)]]. exact Hin.
  - intros Hin. right. left. exists (ids, c). auto.
Qed.

Lemma pool_script_home pool id_ h :
  In (MergeHome id_ h) (pool_script pool) <-> In (id_, h) (_homes pool).
Proof.
  unfold pool_script. rewrite !in_app_iff, !in_map_iff. split.
  - intros [([id' h'] & [= -> ->] & Hin)|[(x & [=] & _)|(x & [=] & _)]]. exact Hin.
  - intros Hin. left. exists (id_, h). auto.
Qed.

Lemma pool_script_guard pool k :
  In k (guard_keys (pool_script pool)) <->
  exists node, In (k, node) (_trees_idx pool) /\ got_grandchildren node = true.
Proof.
  unfold guard_keys. rewrite in_flat_map. split.
  - intros (st & Hst & Hk). unfold pool_script in Hst.
    rewrite !in_app_iff, !in_map_iff in Hst.
    destruct Hst as [(x & <- & _)|[(x & <- & _)|([ids node] & <- & Hin)]];
      try destruct Hk.
    cbn [guard_key fst snd] in Hk. destruct (got_grandchildren node) eqn:Hgot; [|destruct Hk].
    destruct Hk as [<-|[]]. eauto.
  - intros (node & Hin & Hgot). exists (MergeNode k node). split.
    + unfold pool_script. rewrite !in_app_iff. right. right.
      apply in_map_iff. exists (k, node). auto.
    + simpl. rewrite Hgot. now left.
Qed.

Lemma run_steps_guard_keys l : forall s s',
  run_steps l s = Ok s' ->
  forall k, Dict.mem (_trees_idx s') k = true <->
            Dict.mem (_trees_idx s) k = true \/ In k (guard_keys l).
Proof.
  induction l as [|st l IH]; intros s s'.
  - intros [= <-] k. simpl. tauto.
  - rewrite run_steps_cons. intros Hok k. unbind Hok as s1 Hst.
    rewrite (IH _ _ Hok k), (proj2 (run_step_guard _ _ Hst) k), guard_keys_cons, in_app_iff.
    tauto.
Qed.

(** A successful [merge] leaves the relation index the union of the two
    indexes; every id with a home on either side has one, the home the
    collection recorded first, or else the home of the merged collection;
    and the guard index gains the keys of the merged collection's
    subtrees with children. *)
Theorem merge_yields self pool self' :
  merge self pool = Ok self' ->
  (forall ids c,
     Dict.get (_relations_idx self') ids = Some c <->
     Dict.get (_relations_idx self) ids = Some c \/ In (ids, c) (_relations_idx pool)) /\
  (forall id_,
     Dict.mem (_homes self') id_ = true <->
     Dict.mem (_homes self) id_ = true \/ In id_ (Dict.keys (_homes pool))) /\
  (forall id_ h,
     Dict.get (_homes self') id_ = Some h ->
     Dict.get (_homes self) id_ = Some h \/
     (Dict.get (_homes self) id_ = None /\ In (id_, h) (_homes pool))) /\
  (forall ids,
     Dict.mem (_trees_idx self') ids = true <->
     Dict.mem (_trees_idx self) ids = true \/
     exists node, In (ids, node) (_trees_idx pool) /\ got_grandchildren node = true).
Proof.
  rewrite merge_as_script. intros Hok. split; [|split; [|split]].
  - intros ids c. rewrite (run_steps_relations _ _ Hok ids c), pool_script_relation.
    reflexivity.
  - intros id_. rewrite (run_steps_homes_mem_iff _ _ Hok id_). unfold Dict.keys.
    rewrite in_map_iff. split; (intros [?|Hin]; [now left|right]).
    + destruct Hin as (h & Hin). apply pool_script_home in Hin. exists (id_, h). auto.
    + destruct Hin as ([id' h] & <- & Hin). exists h. now apply pool_script_home.
  - intros id_ h Hget. apply (run_steps_homes _ _ Hok) in Hget as [?|(Hnone & Hin)];
      [now left|right]. split; [assumption|now apply pool_script_home].
  - intros ids. rewrite (run_steps_guard_keys _ _ Hok ids), pool_script_guard. reflexivity.
Qed.

(** ** Extraction in the two directions *)

Lemma step_mirror s d a b :
  well_indexed s -> (step (adjacency s (opposite d)) a b <-> step (adjacency s d) b a).
Proof.
  intros Hwf. destruct d; simpl.
  - now apply step_by_derived.
  - symmetry. now apply step_by_derived.
Qed.

Lemma extracted_ids self root d t :
  extract_tree self root d = Ok t ->
  forall x, In x (map fst (tree_nodes t)) <-> reach (adjacency self d) root x.
Proof.
  intros Hok x. unfold extract_tree in Hok.
  apply extract_content in Hok as (_ & _ & _ & Hnodes). rewrite in_map_iff. split.
  - intros (n & <- & Hn). apply Hnodes in Hn as (a & Hreach & ->). exact Hreach.
  - intros Hreach. exists (x, home_of self x). split; [reflexivity|].
    apply Hnodes. eauto.
Qed.

(** The ids of an extracted tree are the ids that can be reached from
    its root; and in a well-indexed collection, extraction in the two
    directions mirrors: [x] is in the tree extracted from [y] in one
    direction exactly when [y] is in the tree extracted from [x] in the
    opposite direction. *)
Theorem extraction_mirrors self x y d :
  (forall t, extract_tree self y d = Ok t ->
     forall z, In z (map fst (tree_nodes t)) <-> reach (adjacency self d) y z) /\
  (well_indexed self ->
   forall t1 t2,
     extract_tree self y d = Ok t1 ->
     extract_tree self x (opposite d) = Ok t2 ->
     (In x (map fst (tree_nodes t1)) <-> In y (map fst (tree_nodes t2)))).
Proof.
  split; [intros t; apply extracted_ids|].
  intros Hwf t1 t2 H1 H2.
  rewrite (@extracted_ids _ _ _ _ H1), (@extracted_ids _ _ _ _ H2). split.
  - apply reach_reverse. intros a b. now apply step_mirror.
  - apply reach_reverse. intros a b. now apply step_mirror.
Qed.

(** ** The depth bound, in general *)

Lemma script_homes_depth k : forall t id_ h,
  In (MergeHome id_ h) (merge_script (Some k) t) <-> In (id_, h) (nodes_to_depth k t).
Proof.
  induction k as [|k IH]; intros t id_ h.
  - rewrite merge_script_exhausted. reflexivity.
  - rewrite merge_script_In by discriminate. cbn [budget_pred pred nodes_to_depth In].
    rewrite in_flat_map. split.
    + intros [[= -> ->]|(items & c & l & child & Hch & Hitem & Hc & Hst)]; [now left|].
      destruct Hst as [[=]|[[=]|Hst]]. right. exists child.
      split; [apply subtrees_In; exists items, c, l; auto|now apply IH].
    + intros [[= -> ->]|(child & Hc & Hin)]; [now left|]. right.
      apply subtrees_In in Hc as (items & c & l & Hch & Hitem & Hc).
      exists items, c, l, child. repeat split; auto. right. right. now apply IH.
Qed.

Lemma script_relations_depth k : forall t ids c,
  In (MergeRelation ids c) (merge_script (Some k) t) <-> In (ids, c) (edges_to_depth k t).
Proof.
  induction k as [|k IH]; intros t ids c.
  - rewrite merge_script_exhausted. reflexivity.
  - rewrite merge_script_In by discriminate. cbn [budget_pred pred edges_to_depth].
    rewrite in_app_iff, in_flat_map, child_edges_In. split.
    + intros [[=]|(items & c' & l & child & Hch & Hitem & Hc & Hst)].
      destruct Hst as [[= -> ->]|[[=]|Hst]].
      * left. exists items, c', l, child. auto.
      * right. exists child. split; [apply subtrees_In; exists items, c', l; auto|now apply IH].
    + intros [(items & c' & l & child & Hch & Hitem & Hc & [= -> ->])|(child & Hc & Hin)];
        right.
      * exists items, c', l, child. auto.
      * apply subtrees_In in Hc as (items & c' & l & Hch & Hitem & Hc).
        exists items, c', l, child. repeat split; auto. right. right. now apply IH.
Qed.

(** A successful [merge_tree] with a positive [max_depth] records homes
    for exactly the nodes on the first [max_depth + 1] levels of the tree
    and adds exactly the links from those nodes to their children: one
    level of links more than [max_depth]. *)
Theorem merge_tree_depth self tree (max_depth : nat) self' :
  merge_tree self tree None (Z.of_nat (S max_depth)) = Ok self' ->
  (forall ids c,
     Dict.get (_relations_idx self') ids = Some c <->
     Dict.get (_relations_idx self) ids = Some c \/
     In (ids, c) (edges_to_depth (S (S max_depth)) tree)) /\
  (forall id_,
     Dict.mem (_homes self') id_ = true <->
     Dict.mem (_homes self) id_ = true \/
     In id_ (map fst (nodes_to_depth (S (S max_depth)) tree))).
Proof.
  intros Hok. apply merge_tree_script in Hok.
  assert (Hb : depth_budget None (Z.of_nat (S max_depth)) = Some (S (S max_depth))).
  { unfold depth_budget. destruct (Z.leb_spec (Z.of_nat (S max_depth)) 0) as [H|H]; [lia|].
    now rewrite Nat2Z.id. }
  rewrite Hb in Hok. split.
  - intros ids c. rewrite (run_steps_relations _ _ Hok ids c), script_relations_depth.
    reflexivity.
  - intros id_. rewrite (run_steps_homes_mem_iff _ _ Hok id_), in_map_iff.
    split; (intros [?|Hin]; [now left|right]).
    + destruct Hin as (h & Hin). apply script_homes_depth in Hin. exists (id_, h). auto.
    + destruct Hin as ([id' h] & <- & Hin). exists h. now apply script_homes_depth.
Qed.

(** ** The adjacency entries a run appends *)

Lemma orient_near_far d ids : orient d (near_id d ids) (far_id d ids) = ids.
Proof. destruct d, ids; reflexivity. Qed.

Lemma new_pairs_cons d a st l : new_pairs d a (st :: l) = new_pairs d a [st] ++ new_pairs d a l.
Proof. unfold new_pairs. simpl. now rewrite app_nil_r. Qed.

Lemma adjacency_index_relation s rel d :
  adjacency (index_relation s rel) d =
  index_edge (adjacency s d) (near_id d (source_id rel, derived_id rel))
    (far_id d (source_id rel, derived_id rel)) (classifier rel).
Proof. now destruct d. Qed.

Lemma run_step_adjacency s st s' d a :
  well_indexed s -> run_step s st = Ok s' ->
  (forall ids c, st = MergeRelation ids c -> Dict.get (_relations_idx s) ids = None) ->
  get_or_empty (adjacency s' d) a = get_or_empty (adjacency s d) a ++ new_pairs d a [st].
Proof.
  intros Hwf Hok Hfresh. destruct st as [id_ h|ids c|ids node]; simpl in Hok.
  - apply merge_new_home_ok in Hok as [(_ & _ & _ & ->)|(_ & ->)];
      cbn; rewrite app_nil_r; now destruct d.
  - specialize (Hfresh ids c eq_refl). unfold _merge_new_relation in Hok.
    apply merge_new_lineage_relation_ok in Hok as [(Hget & _)|(_ & ->)].
    { cbn [source_id derived_id] in Hget.
      replace (fst ids, snd ids) with ids in Hget by now destruct ids. congruence. }
    change (adjacency (set_dataset_ids ?x ?i) d) with (adjacency x d).
    rewrite adjacency_index_relation. cbn [source_id derived_id classifier].
    replace (fst ids, snd ids) with ids by now destruct ids.
    rewrite get_or_empty_index_edge. unfold new_pairs. cbn [flat_map]. rewrite app_nil_r.
    destruct (keqb_spec a (near_id d ids)) as [->|Hne].
    + rewrite keqb_refl. apply dict_set_fresh.
      destruct (Dict.mem _ _) eqn:E; [|reflexivity]. exfalso.
      apply DictFacts.mem_true in E as (c' & Hc'). apply DictFacts.get_In in Hc'.
      assert (Hidx : Dict.get (_relations_idx s) (orient d (near_id d ids) (far_id d ids))
                     = Some c').
      { destruct Hwf as (Hsrc & Hder & _). destruct d; simpl in *;
          [now apply Hsrc|now apply Hder]. }
      rewrite orient_near_far in Hidx. congruence.
    + assert (keqb (near_id d ids) a = false) as -> by (apply keqb_neq; congruence).
      now rewrite app_nil_r.
  - apply _merge_new_node_ok in Hok as [(_ & ->)|(_ & _ & ->)];
      cbn; rewrite app_nil_r; now destruct d.
Qed.

Lemma relation_keys_cons st l :
  relation_keys (st :: l) = relation_keys [st] ++ relation_keys l.
Proof. unfold relation_keys. simpl. now rewrite app_nil_r. Qed.

Lemma relation_keys_In ids l :
  In ids (relation_keys l) <-> exists c, In (MergeRelation ids c) l.
Proof.
  unfold relation_keys. rewrite in_flat_map. split.
  - intros (st & Hin & Hk). destruct st as [id_ h|ids' c|ids' node]; try destruct Hk.
    + subst ids'. eauto.
    + destruct H.
  - intros (c & Hin). exists (MergeRelation ids c). split; [assumption|now left].
Qed.

(** When every relation of a run is new and none comes twice, the run
    appends its entries to the adjacency index in order. *)
Lemma run_steps_adjacency d a l : forall s s',
  well_indexed s -> run_steps l s = Ok s' ->
  NoDup (relation_keys l) ->
  (forall ids, In ids (relation_keys l) -> Dict.get (_relations_idx s) ids = None) ->
  get_or_empty (adjacency s' d) a = get_or_empty (adjacency s d) a ++ new_pairs d a l.
Proof.
  induction l as [|st l IH]; intros s s' Hwf Hok Hnd Hfresh.
  - injection Hok as <-. now rewrite app_nil_r.
  - rewrite run_steps_cons in Hok. unbind Hok as s1 Hst.
    rewrite relation_keys_cons in Hnd, Hfresh.
    rewrite new_pairs_cons, app_assoc.
    rewrite <- (@run_step_adjacency s st s1 d a Hwf Hst).
    + apply IH; auto.
      * eapply run_step_well_indexed; eauto.
      * eapply NoDup_app_remove_l; eauto.
      * intros ids Hin.
        destruct (Dict.get (_relations_idx s1) ids) as [c|] eqn:E; [|reflexivity].
        exfalso. apply (run_step_relations _ _ Hst) in E as [E| ->].
        -- rewrite Hfresh in E by (apply in_app_iff; now right). discriminate.
        -- eapply NoDup_app_disjoint; [exact Hnd| |exact Hin]. now left.
    + intros ids c ->. apply Hfresh. apply in_app_iff. left. now left.
Qed.

(** ** The script of a tree whose ids are all different *)

Lemma map_flat_map {A B C} (f : B -> C) (g : A -> list B) l :
  map f (flat_map g l) = flat_map (fun x => map f (g x)) l.
Proof. induction l as [|x l IH]; simpl; [reflexivity|]. now rewrite map_app, IH. Qed.

Lemma flat_map_nil {A B} (f : A -> list B) l :
  (forall x, In x l -> f x = []) -> flat_map f l = [].
Proof.
  induction l as [|x l IH]; intros Hf; [reflexivity|]. simpl.
  rewrite Hf by now left. apply IH. intros; apply Hf; now right.
Qed.

Lemma flat_map_In_ext {A B} (f g : A -> list B) l :
  (forall x, In x l -> f x = g x) -> flat_map f l = flat_map g l.
Proof.
  intros Hfg. apply flat_map_Forall. apply Forall_forall. exact Hfg.
Qed.

Lemma flat_map_single {A B} (f : A -> B) l : flat_map (fun x => [f x]) l = map f l.
Proof. induction l as [|x l IH]; simpl; [reflexivity|]. now rewrite IH. Qed.

Lemma tree_nodes_unfold t :
  tree_nodes t = (dataset_id t, home t) :: flat_map tree_nodes (subtrees t).
Proof.
  destruct t as [d i [items|] h]; [|reflexivity].
  unfold subtrees. cbn [children]. rewrite flat_map_nest. reflexivity.
Qed.

Lemma tree_ids_unfold t :
  map fst (tree_nodes t) =
  dataset_id t :: flat_map (fun child => map fst (tree_nodes child)) (subtrees t).
Proof. rewrite tree_nodes_unfold at 1. cbn [map fst]. now rewrite map_flat_map. Qed.

Lemma all_nodes_ids t n :
  In n (all_nodes t) -> In (dataset_id n, home n) (tree_nodes t).
Proof.
  revert n. induction t as [t IH] using LineageTree_subtree_ind. intros n.
  rewrite all_nodes_unfold, tree_nodes_unfold. intros [<-|Hn]; [now left|]. right.
  apply in_flat_map in Hn as (child & Hc & Hn). apply in_flat_map. exists child. auto.
Qed.

Lemma all_nodes_id t n : In n (all_nodes t) -> In (dataset_id n) (map fst (tree_nodes t)).
Proof. intros Hn. apply all_nodes_ids in Hn. now apply (in_map fst) in Hn. Qed.

(** In a forest whose ids are all different, an id sits in one tree
    only. *)
Lemma forest_single {B} (ids : LineageTree -> list UUID) (g : LineageTree -> list B) a l :
  NoDup (flat_map ids l) ->
  (forall child, In child l -> ~ In a (ids child) -> g child = []) ->
  forall child0, In child0 l -> In a (ids child0) -> flat_map g l = g child0.
Proof.
  induction l as [|x l IH]; intros Hnd Houtside child0 Hc Ha; [destruct Hc|].
  simpl in Hnd |- *.
  destruct (in_dec N.eq_dec a (ids x)) as [Hx|Hx].
  - assert (Hrest : flat_map g l = []).
    { apply flat_map_nil. intros y Hy. apply Houtside; [now right|].
      intros Hay. apply (NoDup_app_disjoint _ _ a Hnd Hx). apply in_flat_map. eauto. }
    rewrite Hrest, app_nil_r. destruct Hc as [->|Hc]; [reflexivity|].
    exfalso. apply (NoDup_app_disjoint _ _ a Hnd Hx). apply in_flat_map. eauto.
  - rewrite (Houtside x) by (auto; now left). simpl. destruct Hc as [->|Hc]; [contradiction|].
    apply IH; auto.
    + eapply NoDup_app_remove_l; eauto.
    + intros y Hy. apply Houtside. now right.
Qed.

Section DistinctIds.
Variable d : LineageDirection.

Lemma near_edge t child : direction t = d -> near_id d (edge_ids t child) = dataset_id t.
Proof. intros <-. unfold edge_ids. now destruct (direction t). Qed.

Lemma far_edge t child : direction t = d -> far_id d (edge_ids t child) = dataset_id child.
Proof. intros <-. unfold edge_ids. now destruct (direction t). Qed.

Lemma script_unfold t :
  merge_script None t =
  MergeHome (dataset_id t) (home t) ::
  match children t with
  | None => []
  | Some items =>
      flat_map (fun item =>
        flat_map (fun child =>
          MergeRelation (edge_ids t child) (fst item) ::
          MergeNode (edge_ids t child) child ::
          merge_script None child)
          (snd item)) items
  end.
Proof. now rewrite merge_script_step by discriminate. Qed.

Lemma new_pairs_outside a t :
  (forall n, In n (all_nodes t) -> direction n = d) ->
  ~ In a (map fst (tree_nodes t)) ->
  new_pairs d a (merge_script None t) = [].
Proof.
  induction t as [t IH] using LineageTree_subtree_ind. intros Hdir Ha.
  rewrite script_unfold, new_pairs_cons. cbn [new_pairs flat_map app].
  destruct (children t) as [items|] eqn:Hch; [|reflexivity].
  unfold new_pairs. rewrite flat_map_nest. apply flat_map_nil. intros [c l] Hitem.
  rewrite flat_map_nest. apply flat_map_nil. intros child Hc. cbn [fst snd].
  assert (Hsub : In child (subtrees t)) by (apply subtrees_In; exists items, c, l; auto).
  fold (new_pairs d a (MergeRelation (edge_ids t child) c ::
                       MergeNode (edge_ids t child) child :: merge_script None child)).
  rewrite new_pairs_cons, new_pairs_cons. cbn [new_pairs flat_map app].
  rewrite (near_edge t child) by (apply Hdir, all_nodes_self).
  assert (Hroot : keqb (dataset_id t) a = false).
  { apply keqb_neq. intros <-. apply Ha. rewrite tree_ids_unfold. now left. }
  rewrite Hroot. cbn [app]. apply IH; [assumption| |].
  - intros n Hn. apply Hdir. eapply all_nodes_child; eauto.
  - intros Hin. apply Ha. rewrite tree_ids_unfold. right. apply in_flat_map. eauto.
Qed.

(** The entries the script of a tree appends for the id of one of its
    nodes are the children of that node, in order. *)
Lemma new_pairs_node t :
  (forall n, In n (all_nodes t) -> direction n = d) ->
  NoDup (map fst (tree_nodes t)) ->
  forall n, In n (all_nodes t) ->
    new_pairs d (dataset_id n) (merge_script None t) = child_pairs n.
Proof.
  induction t as [t IH] using LineageTree_subtree_ind. intros Hdir Hnd n Hn.
  rewrite tree_ids_unfold in Hnd. inversion Hnd as [|? ? Hroot Hforest]; subst.
  rewrite script_unfold, new_pairs_cons. cbn [new_pairs flat_map app].
  rewrite all_nodes_unfold in Hn. destruct Hn as [<-|Hn].
  - unfold child_pairs. destruct (children t) as [items|] eqn:Hch; [|reflexivity].
    unfold new_pairs. rewrite flat_map_nest. apply flat_map_In_ext. intros [c l] Hitem.
    rewrite flat_map_nest. cbn [fst snd]. rewrite <- flat_map_single.
    apply flat_map_In_ext. intros child Hc.
    assert (Hsub : In child (subtrees t)) by (apply subtrees_In; exists items, c, l; auto).
    fold (new_pairs d (dataset_id t)
            (MergeRelation (edge_ids t child) c ::
             MergeNode (edge_ids t child) child :: merge_script None child)).
    rewrite new_pairs_cons, new_pairs_cons. cbn [new_pairs flat_map app].
    rewrite (near_edge t child), (far_edge t child), keqb_refl
      by (apply Hdir, all_nodes_self).
    cbn [app]. f_equal. apply new_pairs_outside.
    + intros m Hm. apply Hdir. eapply all_nodes_child; eauto.
    + intros Hin. apply Hroot. apply in_flat_map. eauto.
  - apply in_flat_map in Hn as (child0 & Hc0 & Hn).
    assert (Ha : In (dataset_id n) (map fst (tree_nodes child0))) by now apply all_nodes_id.
    assert (Hne : keqb (dataset_id t) (dataset_id n) = false).
    { apply keqb_neq. intros Heq. apply Hroot. rewrite Heq. apply in_flat_map. eauto. }
    destruct (children t) as [items|] eqn:Hch;
      [|unfold subtrees in Hc0; rewrite Hch in Hc0; destruct Hc0].
    unfold new_pairs at 1. rewrite flat_map_nest.
    transitivity (flat_map (fun child => new_pairs d (dataset_id n) (merge_script None child))
                    (subtrees t)).
    { unfold subtrees. rewrite Hch, flat_map_nest. apply flat_map_In_ext.
      intros [c l] Hitem. rewrite flat_map_nest. cbn [fst snd]. apply flat_map_In_ext.
      intros child Hc.
      fold (new_pairs d (dataset_id n)
              (MergeRelation (edge_ids t child) c ::
               MergeNode (edge_ids t child) child :: merge_script None child)).
      rewrite new_pairs_cons, new_pairs_cons. cbn [new_pairs flat_map app].
      rewrite (near_edge t child), Hne by (apply Hdir, all_nodes_self). reflexivity. }
    rewrite (@forest_single _ (fun child => map fst (tree_nodes child))
               (fun child => new_pairs d (dataset_id n) (merge_script None child))
               (dataset_id n) (subtrees t) Hforest) with (child0 := child0); auto.
    + apply IH; auto.
      * intros m Hm. apply Hdir. eapply all_nodes_child; eauto.
      * clear - Hforest Hc0. induction (subtrees t) as [|x l IHl]; [destruct Hc0|].
        simpl in Hforest. destruct Hc0 as [->|Hc0].
        -- eapply NoDup_app_remove_r; eauto.
        -- apply IHl; auto. eapply NoDup_app_remove_l; eauto.
    + intros child Hc Hout. apply new_pairs_outside; auto.
      intros m Hm. apply Hdir. eapply all_nodes_child; eauto.
Qed.

Lemma script_far_ids t :
  (forall n, In n (all_nodes t) -> direction n = d) ->
  map (far_id d) (relation_keys (merge_script None t)) =
  flat_map (fun child => map fst (tree_nodes child)) (subtrees t).
Proof.
  induction t as [t IH] using LineageTree_subtree_ind. intros Hdir.
  rewrite script_unfold, relation_keys_cons. cbn [relation_keys flat_map app].
  unfold subtrees. destruct (children t) as [items|] eqn:Hch; [|reflexivity].
  unfold relation_keys. rewrite !flat_map_nest, map_flat_map.
  apply flat_map_In_ext. intros [c l] Hitem. rewrite flat_map_nest, map_flat_map.
  cbn [fst snd]. apply flat_map_In_ext. intros child Hc.
  assert (Hsub : In child (subtrees t)) by (apply subtrees_In; exists items, c, l; auto).
  cbn [flat_map app map]. rewrite (far_edge t child) by (apply Hdir, all_nodes_self).
  rewrite tree_ids_unfold. f_equal.
  fold (relation_keys (merge_script None child)). apply IH; [assumption|].
  intros m Hm. apply Hdir. eapply all_nodes_child; eauto.
Qed.

Lemma script_keys_distinct t :
  (forall n, In n (all_nodes t) -> direction n = d) ->
  NoDup (map fst (tree_nodes t)) ->
  NoDup (relation_keys (merge_script None t)).
Proof.
  intros Hdir Hnd. apply (NoDup_map_inv (far_id d)). rewrite script_far_ids by assumption.
  rewrite tree_ids_unfold in Hnd. now inversion Hnd.
Qed.
End DistinctIds.

(** ** Reading a merged tree back *)

Lemma dict_get_last {K V} `{EqKey K} (acc : dict K V) c pre :
  Dict.mem acc c = false -> Dict.get (acc ++ [(c, pre)]) c = Some pre.
Proof.
  unfold Dict.mem. induction acc as [|[k v] r IH]; simpl.
  - now rewrite keqb_refl.
  - destruct (keqb c k); [discriminate|]. exact IH.
Qed.

Lemma dict_set_last {K V} `{EqKey K} (acc : dict K V) c pre v :
  Dict.mem acc c = false -> Dict.set (acc ++ [(c, pre)]) c v = acc ++ [(c, v)].
Proof.
  unfold Dict.mem. induction acc as [|[k w] r IH]; simpl.
  - now rewrite keqb_refl.
  - destruct (keqb c k); [discriminate|]. intros Hm. now rewrite IH.
Qed.

Lemma dict_mem_last {K V} `{EqKey K} (acc : dict K V) c c' v :
  Dict.mem (acc ++ [(c', v)]) c = Dict.mem acc c || keqb c c'.
Proof.
  unfold Dict.mem. induction acc as [|[k w] r IH]; simpl.
  - now destruct (keqb c c').
  - destruct (keqb c k); [reflexivity|]. exact IH.
Qed.

Section Rebuild.
Variable f : UUID -> outcome LineageTree.

Let body := fun (children : dict string (list LineageTree)) (item : UUID * string) =>
  subtree <- f (fst item) ;; Ok (append_child children (snd item) subtree).

Lemma rebuild_more c l : forall pre acc,
  Dict.mem acc c = false ->
  (forall child, In child l -> f (dataset_id child) = Ok child) ->
  for_each body (map (fun child => (dataset_id child, c)) l) (acc ++ [(c, pre)]) =
  Ok (acc ++ [(c, pre ++ l)]).
Proof.
  induction l as [|x l IH]; intros pre acc Hacc Hf.
  - now rewrite app_nil_r.
  - cbn [map]. rewrite for_each_cons. unfold body at 1. cbn [fst snd].
    rewrite Hf by now left. cbn [bind]. unfold append_child.
    rewrite dict_get_last, dict_set_last by assumption.
    rewrite IH; auto; [|intros; apply Hf; now right].
    now rewrite <- app_assoc.
Qed.

Lemma rebuild_entry c l acc :
  Dict.mem acc c = false -> l <> [] ->
  (forall child, In child l -> f (dataset_id child) = Ok child) ->
  for_each body (map (fun child => (dataset_id child, c)) l) acc = Ok (acc ++ [(c, l)]).
Proof.
  intros Hacc Hl Hf. destruct l as [|x l]; [congruence|].
  cbn [map]. rewrite for_each_cons. unfold body at 1. cbn [fst snd].
  rewrite Hf by now left. cbn [bind]. unfold append_child.
  apply DictFacts.mem_false in Hacc as Hget. rewrite Hget, dict_set_fresh by assumption.
  apply rebuild_more; auto. intros; apply Hf; now right.
Qed.

(** Appending the children one by one, grouped by classifier in the
    order of a mapping, gives that mapping back. *)
Lemma rebuild_loop ch : forall acc,
  NoDup (Dict.keys ch) ->
  (forall c l, In (c, l) ch -> Dict.mem acc c = false) ->
  (forall c l, In (c, l) ch -> l <> []) ->
  (forall c l child, In (c, l) ch -> In child l -> f (dataset_id child) = Ok child) ->
  for_each body
    (flat_map (fun item => map (fun child => (dataset_id child, fst item)) (snd item)) ch)
    acc = Ok (acc ++ ch).
Proof.
  induction ch as [|[c l] ch IH]; intros acc Hnd Hacc Hne Hf.
  - now rewrite app_nil_r.
  - cbn [flat_map fst snd]. rewrite for_each_app.
    rewrite rebuild_entry; [|eapply Hacc; now left|eapply Hne; now left|
                             intros; eapply Hf; [now left|assumption]].
    cbn [bind]. unfold Dict.keys in Hnd. cbn [map fst] in Hnd.
    inversion Hnd as [|? ? Hc Hnd']; subst.
    rewrite IH; auto.
    + now rewrite <- app_assoc.
    + intros c' l' Hin. rewrite dict_mem_last.
      rewrite (Hacc c' l') by now right. cbn [orb]. apply keqb_neq. intros ->.
      apply Hc. now apply (in_map fst) in Hin.
    + intros; eapply Hne; right; eauto.
    + intros; eapply Hf; [right|]; eauto.
Qed.
End Rebuild.

(** More fuel does not change a result. *)
Lemma for_each_upgrade {A S} (body1 body2 : S -> A -> outcome S) l : forall s,
  (forall s x, In x l -> body1 s x <> OutOfFuel -> body2 s x = body1 s x) ->
  for_each body1 l s <> OutOfFuel ->
  for_each body2 l s = for_each body1 l s.
Proof.
  induction l as [|x l IH]; intros s Hb Hne; [reflexivity|].
  rewrite !for_each_cons in *.
  assert (H1 : body1 s x <> OutOfFuel) by (intros E; rewrite E in Hne; now apply Hne).
  rewrite Hb by (auto; now left). destruct (body1 s x) as [a| |]; cbn [bind] in *; auto.
  apply IH; auto. intros; apply Hb; auto; now right.
Qed.

Lemma extract_tree_fuel_more self d fuel : forall root so_far,
  extract_tree_fuel fuel self root d so_far <> OutOfFuel ->
  extract_tree_fuel (S fuel) self root d so_far = extract_tree_fuel fuel self root d so_far.
Proof.
  induction fuel as [|fuel IH]; intros root so_far Hne; [now contradiction Hne|].
  rewrite (extract_tree_fuel_S (S fuel)). rewrite extract_tree_fuel_S in Hne |- *.
  destruct (IdSet.mem root so_far); [reflexivity|].
  rewrite for_each_upgrade
    with (body1 := fun children item =>
            subtree <- extract_tree_fuel fuel self (fst item) d (IdSet.add root so_far) ;;
            Ok (append_child children (snd item) subtree)); [reflexivity| |].
  - intros s x _ Hx. rewrite IH; [reflexivity|]. intros E. rewrite E in Hx. now apply Hx.
  - intros E. rewrite E in Hne. now apply Hne.
Qed.

Lemma extract_tree_fuel_plus self d fuel root so_far k :
  extract_tree_fuel fuel self root d so_far <> OutOfFuel ->
  extract_tree_fuel (k + fuel) self root d so_far = extract_tree_fuel fuel self root d so_far.
Proof.
  intros Hne. induction k as [|k IH]; [reflexivity|].
  cbn [Nat.add]. rewrite extract_tree_fuel_more; rewrite IH; auto.
Qed.

Lemma flat_map_length_In {A B} (g : A -> list B) l x :
  In x l -> List.length (g x) <= List.length (flat_map g l).
Proof.
  induction l as [|y l IH]; [intros []|]. simpl. rewrite length_app.
  intros [->|Hin]; [lia|]. specialize (IH Hin). lia.
Qed.

Lemma forest_ids_distinct (l : list LineageTree) child :
  NoDup (flat_map (fun child => map fst (tree_nodes child)) l) -> In child l ->
  NoDup (map fst (tree_nodes child)).
Proof.
  induction l as [|x l IH]; [intros _ []|]. simpl. intros Hnd [->|Hin].
  - eapply NoDup_app_remove_r; eauto.
  - apply IH; auto. eapply NoDup_app_remove_l; eauto.
Qed.

(** A collection whose adjacency entries and homes are those of a tree
    with distinct ids gives the tree back. *)
Lemma extract_rebuild self d u :
  (forall n, In n (all_nodes u) ->
     get_or_empty (adjacency self d) (dataset_id n) = child_pairs n /\
     home_of self (dataset_id n) = home n /\ direction n = d /\ well_listed n) ->
  NoDup (map fst (tree_nodes u)) ->
  forall fuel so_far,
    List.length (all_nodes u) <= fuel ->
    (forall x, In x (map fst (tree_nodes u)) -> IdSet.mem x so_far = false) ->
    extract_tree_fuel fuel self (dataset_id u) d so_far = Ok u.
Proof.
  induction u as [u IH] using LineageTree_subtree_ind.
  intros Hnodes Hnd fuel so_far Hfuel Hfresh.
  rewrite all_nodes_unfold in Hfuel. cbn [List.length] in Hfuel.
  destruct fuel as [|fuel]; [lia|]. rewrite extract_tree_fuel_S.
  rewrite Hfresh by apply tree_nodes_self.
  destruct (Hnodes u (all_nodes_self u)) as (Hadj & Hhome & Hdir & ch & Hch & Hkeys & Hfull).
  rewrite Hadj, Hhome. unfold child_pairs. rewrite Hch.
  rewrite tree_ids_unfold in Hnd, Hfresh. inversion Hnd as [|? ? Hroot Hforest]; subst.
  rewrite rebuild_loop
    with (f := fun x => extract_tree_fuel fuel self x (direction u) (IdSet.add (dataset_id u) so_far));
    auto.
  - cbn [bind app]. destruct u; simpl in *. now subst.
  - intros c l child Hitem Hc.
    assert (Hsub : In child (subtrees u)) by (apply subtrees_In; exists ch, c, l; auto).
    apply IH; auto.
    + intros n Hn. apply Hnodes. eapply all_nodes_child; eauto.
    + eapply forest_ids_distinct; eauto.
    + pose proof (flat_map_length_In all_nodes (subtrees u) child Hsub). lia.
    + intros x Hx. rewrite IdSetFacts.mem_add.
      assert (Hin : In x (flat_map (fun child => map fst (tree_nodes child)) (subtrees u)))
        by (apply in_flat_map; eauto).
      rewrite (Hfresh x) by now right. rewrite orb_false_r. apply keqb_neq. congruence.
Qed.

Lemma nodes_home_fun (l : list (UUID * option string)) id_ h h' :
  NoDup (map fst l) -> In (id_, h) l -> In (id_, h') l -> h = h'.
Proof.
  induction l as [|[i0 h0] l IH]; [intros _ []|]. cbn [map fst].
  intros Hnd Hin Hin'. inversion Hnd as [|? ? Hnot Hnd']; subst.
  destruct Hin as [[= -> ->]|Hin], Hin' as [[= ->]|Hin'].
  - reflexivity.
  - exfalso. apply Hnot. now apply (in_map fst) in Hin'.
  - subst. exfalso. apply Hnot. now apply (in_map fst) in Hin.
  - eauto.
Qed.

(** Merging a tree into an empty collection and extracting from its root
    in its direction gives the tree back, node for node and in order,
    when the ids of its nodes are all different and every node lists its
    children as [extract_tree] does: a mapping, empty for a leaf, with
    no empty list in it. *)
Theorem merge_extract_round_trip tree self :
  Forall well_listed (all_nodes tree) ->
  NoDup (map fst (tree_nodes tree)) ->
  merge_tree empty_relations tree None 0 = Ok self ->
  extract_tree self (dataset_id tree) (direction tree) = Ok tree.
Proof.
  intros Hlisted Hnd Hok. rewrite Forall_forall in Hlisted.
  pose proof (merge_tree_well_formed _ _ _ Hok) as Hwf.
  apply merge_tree_script in Hok. change (depth_budget None 0) with (@None nat) in Hok.
  assert (Hdir : forall n, In n (all_nodes tree) -> direction n = direction tree)
    by (intros n Hn; now apply Hwf).
  assert (Hrebuild : forall fuel, List.length (all_nodes tree) <= fuel ->
            extract_tree_fuel fuel self (dataset_id tree) (direction tree) [] = Ok tree).
  { intros fuel Hfuel. apply extract_rebuild; auto. intros n Hn. repeat split; auto.
    - rewrite (@run_steps_adjacency (direction tree) (dataset_id n) _ _ _
                 empty_relations_well_indexed Hok).
      + cbn [app]. destruct (direction tree); cbn [app]; now apply new_pairs_node.
      + now apply script_keys_distinct with (d := direction tree).
      + reflexivity.
    - unfold home_of. pose proof (all_nodes_ids _ _ Hn) as Hin.
      apply script_homes_all in Hin.
      pose proof (@run_steps_homes_mem _ _ _ _ _ Hok Hin) as Hmem.
      apply DictFacts.mem_true in Hmem as (h & Hget). rewrite Hget.
      destruct (@run_steps_homes _ _ _ Hok _ _ Hget) as [Hget'|(_ & Hin')]; [discriminate|].
      apply script_homes_all in Hin, Hin'. eapply nodes_home_fun; eauto. }
  pose proof (extract_tree_terminates self (direction tree) (dataset_id tree)) as Hterm.
  unfold extract_tree in *.
  rewrite <- (@extract_tree_fuel_plus _ _ _ _ _ (List.length (all_nodes tree)) Hterm).
  apply Hrebuild. lia.
Qed.

(** ** Trees that merge *)

Lemma all_nodes_ids_map t : map dataset_id (all_nodes t) = map fst (tree_nodes t).
Proof.
  induction t as [t IH] using LineageTree_subtree_ind.
  rewrite all_nodes_unfold, tree_ids_unfold. cbn [map]. f_equal.
  rewrite map_flat_map. now apply flat_map_In_ext.
Qed.

Lemma NoDup_map_eq {A B} (f : A -> B) l a b :
  NoDup (map f l) -> In a l -> In b l -> f a = f b -> a = b.
Proof.
  induction l as [|x l IH]; [intros _ []|]. cbn [map].
  intros Hnd Ha Hb Hab. inversion Hnd as [|? ? Hnot Hnd']; subst.
  destruct Ha as [->|Ha], Hb as [->|Hb]; auto.
  - exfalso. apply Hnot. rewrite Hab. now apply in_map.
  - exfalso. apply Hnot. rewrite <- Hab. now apply in_map.
Qed.

Lemma all_nodes_trans t n m : In n (all_nodes t) -> In m (all_nodes n) -> In m (all_nodes t).
Proof.
  revert n m. induction t as [t IH] using LineageTree_subtree_ind. intros n m Hn Hm.
  rewrite all_nodes_unfold in Hn. destruct Hn as [<-|Hn]; [assumption|].
  apply in_flat_map in Hn as (child & Hc & Hn).
  eapply all_nodes_child; eauto.
Qed.

Lemma tree_edges_nodes t ids c :
  In (ids, c) (tree_edges t) ->
  exists parent child, In parent (all_nodes t) /\ In child (subtrees parent) /\
                       ids = edge_ids parent child.
Proof.
  induction t as [t IH] using LineageTree_subtree_ind. intros Hin.
  apply tree_edges_In in Hin as (items & c' & l & child & Hch & Hitem & Hc & He).
  assert (Hsub : In child (subtrees t)) by (apply subtrees_In; exists items, c', l; auto).
  destruct He as [[= -> ->]|He].
  - exists t, child. split; [apply all_nodes_self|auto].
  - destruct (IH child Hsub He) as (parent & gc & Hp & Hgc & ->).
    exists parent, gc. split; [|auto]. eapply all_nodes_child; eauto.
Qed.

(** An index whose hops all go strictly up in some rank has no cycle. *)
Lemma ranked_no_return G (R : UUID -> nat -> Prop) (prec : nat -> nat -> Prop) :
  (forall i, ~ prec i i) ->
  (forall i j k, prec i j -> prec j k -> prec i k) ->
  (forall x i j, R x i -> R x j -> i = j) ->
  (forall x y, step G x y -> exists i j, R x i /\ R y j /\ prec i j) ->
  forall y, ~ returns G y.
Proof.
  intros Hirr Htrans Hfun Hstep.
  assert (Hreach : forall a b, reach G a b ->
            forall i j, R a i -> R b j -> i = j \/ prec i j).
  { induction 1 as [a|a m b Hs _ IH]; intros i j Hi Hj; [left; eauto|].
    right. destruct (Hstep _ _ Hs) as (i0 & j0 & Hi0 & Hj0 & Hp).
    rewrite (Hfun _ _ _ Hi Hi0). destruct (IH _ _ Hj0 Hj) as [<-|Hp']; eauto. }
  intros y (m & Hs & Hr). destruct (Hstep _ _ Hs) as (i & j & Hi & Hj & Hp).
  destruct (Hreach _ _ Hr _ _ Hj Hi) as [->|Hp']; [now apply (Hirr i)|].
  apply (Hirr i). eauto.
Qed.

Lemma relation_keys_fun l ids c c' :
  NoDup (relation_keys l) ->
  In (MergeRelation ids c) l -> In (MergeRelation ids c') l -> c = c'.
Proof.
  induction l as [|st l IH]; [intros _ []|]. rewrite relation_keys_cons.
  intros Hnd [->|Hin] [Heq|Hin'].
  - now injection Heq.
  - exfalso. cbn [relation_keys flat_map app] in Hnd. inversion Hnd as [|? ? Hnot _]; subst.
    apply Hnot. apply relation_keys_In. eauto.
  - subst st. exfalso. cbn [relation_keys flat_map app] in Hnd.
    inversion Hnd as [|? ? Hnot _]; subst. apply Hnot. apply relation_keys_In. eauto.
  - apply IH; auto. eapply NoDup_app_remove_l; eauto.
Qed.

(** Pieces a forest keeps apart by the ids of its trees do not overlap. *)
Lemma forest_pieces_distinct {B} (key : B -> UUID) (ids : LineageTree -> list UUID)
    (f : LineageTree -> list B) l :
  NoDup (flat_map ids l) ->
  (forall x, In x l -> NoDup (f x)) ->
  (forall x b, In x l -> In b (f x) -> In (key b) (ids x)) ->
  NoDup (flat_map f l).
Proof.
  induction l as [|x l IH]; intros Hnd Hf Hkey; [constructor|]. simpl in *.
  apply NoDup_app.
  - apply Hf. now left.
  - apply IH; eauto. eapply NoDup_app_remove_l; eauto.
  - intros b Hb Hb'. apply in_flat_map in Hb' as (y & Hy & Hb').
    apply (NoDup_app_disjoint _ _ (key b) Hnd); [eauto|].
    apply in_flat_map. eauto.
Qed.

Section DistinctTree.
Variable d : LineageDirection.

Lemma guarded_links_unfold t :
  guarded_links t =
  flat_map (fun child =>
    (if got_grandchildren child then [edge_ids t child] else []) ++ guarded_links child)
    (subtrees t).
Proof.
  destruct t as [d0 i [items|] h]; [|reflexivity].
  unfold subtrees. cbn [children guarded_links]. now rewrite flat_map_nest.
Qed.

Lemma guarded_links_distinct t :
  (forall n, In n (all_nodes t) -> direction n = d) ->
  NoDup (map fst (tree_nodes t)) ->
  NoDup (guarded_links t) /\
  forall k, In k (guarded_links t) ->
    In (far_id d k) (flat_map (fun child => map fst (tree_nodes child)) (subtrees t)).
Proof.
  induction t as [t IH] using LineageTree_subtree_ind. intros Hdir Hnd.
  rewrite tree_ids_unfold in Hnd. inversion Hnd as [|? ? Hroot Hforest]; subst.
  assert (Hchild : forall child, In child (subtrees t) ->
            NoDup (guarded_links child) /\
            forall k, In k (guarded_links child) ->
              In (far_id d k)
                 (flat_map (fun gc => map fst (tree_nodes gc)) (subtrees child))).
  { intros child Hc. apply IH; auto.
    - intros n Hn. apply Hdir. eapply all_nodes_child; eauto.
    - eapply forest_ids_distinct; eauto. }
  assert (Hkey : forall child k, In child (subtrees t) ->
            In k ((if got_grandchildren child then [edge_ids t child] else []) ++
                  guarded_links child) ->
            In (far_id d k) (map fst (tree_nodes child))).
  { intros child k Hc Hk. rewrite tree_ids_unfold. apply in_app_iff in Hk as [Hk|Hk].
    - destruct (got_grandchildren child); [|destruct Hk]. destruct Hk as [<-|[]].
      left. symmetry. apply far_edge. apply Hdir, all_nodes_self.
    - right. now apply (proj2 (Hchild child Hc)). }
  rewrite guarded_links_unfold. split.
  - apply forest_pieces_distinct
      with (key := far_id d) (ids := fun child => map fst (tree_nodes child)); auto.
    intros child Hc. destruct (Hchild child Hc) as (Hnd' & Hfar).
    destruct (got_grandchildren child); [|exact Hnd']. cbn [app].
    constructor; [|exact Hnd']. intros Hin. apply Hfar in Hin.
    rewrite (far_edge t child) in Hin by (apply Hdir, all_nodes_self).
    pose proof (forest_ids_distinct _ _ Hforest Hc) as Hndc.
    rewrite tree_ids_unfold in Hndc. inversion Hndc; subst. contradiction.
  - intros k Hk. apply in_flat_map in Hk as (child & Hc & Hk).
    apply in_flat_map. exists child. split; [assumption|]. now apply Hkey.
Qed.

Lemma distinct_not_below t :
  NoDup (map fst (tree_nodes t)) ->
  forall n, In n (all_nodes t) -> ~ below n (dataset_id n).
Proof.
  induction t as [t IH] using LineageTree_subtree_ind. intros Hnd n Hn.
  rewrite tree_ids_unfold in Hnd. inversion Hnd as [|? ? Hroot Hforest]; subst.
  rewrite all_nodes_unfold in Hn. destruct Hn as [<-|Hn].
  - intros (child & Hc & Hin). apply Hroot. apply in_flat_map. eauto.
  - apply in_flat_map in Hn as (child & Hc & Hn). apply (IH child); auto.
    eapply forest_ids_distinct; eauto.
Qed.

(** The size of the subtree at each id ranks the ids of a tree. *)
Lemma distinct_tree_sound t s :
  (forall n, In n (all_nodes t) -> direction n = d) ->
  NoDup (map fst (tree_nodes t)) ->
  well_indexed s ->
  (forall ids c, Dict.get (_relations_idx s) ids = Some c ->
                 In (MergeRelation ids c) (merge_script None t)) ->
  sound s.
Proof.
  intros Hdir Hnd Hwf Hidx d' x y _. revert y.
  set (R := fun (x : UUID) (i : nat) =>
              exists n, In n (all_nodes t) /\ dataset_id n = x /\
                        i = List.length (all_nodes n)).
  assert (Hfun : forall x i j, R x i -> R x j -> i = j).
  { intros z i j (n & Hn & Hz & ->) (n' & Hn' & Hz' & ->).
    rewrite <- all_nodes_ids_map in Hnd.
    rewrite (NoDup_map_eq dataset_id _ n n' Hnd Hn Hn'); congruence. }
  assert (Hlink : forall a b c, Dict.get (_relations_idx s) (orient d a b) = Some c ->
            exists i j, R a i /\ R b j /\ j < i).
  { intros a b c Hget. apply Hidx, script_relations_all, tree_edges_nodes in Hget
      as (parent & child & Hp & Hc & Heq).
    assert (Hdp : direction parent = d) by now apply Hdir.
    unfold edge_ids in Heq. rewrite Hdp in Heq.
    change (orient d a b = orient d (dataset_id parent) (dataset_id child)) in Heq.
    apply orient_inj in Heq as (-> & ->).
    exists (List.length (all_nodes parent)), (List.length (all_nodes child)).
    split; [exists parent; auto|]. split.
    - exists child. split; [|auto]. eapply all_nodes_trans; [exact Hp|].
      eapply all_nodes_child; [exact Hc|apply all_nodes_self].
    - rewrite (all_nodes_unfold parent). cbn [List.length].
      pose proof (flat_map_length_In all_nodes (subtrees parent) child Hc). lia. }
  destruct (direction_eqb d' d) eqn:Hd.
  - apply direction_eqb_eq in Hd. subst d'.
    apply ranked_no_return with (R := R) (prec := fun i j => j < i); auto; try lia.
    intros a b Hs. apply step_indexed in Hs as (c & Hget); [|assumption]. eauto.
  - assert (Hopp : d' = opposite d) by (destruct d, d'; simpl in *; congruence).
    subst d'. apply ranked_no_return with (R := R) (prec := fun i j => i < j); auto; try lia.
    intros a b Hs. apply step_indexed in Hs as (c & Hget); [|assumption].
    rewrite orient_opposite in Hget. destruct (Hlink _ _ _ Hget) as (i & j & ? & ? & ?).
    exists j, i. auto.
Qed.
End DistinctTree.

(** A tree whose nodes all have the direction of the root and whose ids
    are all different merges into an empty collection. *)
Theorem distinct_tree_merges tree :
  (forall n, In n (all_nodes tree) -> direction n = direction tree) ->
  NoDup (map fst (tree_nodes tree)) ->
  exists self, merge_tree empty_relations tree None 0 = Ok self.
Proof.
  intros Hdir Hnd.
  destruct (@merge_tree_planned
              (fun ids c => In (MergeRelation ids c) (merge_script None tree))
              (fun id_ => match Dict.get (tree_nodes tree) id_ with
                          | Some h => h | None => None end)) with
    (tree := tree) (s := empty_relations) as (self & Hok & _).
  - intros ids c c'. apply relation_keys_fun.
    now apply script_keys_distinct with (d := direction tree).
  - intros s. now apply distinct_tree_sound with (d := direction tree).
  - split; [apply empty_relations_well_indexed|]. split; intros ? ? [=].
  - apply Forall_forall. intros n Hn. split.
    + apply child_datasets_succeeds. intros m Hm.
      apply (distinct_not_below tree Hnd). eapply all_nodes_trans; eauto.
    + intros child Hc. rewrite (Hdir n Hn). apply Hdir.
      eapply all_nodes_trans; [exact Hn|].
      eapply all_nodes_child; [exact Hc|apply all_nodes_self].
  - apply Forall_forall. intros [id_ h|ids c|ids node] Hst; cbn; auto.
    apply script_homes_all in Hst. now rewrite (DictFacts.In_get _ _ _ Hnd Hst).
  - exact (proj1 (@guarded_links_distinct (direction tree) tree Hdir Hnd)).
  - reflexivity.
  - eauto.
Qed.

(** ** A depth that is not positive *)

Lemma recursion_plan_unlimited parent_node max_depth :
  (max_depth <= 0)%Z ->
  exists next, recursion_plan parent_node max_depth = (true, next) /\ (next <= 0)%Z.
Proof.
  intros Hle. unfold recursion_plan. destruct parent_node as [p|]; [|eauto].
  destruct (Z.eqb_spec max_depth 0) as [->|H0]; [exists 0%Z; split; [reflexivity|lia]|].
  destruct (Z.eqb_spec max_depth 1) as [->|H1]; [lia|].
  exists (max_depth - 1)%Z. split; [reflexivity|lia].
Qed.

(** [merge_tree] treats every [max_depth] below zero as it treats zero:
    no limit.  The two calls have the same outcome, errors included. *)
Theorem merge_tree_unlimited tree :
  forall self parent_node max_depth,
    (max_depth <= 0)%Z ->
    merge_tree self tree parent_node max_depth = merge_tree self tree parent_node 0.
Proof.
  induction tree as [tree IH] using LineageTree_subtree_ind.
  intros self parent_node max_depth Hle. rewrite !merge_tree_unfold.
  destruct (recursion_plan_unlimited parent_node Hle) as (next & -> & Hnext).
  destruct (@recursion_plan_unlimited parent_node 0%Z ltac:(lia)) as (next0 & -> & Hnext0).
  cbv beta iota.
  destruct (child_datasets tree) as [ids| |]; cbn [bind]; try reflexivity.
  destruct (merge_new_home self (dataset_id tree) (home tree)) as [s1| |];
    cbn [bind]; try reflexivity.
  destruct (if negb (got_grandchildren tree)
            then extract_tree s1 (dataset_id tree) (opposite (direction tree)) ;;; Ok tt
            else Ok tt) as [u| |]; cbn [bind]; try reflexivity.
  destruct (children tree) as [items|] eqn:Hch; [|reflexivity].
  apply for_each_ext. intros s [c l] Hitem. apply for_each_ext. intros s' child Hc.
  destruct (negb (direction_eqb (direction child) (direction tree))); [reflexivity|].
  cbv zeta. cbn [fst snd] in *.
  destruct (_merge_new_relation s' (edge_ids tree child) c) as [s2| |];
    cbn [bind]; try reflexivity.
  destruct (_merge_new_node s2 (edge_ids tree child) child) as [s3| |];
    cbn [bind]; try reflexivity.
  assert (Hsub : In child (subtrees tree)) by (apply subtrees_In; exists items, c, l; auto).
  rewrite (IH child Hsub s3 (Some tree) next Hnext).
  now rewrite (IH child Hsub s3 (Some tree) next0 Hnext0).
Qed.

(** ** The properties above, at work on the U1/U2 scenario *)

Lemma scenario_built : built (scenario_relations 1%N 2%N).
Proof. exists [OpTree (scenario_tree 1%N 2%N) 0]. vm_compute. reflexivity. Qed.

Lemma built_invariants_witness :
  guard_entries_full (scenario_relations 1%N 2%N) /\
  keys_unique (scenario_relations 1%N 2%N).
Proof.
  pose proof (built_invariants scenario_built) as (_ & _ & _ & _ & _ & Hfull & Hkeys).
  split; assumption.
Defined.

Lemma operations_only_add_witness :
  exists new, relations (scenario_relations 1%N 2%N) = relations empty_relations ++ new.
Proof.
  assert (Hok : perform empty_relations (OpTree (scenario_tree 1%N 2%N) 0) =
                Ok (scenario_relations 1%N 2%N)) by (vm_compute; reflexivity).
  exact (proj1 (proj2 (proj2 (proj2 (operations_only_add _ _ Hok))))).
Defined.

Lemma homes_must_agree_witness :
  merge_new_home (set_homes empty_relations [(1%N, Some "a"%string)]) 1%N None =
  Raise (InconsistentLineageException (InconsistentHomes 1%N)).
Proof.
  apply (@homes_must_agree (set_homes empty_relations [(1%N, Some "a"%string)])
           1%N (Some "a"%string)); [reflexivity|reflexivity|discriminate].
Defined.

Lemma clone_exact_witness :
  new_relations None 0 (Some (scenario_relations 1%N 2%N)) =
  Ok (scenario_relations 1%N 2%N).
Proof. exact (proj2 (clone_exact scenario_built)). Defined.

Lemma merge_tree_accepts_witness :
  direction (scenario_tree 1%N 2%N) = SOURCES /\
  ~ below (scenario_tree 1%N 2%N) 1%N.
Proof.
  apply (proj1 (merge_tree_accepts empty_relations (scenario_tree 1%N 2%N) None)
           (scenario_relations 1%N 2%N)); [vm_compute; reflexivity|].
  apply all_nodes_self.
Defined.

Lemma extract_tree_nodes_witness :
  home (scenario_tree 1%N 2%N) = home_of (scenario_relations 1%N 2%N) 1%N.
Proof.
  assert (Hok : extract_tree (scenario_relations 1%N 2%N) 1%N SOURCES =
                Ok (scenario_tree 1%N 2%N)) by (vm_compute; reflexivity).
  exact (proj1 (proj2 (extract_tree_nodes _ _ _ Hok (scenario_tree 1%N 2%N)
                         (all_nodes_self _)))).
Defined.

Lemma relation_accepted_exactly_witness :
  exists x,
    merge_new_lineage_relation (scenario_relations 1%N 2%N)
      {| classifier := "back"%string; source_id := 2%N; derived_id := 1%N |} =
    Raise (InconsistentLineageException (GraphNotAcyclic x)).
Proof.
  assert (Hcons : consistent (scenario_relations 1%N 2%N))
    by (apply built_consistent, scenario_built).
  assert (Hacyclic : acyclic (scenario_relations 1%N 2%N)).
  { apply (@merge_tree_acyclic empty_relations (scenario_tree 1%N 2%N) None 0).
    - apply empty_relations_consistent.
    - apply empty_relations_acyclic.
    - vm_compute. reflexivity. }
  apply (proj2 (@relation_accepted_exactly (scenario_relations 1%N 2%N) 2%N 1%N
                  "back"%string Hcons Hacyclic ltac:(discriminate) eq_refl)).
  apply (derives_hop _ {| classifier := "nbar"%string; source_id := 1%N;
                          derived_id := 2%N |}). now left.
Defined.

(** ** The further properties, at work on the scenarios *)

Lemma merge_yields_witness :
  Dict.get (_relations_idx (scenario_relations 1%N 2%N)) (1%N, 2%N) = Some "nbar"%string <->
  Dict.get (_relations_idx empty_relations) (1%N, 2%N) = Some "nbar"%string \/
  In ((1%N, 2%N), "nbar"%string) (_relations_idx (scenario_relations 1%N 2%N)).
Proof.
  assert (Hok : merge empty_relations (scenario_relations 1%N 2%N) =
                Ok (scenario_relations 1%N 2%N)) by (vm_compute; reflexivity).
  exact (proj1 (merge_yields _ _ Hok) (1%N, 2%N) "nbar"%string).
Defined.

Lemma extraction_mirrors_witness :
  In 1%N (map fst (tree_nodes (node DERIVED 2%N "nbar"%string [leaf DERIVED 1%N]))) <->
  In 2%N (map fst (tree_nodes (scenario_tree 1%N 2%N))).
Proof.
  symmetry.
  apply (proj2 (extraction_mirrors (scenario_relations 1%N 2%N) 2%N 1%N SOURCES)).
  - apply (built_consistent scenario_built).
  - vm_compute. reflexivity.
  - vm_compute. reflexivity.
Defined.

Lemma merge_tree_depth_witness :
  exists self',
    merge_tree empty_relations deep_chain_tree None (Z.of_nat 1) = Ok self' /\
    (Dict.mem (_homes self') 3%N = true <->
     Dict.mem (_homes empty_relations) 3%N = true \/
     In 3%N (map fst (nodes_to_depth 2 deep_chain_tree))).
Proof.
  destruct (merge_tree empty_relations deep_chain_tree None (Z.of_nat 1))
    as [self'| |] eqn:Hok; [|vm_compute in Hok; discriminate..].
  exists self'. split; [reflexivity|].
  exact (proj2 (@merge_tree_depth empty_relations deep_chain_tree 0 self' Hok) 3%N).
Defined.

Lemma merge_extract_round_trip_witness :
  extract_tree (scenario_relations 1%N 2%N) 1%N SOURCES = Ok (scenario_tree 1%N 2%N).
Proof.
  apply (@merge_extract_round_trip (scenario_tree 1%N 2%N) (scenario_relations 1%N 2%N)).
  - repeat constructor.
    + exists [("nbar"%string, [leaf SOURCES 2%N])]. repeat split.
      * repeat constructor. intros [].
      * intros c l [[= <- <-]|[]]. discriminate.
    + exists []. repeat split; [constructor|intros c l []].
  - change (NoDup [1%N; 2%N]).
    apply NoDup_cons; [simpl; intros [H|[]]; discriminate|].
    apply NoDup_cons; [intros []|apply NoDup_nil].
  - vm_compute. reflexivity.
Defined.

Lemma distinct_tree_merges_witness :
  exists self, merge_tree empty_relations chain_tree None 0 = Ok self.
Proof.
  apply distinct_tree_merges.
  - intros n [<-|[<-|[<-|[]]]]; reflexivity.
  - change (NoDup [1%N; 2%N; 3%N]).
    apply NoDup_cons; [simpl; intros [H|[H|[]]]; discriminate|].
    apply NoDup_cons; [simpl; intros [H|[]]; discriminate|].
    apply NoDup_cons; [intros []|apply NoDup_nil].
Defined.

Lemma merge_tree_unlimited_witness :
  merge_tree empty_relations chain_tree None (-3) =
  merge_tree empty_relations chain_tree None 0.
Proof. apply merge_tree_unlimited. lia. Defined.
